(** * Shell-environment resolution and executable discovery

    A shallow embedding of [src/main/utils/shell-env.ts] and
    [src/main/utils/process.ts]: the PATH appender, the Windows registry
    PATH reader, the login-shell probe and its cache, the validated command
    lookup, the [where.exe] and [mise] fallbacks, the search and the check
    built on them, the command runner and the Git Bash locator.

    Conventions of the embedding.
    - A JavaScript string is a [string]: a character stands for the code
      unit of the same number, so the strings of the embedding are those
      whose code units are below 256 (Latin-1), and [toLowerCase], [trim]
      and the white space of a regular expression are those of JavaScript
      on such strings.
    - A [Record<string, string>] is an association list in insertion order,
      which is the order [Object.keys] enumerates the keys of an
      environment in (keys that are canonical array indices come first in
      JavaScript; no key compared here is one).
      An assignment [env[key] = value] to a key the object does not own
      adds the key, except for [__proto__], which a plain object inherits
      as an accessor: the assignment of a string to it stores nothing.
    - [undefined] and [null] are [None]; the JavaScript [a || b] on possibly
      absent strings is [a ||| b].
    - A call of the host that may throw yields an [attempt]; an exception
      thrown inside the executor of a promise rejects the promise.
    - Node's [path], [os], [fs] and [child_process] modules are outside the
      repository: the code is embedded over an interface for them, and two
      concrete instances are given to evaluate the code on examples.
    - Logging, spawning and file-system probes are recorded in a trace of
      events, so that "logs a warning" and "spawns nothing" are statements
      about the trace; the message of a log call is recorded, the object
      passed along with it is not. *)

From stdpp Require Import base list strings gmap pretty.
From Stdlib Require Import Ascii String ZArith Lia Bool.

Open Scope string_scope.
Open Scope list_scope.
Open Scope stdpp_scope.

(** ** JavaScript strings *)

Module JS.

Definition is_upper (c : ascii) : bool :=
  let n := nat_of_ascii c in (65 <=? n)%nat && (n <=? 90)%nat.

Definition is_lower (c : ascii) : bool :=
  let n := nat_of_ascii c in (97 <=? n)%nat && (n <=? 122)%nat.

Definition is_digit (c : ascii) : bool :=
  let n := nat_of_ascii c in (48 <=? n)%nat && (n <=? 57)%nat.

(** The capital letters below 256 besides [A-Z]: the letters from 192 to
    222 but for the multiplication sign (215). *)
Definition is_upper_latin (c : ascii) : bool :=
  let n := nat_of_ascii c in
  (192 <=? n)%nat && (n <=? 222)%nat && negb (n =? 215)%nat.

Definition lower_char (c : ascii) : ascii :=
  if is_upper c || is_upper_latin c then ascii_of_nat (nat_of_ascii c + 32)
  else c.

(** White space and line terminators: the characters 9 to 13, the space
    and the no-break space (160). *)
Definition is_space (c : ascii) : bool :=
  Ascii.is_space c || (nat_of_ascii c =? 160)%nat.

(** [String.prototype.toLowerCase]. *)
Fixpoint toLowerCase (s : string) : string :=
  match s with
  | EmptyString => EmptyString
  | String c s' => String (lower_char c) (toLowerCase s')
  end.

(** [String.prototype.startsWith]. *)
Definition startsWith (s pre : string) : bool := String.prefix pre s.

Fixpoint rev_onto (s acc : string) : string :=
  match s with
  | EmptyString => acc
  | String c s' => rev_onto s' (String c acc)
  end.

Definition reverse (s : string) : string := rev_onto s EmptyString.

(** [String.prototype.endsWith]. *)
Definition endsWith (s suf : string) : bool :=
  String.prefix (reverse suf) (reverse s).

(** [s.includes(c)] for a one-character needle. *)
Fixpoint includes_char (c : ascii) (s : string) : bool :=
  match s with
  | EmptyString => false
  | String d s' => if Ascii.eqb d c then true else includes_char c s'
  end.

Fixpoint trimStart (s : string) : string :=
  match s with
  | EmptyString => EmptyString
  | String c s' => if is_space c then trimStart s' else s
  end.

Fixpoint trimEnd (s : string) : string :=
  match s with
  | EmptyString => EmptyString
  | String c s' =>
      match trimEnd s' with
      | EmptyString => if is_space c then EmptyString else String c EmptyString
      | r => String c r
      end
  end.

(** [String.prototype.trim]. *)
Definition trim (s : string) : string := trimEnd (trimStart s).

(** Split at every character the predicate accepts: never the empty list. *)
Fixpoint split_on (p : ascii -> bool) (s : string) : list string :=
  match s with
  | EmptyString => [EmptyString]
  | String c s' =>
      if p c then EmptyString :: split_on p s'
      else match split_on p s' with
           | x :: xs => String c x :: xs
           | [] => [String c EmptyString]
           end
  end.

(** [s.split(sep)] for a one-character separator. *)
Definition split (sep : ascii) (s : string) : list string :=
  split_on (Ascii.eqb sep) s.

(** [l.join(sep)] for a one-character separator. *)
Definition join (sep : ascii) (l : list string) : string :=
  String.concat (String sep EmptyString) l.

(** [s.split(/\r?\n/)]. *)
Fixpoint split_lines (s : string) : list string :=
  match s with
  | EmptyString => [EmptyString]
  | String "013"%char (String "010"%char s') => EmptyString :: split_lines s'
  | String c s' =>
      if Ascii.eqb c "010"%char then EmptyString :: split_lines s'
      else match split_lines s' with
           | x :: xs => String c x :: xs
           | [] => [String c EmptyString]
           end
  end.

(** Truthiness of a string: the empty string is falsy. *)
Definition nonempty (s : string) : bool :=
  match s with EmptyString => false | _ => true end.

(** Truthiness of a possibly absent string. *)
Definition truthy (o : option string) : bool :=
  match o with Some s => nonempty s | None => false end.

(** [a || b] on possibly absent strings. *)
Definition or_else (a b : option string) : option string :=
  if truthy a then a else b.

(** [a || s] where the right operand is a string. *)
Definition or_default (a : option string) (s : string) : string :=
  match a with
  | Some x => if nonempty x then x else s
  | None => s
  end.

End JS.

Infix "|||" := JS.or_else (at level 50, left associativity).

(** ** Environment maps *)

Definition env := list (string * string).

Module Env.

(** [Object.keys(env)]. *)
Definition keys (e : env) : list string := map fst e.

(** [env[key]]. *)
Fixpoint get (e : env) (k : string) : option string :=
  match e with
  | [] => None
  | (k', v) :: e' => if String.eqb k' k then Some v else get e' k
  end.

(** [env[key] = value]: overwrite in place, or add the key last; the key
    [__proto__], when the map does not own it, is not added. *)
Fixpoint set (e : env) (k v : string) : env :=
  match e with
  | [] => if String.eqb k "__proto__" then [] else [(k, v)]
  | (k', v') :: e' =>
      if String.eqb k' k then (k', v) :: e' else (k', v') :: set e' k v
  end.

(** [keys.forEach((key) => { env[key] = value })]. *)
Definition set_all (e : env) (ks : list string) (v : string) : env :=
  fold_left (fun acc k => set acc k v) ks e.

(** The copy loop [for (const key in src) dst[key] = src[key] || ''] into a
    fresh object. *)
Definition copy (src : env) : env :=
  fold_left (fun acc kv => set acc (fst kv) (JS.or_default (Some (snd kv)) "")) src [].

End Env.

(** ** Regular expressions

    The fragment of JavaScript regular expressions the two modules use on
    whole strings, matched by derivatives. *)

Module Regex.

Inductive regex :=
  | Void
  | Eps
  | Class (p : ascii -> bool)
  | Seq (r1 r2 : regex)
  | Alt (r1 r2 : regex)
  | Upto (n : nat) (r : regex).   (* r{0,n} *)

Fixpoint nullable (r : regex) : bool :=
  match r with
  | Void => false
  | Eps => true
  | Class _ => false
  | Seq r1 r2 => nullable r1 && nullable r2
  | Alt r1 r2 => nullable r1 || nullable r2
  | Upto _ _ => true
  end.

Fixpoint deriv (c : ascii) (r : regex) : regex :=
  match r with
  | Void => Void
  | Eps => Void
  | Class p => if p c then Eps else Void
  | Seq r1 r2 =>
      if nullable r1 then Alt (Seq (deriv c r1) r2) (deriv c r2)
      else Seq (deriv c r1) r2
  | Alt r1 r2 => Alt (deriv c r1) (deriv c r2)
  | Upto 0 _ => Void
  | Upto (S n) r1 => Seq (deriv c r1) (Upto n r1)
  end.

(** [/^r$/.test(s)]: without the [m] flag the anchors are the two ends of
    the input. *)
Fixpoint test_anchored (r : regex) (s : string) : bool :=
  match s with
  | EmptyString => nullable r
  | String c s' => test_anchored (deriv c r) s'
  end.

End Regex.

(** ** The Node.js interface

    [NodePath] is the [path] module of the platform the program runs on
    together with the two platform flags of [@main/constant]; [Host] is the
    state of the host process and of the machine the code observes through
    [process], [os], [fs] and [child_process]. *)

Class NodePath := {
  isWin : bool;
  isMac : bool;
  path_sep : string;                          (* path.sep *)
  path_join : list string -> string;          (* path.join(...segments) *)
  path_normalize : string -> string;
  path_resolve : string -> string -> string;  (* cwd, then the argument *)
  path_dirname : string -> string;
  path_isAbsolute : string -> bool
}.

(** What a spawned child does, in the order the event loop delivers it. *)
Inductive child_event :=
  | ChildStdout (data : string)
  | ChildStderr (data : string)
  | ChildError (message : string)
  | ChildClose (code : option Z)
  | TimerFired.

(** The outcome of a call that may throw. *)
Inductive attempt (A : Type) :=
  | Returns (a : A)
  | Throws (message : string).
Arguments Returns {A} a.
Arguments Throws {A} message.

Class Host := {
  process_env : env;
  process_cwd : string;
  (* [os.homedir()] throws when the system knows no home directory *)
  os_homedir : attempt string;
  fs_existsSync : string -> bool;
  (* [None]: the call throws (not found, non-zero exit, timeout) *)
  execFileSync : string -> list string -> option env -> option string;
  (* [Throws]: the call refuses its arguments or its options, and there is
     no child; otherwise what the child does *)
  spawn : string -> list string -> option env -> attempt (list child_event)
}.

(** ** Effects *)

Inductive level := Debug | Info | Warn | Error.

Inductive event :=
  | Log (l : level) (message : string)
  | Spawned (cmd : string) (args : list string)
  | ExecFile (cmd : string) (args : list string)
  | Killed
  | ExistsSync (p : string)
  | ConfigSet (key value : string)
  (* an exception that leaves a callback of the event loop *)
  | Uncaught (message : string).

Definition is_spawn (ev : event) : bool :=
  match ev with Spawned _ _ | ExecFile _ _ => true | _ => false end.


(** A computation over the module state [S] that records what it does. *)
Definition M (S A : Type) : Type := S -> A * S * list event.

Definition ret {S A} (a : A) : M S A := fun s => (a, s, []).

Definition bind {S A B} (m : M S A) (f : A -> M S B) : M S B :=
  fun s =>
    let '(a, s1, t1) := m s in
    let '(b, s2, t2) := f a s1 in
    (b, s2, t1 ++ t2).

Definition emit {S} (ev : event) : M S unit := fun s => (tt, s, [ev]).
Definition read {S} : M S S := fun s => (s, s, []).
Definition write {S} (s' : S) : M S unit := fun _ => (tt, s', []).

Notation "'let*' x ':=' m 'in' k" := (bind m (fun x => k))
  (at level 10, x pattern, m at level 100, k at level 200).
Notation "m '>>' k" := (bind m (fun _ => k))
  (at level 100, k at level 200, right associativity).

Definition logger {S} (l : level) (message : string) : M S unit :=
  emit (Log l message).

(** The settlement of a promise. *)
Inductive promise (A : Type) :=
  | Pending
  | Resolved (a : A)
  | Rejected (message : string).
Arguments Pending {A}.
Arguments Resolved {A} a.
Arguments Rejected {A} message.

(** ** [shell-env.ts] *)

Module ShellEnv.

Section Code.
Context `{NP : NodePath} `{H : Host}.

Definition SHELL_ENV_TIMEOUT_MS : Z := 15000.

Definition pathSeparator : ascii := if isWin then ";"%char else ":"%char.

(** The home directory [appendCherryBinToPath] reads from its argument;
    [os.homedir()] is called when none of the four variables is truthy. *)
Definition homeDirFromEnv (e : env) : attempt string :=
  let fromEnv :=
    Env.get e "HOME" ||| Env.get e "Home" ||| Env.get e "USERPROFILE"
      ||| Env.get e "UserProfile" in
  if JS.truthy fromEnv then Returns (default "" fromEnv) else os_homedir.

(** The constants that follow in [appendCherryBinToPath] are functions of
    the home directory found and of the map. *)
Definition cherryBinPath (homeDirFromEnv : string) : string :=
  path_join [homeDirFromEnv; ".cherrystudio"; "bin"].

Definition pathKeys (e : env) : list string :=
  List.filter (fun key => String.eqb (JS.toLowerCase key) "path") (Env.keys e).

Definition canonicalPathKey (e : env) : string :=
  JS.or_default (head (pathKeys e)) (if isWin then "Path" else "PATH").

Definition existingPathValue (e : env) : string :=
  JS.or_default (Env.get e (canonicalPathKey e) ||| Env.get e "PATH") "".

Definition normaliseSegment (segment : string) : string :=
  let normalized := path_normalize segment in
  if isWin then JS.toLowerCase normalized else normalized.

(** The two accumulators of the closure: [uniqueSegments], [seenSegments]. *)
Definition segments : Type := list string * gset string.

Definition pushIfUnique (st : segments) (segment : string) : segments :=
  if negb (JS.nonempty segment) then st
  else
    let canonicalSegment := normaliseSegment segment in
    if decide (canonicalSegment ∈ st.2) then st
    else (st.1 ++ [segment], {[canonicalSegment]} ∪ st.2).

(** The segments of the existing PATH, split and trimmed. *)
Definition existingSegments (e : env) : list string :=
  map JS.trim (JS.split pathSeparator (existingPathValue e)).

(** [uniqueSegments] once the existing PATH and the tool directory have
    been pushed. *)
Definition uniqueSegments (homeDirFromEnv : string) (e : env) : list string :=
  let st := fold_left pushIfUnique (existingSegments e) ([], ∅) in
  (pushIfUnique st (cherryBinPath homeDirFromEnv)).1.

Definition updatedPath (homeDirFromEnv : string) (e : env) : string :=
  JS.join pathSeparator (uniqueSegments homeDirFromEnv e).

(** The assignments that end the function. *)
Definition assignPath (e : env) (updatedPath : string) : env :=
  let e1 :=
    match pathKeys e with
    | _ :: _ => Env.set_all e (pathKeys e) updatedPath
    | [] => Env.set e (canonicalPathKey e) updatedPath
    end in
  if isWin then e1 else Env.set e1 "PATH" updatedPath.

(** The function updates its argument in place; the updated map is the
    result here.  When [os.homedir()] throws, the function throws before it
    has assigned anything. *)
Definition appendCherryBinToPath (e : env) : attempt env :=
  match homeDirFromEnv e with
  | Returns home => Returns (assignPath e (updatedPath home e))
  | Throws message => Throws message
  end.

(** *** The registry reader *)

(** Drop [pre] (given in lower case) from the front of [s], ignoring case. *)
Fixpoint drop_prefix_ci (pre s : string) : option string :=
  match pre, s with
  | EmptyString, _ => Some s
  | String p pre', String c s' =>
      if Ascii.eqb (JS.lower_char c) p then drop_prefix_ci pre' s' else None
  | String _ _, EmptyString => None
  end.

(** What the capture group (any characters but line terminators, greedy)
    takes: up to the first line terminator. *)
Fixpoint take_line (s : string) : string :=
  match s with
  | EmptyString => EmptyString
  | String c s' =>
      if Ascii.eqb c "010"%char || Ascii.eqb c "013"%char then EmptyString
      else String c (take_line s')
  end.

(** The pattern of [queryRegValue] tried at the start of [s]: [REG_],
    an optional [EXPAND_], [SZ], white space, then the captured rest of
    the line; letters match in either case. *)
Definition match_reg_sz_here (s : string) : option string :=
  let after :=
    match drop_prefix_ci "reg_expand_sz" s with
    | Some r => Some r
    | None => drop_prefix_ci "reg_sz" s
    end in
  match after with
  | Some (String c r) =>
      if JS.is_space c then Some (take_line (JS.trimStart r)) else None
  | _ => None
  end.

(** [out.match] with that pattern: the capture of the leftmost match. *)
Fixpoint match_reg_sz (out : string) : option string :=
  match match_reg_sz_here out with
  | Some capture => Some capture
  | None =>
      match out with
      | EmptyString => None
      | String _ out' => match_reg_sz out'
      end
  end.

(** What [queryRegValue] returns: the trimmed capture, or [null] when the
    call throws or its output does not match. *)
Definition regValue (keyPath valueName : string) : option string :=
  match execFileSync "reg" ["query"; keyPath; "/v"; valueName] None with
  | Some out =>
      match match_reg_sz out with
      | Some capture => Some (JS.trim capture)
      | None => None
      end
  | None => None
  end.

Definition queryRegValue {S} (keyPath valueName : string) : M S (option string) :=
  emit (ExecFile "reg" ["query"; keyPath; "/v"; valueName]) >>
  ret (regValue keyPath valueName).

(** The key [Object.keys(env).find] returns for a variable name. *)
Definition find_key (e : env) (varName : string) : option string :=
  List.find (fun k => String.eqb (JS.toLowerCase k) (JS.toLowerCase varName))
    (Env.keys e).

(** The replacer of [expandWindowsEnvVars]. *)
Definition replacer (e : env) (original varName : string) : string :=
  match find_key e varName with
  | Some key =>
      if JS.nonempty key then
        match Env.get e key with Some v => v | None => original end
      else original
  | None => original
  end.

(** The longest run of characters other than [%] at the front of [s], and
    what follows it. *)
Fixpoint span_name (s : string) : string * string :=
  match s with
  | EmptyString => (EmptyString, EmptyString)
  | String c s' =>
      if Ascii.eqb c "%"%char then (EmptyString, s)
      else let '(name, rest) := span_name s' in (String c name, rest)
  end.

(** [value.replace(/%([^%]+)%/g, replacer)]: scan from the left; at a [%]
    followed by a non-empty run without [%] and a closing [%] the token is
    replaced and the scan resumes after it, otherwise the character is
    copied.  [fuel] bounds the scan by the length of the input. *)
Fixpoint expand_go (fuel : nat) (e : env) (s : string) : string :=
  match fuel with
  | O => s
  | S fuel' =>
      match s with
      | EmptyString => EmptyString
      | String c s' =>
          if Ascii.eqb c "%"%char then
            match span_name s' with
            | (String n name, String _ rest) =>
                let varName := String n name in
                replacer e ("%" +:+ varName +:+ "%") varName
                  +:+ expand_go fuel' e rest
            | _ => String c (expand_go fuel' e s')
            end
          else String c (expand_go fuel' e s')
      end
  end.

Definition expandWindowsEnvVars (value : string) (e : env) : string :=
  expand_go (String.length value) e value.

Definition HKLM_KEY : string :=
  "HKLM\SYSTEM\CurrentControlSet\Control\Session Manager\Environment".
Definition HKCU_KEY : string := "HKCU\Environment".

Definition readWindowsRegistryPath {S} (e : env) : M S (option string) :=
  let* systemPath := queryRegValue HKLM_KEY "Path" in
  let* userPath := queryRegValue HKCU_KEY "Path" in
  if negb (JS.truthy systemPath) && negb (JS.truthy userPath) then ret None
  else
    let present :=
      List.filter JS.nonempty (omap id [systemPath; userPath]) in
    ret (Some (expandWindowsEnvVars (JS.join ";"%char present) e)).

Definition getWindowsEnvironment {S} : M S (attempt env) :=
  let e := Env.copy process_env in
  let* registryPath := readWindowsRegistryPath e in
  let* e1 :=
    match registryPath with
    | Some rp =>
        if JS.nonempty rp then
          let ks :=
            List.filter (fun k => String.eqb (JS.toLowerCase k) "path")
              (Env.keys e) in
          let e' := Env.set_all e ks rp in
          let e'' := match ks with [] => Env.set e' "Path" rp | _ => e' end in
          logger Debug "Replaced PATH with fresh registry value" >> ret e''
        else
          logger Warn
            "Could not read PATH from Windows registry, keeping process.env PATH"
          >> ret e
    | None =>
        logger Warn
          "Could not read PATH from Windows registry, keeping process.env PATH"
        >> ret e
    end in
  ret (appendCherryBinToPath e1).

(** *** The login-shell probe *)

(** [s.indexOf(c)] for a one-character needle. *)
Fixpoint indexOf (c : ascii) (s : string) : option nat :=
  match s with
  | EmptyString => None
  | String d s' =>
      if Ascii.eqb d c then Some 0 else option_map Datatypes.S (indexOf c s')
  end.

(** One iteration of the loop that turns the [VAR=VALUE] lines into a map. *)
Definition parse_line (e : env) (line : string) : env :=
  let trimmedLine := JS.trim line in
  if JS.nonempty trimmedLine then
    match indexOf "="%char trimmedLine with
    | Some separatorIndex =>
        if (0 <? separatorIndex)%nat then
          let key := String.substring 0 separatorIndex trimmedLine in
          let value :=
            String.substring (separatorIndex + 1)
              (String.length trimmedLine - (separatorIndex + 1)) trimmedLine in
          Env.set e key value
        else e
    | None => e
    end
  else e.

Definition parse_env (output : string) : env :=
  fold_left parse_line (JS.split_lines output) [].

Definition code_string (code : option Z) : string :=
  match code with Some z => pretty z | None => "null" end.

(** The variables the handlers of the spawned shell close over. *)
Record probe := {
  output : string;
  errorOutput : string;
  settled : promise env        (* [Pending] while [settled] is false *)
}.

Definition is_settled (p : probe) : bool :=
  match settled p with Pending => false | _ => true end.

Definition describe (shellPath homeDirectory : string) : string :=
  "Shell: " +:+ shellPath +:+ ". Args: -ilc env. CWD: " +:+ homeDirectory.

(** One event of the child, handled by the callback registered for it.  The
    timer is cleared when the promise settles, so it fires only before.  An
    exception of [appendCherryBinToPath] leaves the [close] callback: the
    promise stays as it is. *)
Definition on_child_event {S} (shellPath homeDirectory : string)
    (p : probe) (ev : child_event) : M S probe :=
  match ev with
  | ChildStdout data =>
      ret {| output := output p +:+ data; errorOutput := errorOutput p;
             settled := settled p |}
  | ChildStderr data =>
      ret {| output := output p; errorOutput := errorOutput p +:+ data;
             settled := settled p |}
  | TimerFired =>
      if is_settled p then ret p
      else
        let errorMessage :=
          "Timed out after " +:+ pretty SHELL_ENV_TIMEOUT_MS
            +:+ "ms while retrieving shell environment. "
            +:+ describe shellPath homeDirectory in
        logger Error errorMessage >>
        emit Killed >>
        ret {| output := output p; errorOutput := errorOutput p;
               settled := Rejected errorMessage |}
  | ChildError message =>
      logger Error ("Failed to start shell process: " +:+ shellPath) >>
      if is_settled p then ret p
      else
        ret {| output := output p; errorOutput := errorOutput p;
               settled := Rejected ("Failed to start shell: " +:+ message) |}
  | ChildClose code =>
      if is_settled p then ret p
      else if negb (bool_decide (code = Some 0%Z)) then
        let errorMessage :=
          "Shell process exited with code " +:+ code_string code +:+ ". "
            +:+ describe shellPath homeDirectory +:+ ". Stderr: "
            +:+ JS.trim (errorOutput p) in
        logger Error errorMessage >>
        ret {| output := output p; errorOutput := errorOutput p;
               settled := Rejected errorMessage |}
      else
        (if JS.nonempty (JS.trim (errorOutput p)) then
           logger Warn
             ("Shell process stderr output (even with exit code 0):"
                +:+ String "010" (JS.trim (errorOutput p)))
         else ret tt) >>
        let e := parse_env (output p) in
        (if (List.length (Env.keys e) =? 0)%nat && (String.length (output p) <? 100)%nat
         then
           logger Warn
             "Parsed environment is empty or output was very short. This might indicate an issue with shell execution or environment variable retrieval."
           >> logger Warn ("Raw output from shell:" +:+ String "010" (output p))
         else ret tt) >>
        match appendCherryBinToPath e with
        | Returns e' =>
            ret {| output := output p; errorOutput := errorOutput p;
                   settled := Resolved e' |}
        | Throws message => emit (Uncaught message) >> ret p
        end
  end.

Fixpoint run_child {S} (shellPath homeDirectory : string)
    (p : probe) (evs : list child_event) : M S probe :=
  match evs with
  | [] => ret p
  | ev :: evs' =>
      let* p' := on_child_event shellPath homeDirectory p ev in
      run_child shellPath homeDirectory p' evs'
  end.

Definition homeDirectory : attempt string :=
  let fromEnv :=
    Env.get process_env "HOME" ||| Env.get process_env "Home"
      ||| Env.get process_env "USERPROFILE"
      ||| Env.get process_env "UserProfile" in
  if JS.truthy fromEnv then Returns (default "" fromEnv) else os_homedir.

(** [shellPath] once the default has been applied. *)
Definition shellPath : string :=
  JS.or_default (Env.get process_env "SHELL")
    (if isMac then "/bin/zsh" else "/bin/bash").

(** A shell that was spawned: its path and the directory it runs in. *)
Definition shell : Type := string * string.

(** The part of [getLoginShellEnvironment] that runs before the call
    returns its promise: on Windows the whole registry read, elsewhere
    everything up to and including the [spawn].  The result is the promise
    when it is settled already, or the shell that was spawned.  An exception
    thrown in the executor rejects the promise.  On Windows an exception of
    [getWindowsEnvironment] leaves the call itself; the one caller awaits
    the call inside its [try], where the exception and the rejection are
    caught alike, so it is recorded as the rejection. *)
Definition probe_start {S} : M S (promise env + shell) :=
  if isWin then
    let* r := getWindowsEnvironment in
    match r with
    | Returns e => ret (inl (Resolved e))
    | Throws message => ret (inl (Rejected message))
    end
  else
    match homeDirectory with
    | Throws message => ret (inl (Rejected message))
    | Returns homeDirectory =>
        if negb (JS.nonempty homeDirectory) then
          ret (inl (Rejected "Could not determine user's home directory."))
        else
          (if JS.truthy (Env.get process_env "SHELL") then ret tt
           else if isMac then
             logger Warn "process.env.SHELL is not set. Defaulting to /bin/zsh for macOS. This might not be the user's login shell."
           else
             logger Warn "process.env.SHELL is not set. Defaulting to /bin/bash. This might not be the user's login shell.") >>
          logger Debug
            ("Spawning shell: " +:+ shellPath +:+ " with args: -ilc env in "
               +:+ homeDirectory) >>
          emit (Spawned shellPath ["-ilc"; "env"]) >>
          match spawn shellPath ["-ilc"; "env"] None with
          | Throws message => ret (inl (Rejected message))
          | Returns _ => ret (inr (shellPath, homeDirectory))
          end
    end.

(** The rest of it: the callbacks, run on what the child does. *)
Definition probe_finish {S} (sh : shell) (evs : list child_event)
  : M S (promise env) :=
  let* p :=
    run_child sh.1 sh.2
      {| output := ""; errorOutput := ""; settled := Pending |} evs in
  ret (settled p).

(** What the child of a [spawn] that returned does. *)
Definition child_events (child : attempt (list child_event))
  : list child_event :=
  match child with Returns evs => evs | Throws _ => [] end.

(** The fallback of [fetchShellEnv]. *)
Definition fallbackEnv : attempt env :=
  appendCherryBinToPath (Env.copy process_env).

(** The [catch] of [fetchShellEnv], applied to the settled probe; an
    exception thrown in it rejects the promise of [fetchShellEnv]. *)
Definition fetch_settle {S} (r : promise env) : M S (promise env) :=
  match r with
  | Rejected _ =>
      logger Error "Failed to get shell environment, falling back to process.env"
      >> match fallbackEnv with
         | Returns e => ret (Resolved e)
         | Throws message => ret (Rejected message)
         end
  | other => ret other
  end.

Definition getLoginShellEnvironment {S} : M S (promise env) :=
  let* started := probe_start in
  match started with
  | inl settled_already => ret settled_already
  | inr sh =>
      probe_finish sh (child_events (spawn sh.1 ["-ilc"; "env"] None))
  end.

Definition fetchShellEnv {S} : M S (promise env) :=
  let* r := getLoginShellEnvironment in fetch_settle r.

(** The module state is [cachedEnv]. *)
Definition getShellEnv : M (option env) (promise env) :=
  let* cachedEnv := read in
  match cachedEnv with
  | Some e => ret (Resolved e)
  | None =>
      let* r := fetchShellEnv in
      match r with
      | Resolved e => write (Some e) >> ret (Resolved e)
      | other => ret other
      end
  end.

Definition refreshShellEnv : M (option env) (promise env) :=
  let* r := fetchShellEnv in
  match r with
  | Resolved e => write (Some e) >> ret (Resolved e)
  | other => ret other
  end.

(** *** Calls of [getShellEnv] on the event loop

    An [async] call runs to its [await] and is resumed by the event loop
    when the awaited promise has settled.  [getShellEnv] has one [await]:
    the call tests [cachedEnv], starts its probe and suspends; resumed, it
    stores the probe's result in [cachedEnv] and returns it, or rejects
    when [fetchShellEnv] has rejected. *)

Record loop := {
  cachedEnv : option env;
  (* the suspended calls, each with the probe it started *)
  awaiting : list (nat * (promise env + shell));
  (* the calls that returned, each with what its promise settled to *)
  returned : list (nat * promise env);
  happened : list event
}.

Definition loop_init : loop :=
  {| cachedEnv := None; awaiting := []; returned := []; happened := [] |}.

(** A new call of [getShellEnv] by [who], up to its suspension.  With a
    cached map the call has nothing to wait for. *)
Definition call (who : nat) (st : loop) : loop :=
  match cachedEnv st with
  | Some e =>
      {| cachedEnv := cachedEnv st; awaiting := awaiting st;
         returned := returned st ++ [(who, Resolved e)];
         happened := happened st |}
  | None =>
      let '(started, _, evs) := probe_start (S := unit) tt in
      {| cachedEnv := cachedEnv st;
         awaiting := awaiting st ++ [(who, started)];
         returned := returned st; happened := happened st ++ evs |}
  end.

Definition remove_call (who : nat) (l : list (nat * (promise env + shell)))
  : list (nat * (promise env + shell)) :=
  List.filter (fun x => negb (x.1 =? who)%nat) l.

(** The event loop resumes the call of [who]; [evs] is what the shell it
    spawned did.  A call whose probe has not settled stays suspended. *)
Definition wake (who : nat) (evs : list child_event) (st : loop) : loop :=
  match List.find (fun x => (x.1 =? who)%nat) (awaiting st) with
  | None => st
  | Some (_, started) =>
      let '(r, _, t1) :=
        match started with
        | inl r => ret (S := unit) r tt
        | inr sh => probe_finish (S := unit) sh evs tt
        end in
      let '(r', _, t2) := fetch_settle (S := unit) r tt in
      match r' with
      | Resolved e =>
          {| cachedEnv := Some e;
             awaiting := remove_call who (awaiting st);
             returned := returned st ++ [(who, Resolved e)];
             happened := happened st ++ t1 ++ t2 |}
      | Rejected message =>
          {| cachedEnv := cachedEnv st;
             awaiting := remove_call who (awaiting st);
             returned := returned st ++ [(who, Rejected message)];
             happened := happened st ++ t1 ++ t2 |}
      | Pending =>
          {| cachedEnv := cachedEnv st; awaiting := awaiting st;
             returned := returned st; happened := happened st ++ t1 ++ t2 |}
      end
  end.

(** [calls n st]: the callers [0 .. n-1] call one after the other, nothing
    settling in between. *)
Fixpoint calls (n : nat) (st : loop) : loop :=
  match n with
  | O => st
  | Datatypes.S n' => call n' (calls n' st)
  end.

(** The probes started so far: each one spawns a shell, or on Windows
    queries the registry twice. *)
Definition probes_started (st : loop) : nat :=
  if isWin then Nat.div (List.length (List.filter is_spawn (happened st))) 2
  else List.length (List.filter is_spawn (happened st)).

End Code.
End ShellEnv.

(** ** Two models of Node's [path] module

    [posix] follows [path.posix].  [win32] follows [path.win32] on
    drive-letter paths ([C:\...]), rooted paths and relative paths, the
    current directory being a drive-letter path; UNC and device paths are
    outside it.  The theorems below quantify over every
    [NodePath]; the models serve to evaluate the code on examples. *)

Module Node.

Definition is_slash (c : ascii) : bool := Ascii.eqb c "/"%char.
Definition is_win_sep (c : ascii) : bool :=
  Ascii.eqb c "/"%char || Ascii.eqb c "\"%char.

(** [normalizeString]: drop empty and [.] segments, let [..] cancel the
    segment before it; [acc] is the result so far, last segment first. *)
Fixpoint normalize_segments (allowAboveRoot : bool) (segs acc : list string)
  : list string :=
  match segs with
  | [] => rev acc
  | seg :: rest =>
      if String.eqb seg "" || String.eqb seg "." then
        normalize_segments allowAboveRoot rest acc
      else if String.eqb seg ".." then
        match acc with
        | top :: acc' =>
            if String.eqb top ".." then
              normalize_segments allowAboveRoot rest
                (if allowAboveRoot then ".." :: acc else acc)
            else normalize_segments allowAboveRoot rest acc'
        | [] =>
            normalize_segments allowAboveRoot rest
              (if allowAboveRoot then [".."] else [])
        end
      else normalize_segments allowAboveRoot rest (seg :: acc)
  end.

Definition normalizeString (isSep : ascii -> bool) (sep : ascii)
    (allowAboveRoot : bool) (p : string) : string :=
  JS.join sep (normalize_segments allowAboveRoot (JS.split_on isSep p) []).

Definition last_is (isSep : ascii -> bool) (p : string) : bool :=
  match JS.reverse p with
  | String c _ => isSep c
  | EmptyString => false
  end.

(** Join the non-empty arguments with [sep]; [None] when there is none. *)
Definition join_args (sep : ascii) (args : list string) : option string :=
  match List.filter JS.nonempty args with
  | [] => None
  | l => Some (JS.join sep l)
  end.

(** The scan of [dirname] over the part of the path after its root: skip
    the trailing separators and the last segment; what is left, without its
    final separator, is the directory.  The argument is reversed. *)
Fixpoint drop_while (p : ascii -> bool) (s : string) : string :=
  match s with
  | EmptyString => EmptyString
  | String c s' => if p c then drop_while p s' else s
  end.

Definition dirname_scan (isSep : ascii -> bool) (tail : string) : option string :=
  let r := drop_while isSep (JS.reverse tail) in
  let r := drop_while (fun c => negb (isSep c)) r in
  match r with
  | String _ r' => Some (JS.reverse r')
  | EmptyString => None
  end.

Module Posix.

Definition isAbsolute (p : string) : bool :=
  match p with String c _ => is_slash c | EmptyString => false end.

Definition normalize (p : string) : string :=
  match p with
  | EmptyString => "."
  | _ =>
      let abs := isAbsolute p in
      let trailing := last_is is_slash p in
      let body := normalizeString is_slash "/"%char (negb abs) p in
      match body with
      | EmptyString => if abs then "/" else if trailing then "./" else "."
      | _ =>
          let body := if trailing then body +:+ "/" else body in
          if abs then "/" +:+ body else body
      end
  end.

Definition join (args : list string) : string :=
  match join_args "/"%char args with
  | None => "."
  | Some joined => normalize joined
  end.

Definition resolve (cwd p : string) : string :=
  let full :=
    if isAbsolute p then p
    else if JS.nonempty p then cwd +:+ "/" +:+ p else cwd in
  let body := normalizeString is_slash "/"%char false full in
  if isAbsolute full then "/" +:+ body
  else if JS.nonempty body then body else ".".

Definition dirname (p : string) : string :=
  match p with
  | EmptyString => "."
  | String c tail =>
      (* the scan never looks at the first character *)
      match dirname_scan is_slash tail with
      | Some d =>
          if is_slash c && negb (JS.nonempty d) then "//" else String c d
      | None => if is_slash c then "/" else "."
      end
  end.

End Posix.

Module Win32.

(** The root of a path: [C:\], [C:], [\] or nothing; then the rest. *)
Definition split_root (p : string) : string * string :=
  match p with
  | String d (String ":" (String c rest)) =>
      if (JS.is_upper d || JS.is_lower d) then
        if is_win_sep c then (String d (String ":" (String c "")), rest)
        else (String d ":", String c rest)
      else if is_win_sep d then (String d "", String ":" (String c rest))
      else ("", p)
  | String d (String ":" EmptyString) =>
      if (JS.is_upper d || JS.is_lower d) then (p, "") else
      if is_win_sep d then (String d "", ":") else ("", p)
  | String c rest => if is_win_sep c then (String c "", rest) else ("", p)
  | EmptyString => ("", "")
  end.

(** The device of a root ([C:]) and whether the root is absolute. *)
Definition device (root : string) : string :=
  match root with
  | String d (String ":" _) => String d ":"
  | _ => ""
  end.

Definition root_absolute (root : string) : bool := last_is is_win_sep root.

Definition isAbsolute (p : string) : bool := root_absolute (split_root p).1.

Definition normalize (p : string) : string :=
  match p with
  | EmptyString => "."
  | _ =>
      let '(root, rest) := split_root p in
      let abs := root_absolute root in
      let tail := normalizeString is_win_sep "\"%char (negb abs) rest in
      let tail := if negb (JS.nonempty tail) && negb abs then "." else tail in
      let tail :=
        if JS.nonempty tail && last_is is_win_sep p then tail +:+ "\" else tail in
      if abs then device root +:+ "\" +:+ tail else device root +:+ tail
  end.

Definition join (args : list string) : string :=
  match join_args "\"%char args with
  | None => "."
  | Some joined => normalize joined
  end.

(** A rooted path without a drive takes the drive of the current
    directory; a path relative to a drive is taken from the current
    directory when that is on the drive, and from the root of the drive
    otherwise (the per-drive current directories that the command
    interpreter keeps in variables named after the drive are not part of
    [Host]). *)
Definition resolve (cwd p : string) : string :=
  let '(root_p, rest_p) := split_root p in
  let drive := device (split_root cwd).1 in
  let full :=
    if root_absolute root_p then
      if JS.nonempty (device root_p) then p else drive +:+ p
    else if negb (JS.nonempty (device root_p)) then
      if JS.nonempty p then cwd +:+ "\" +:+ p else cwd
    else if String.eqb (JS.toLowerCase (device root_p)) (JS.toLowerCase drive) then
      device root_p +:+ "\" +:+ (split_root cwd).2 +:+ "\" +:+ rest_p
    else device root_p +:+ "\" +:+ rest_p in
  let '(root, rest) := split_root full in
  let abs := root_absolute root in
  let tail := normalizeString is_win_sep "\"%char (negb abs) rest in
  if abs then device root +:+ "\" +:+ tail
  else if JS.nonempty (device root +:+ tail) then device root +:+ tail else ".".

Definition dirname (p : string) : string :=
  match p with
  | EmptyString => "."
  | String c EmptyString => if is_win_sep c then p else "."
  | _ =>
      let '(root, rest) := split_root p in
      match dirname_scan is_win_sep rest with
      | Some d => root +:+ d
      | None => if JS.nonempty root then root else "."
      end
  end.

End Win32.

Definition posix (mac : bool) : NodePath := {|
  isWin := false;
  isMac := mac;
  path_sep := "/";
  path_join := Posix.join;
  path_normalize := Posix.normalize;
  path_resolve := Posix.resolve;
  path_dirname := Posix.dirname;
  path_isAbsolute := Posix.isAbsolute
|}.

Definition win32 : NodePath := {|
  isWin := true;
  isMac := false;
  path_sep := "\";
  path_join := Win32.join;
  path_normalize := Win32.normalize;
  path_resolve := Win32.resolve;
  path_dirname := Win32.dirname;
  path_isAbsolute := Win32.isAbsolute
|}.

End Node.

(** ** [process.ts] *)

Module Process.

(** Modelled from the spec: the type [GitBashPathSource] of
    [@shared/config/constant], whose declaration is not among the sources;
    the spec gives its three values as "env", "manual" and "auto". *)
Inductive GitBashPathSource := SourceEnv | SourceManual | SourceAuto.

(** Modelled from the spec: the two keys of the configuration store that
    [configManager.get] reads and [configManager.set] writes; the store
    itself ([services/ConfigManager]) is not among the sources. *)
Record config := {
  GitBashPath : option string;
  GitBashPathSource_ : option GitBashPathSource
}.

Record GitBashPathInfo := {
  path : option string;
  source : option GitBashPathSource
}.

Record FindExecutableOptions := {
  extensions : option (list string);
  env_ : option env
}.

Section Code.
Context `{NP : NodePath} `{H : Host}.

Definition COMMAND_LOOKUP_TIMEOUT_MS : Z := 5000.
Definition MAX_OUTPUT_SIZE : N := 10240.

Definition first_char (c : ascii) : bool :=
  JS.is_lower c || JS.is_upper c || JS.is_digit c || Ascii.eqb c "_"%char.

Definition rest_char (c : ascii) : bool :=
  JS.is_lower c || JS.is_upper c || JS.is_digit c || Ascii.eqb c "_"%char
    || Ascii.eqb c "-"%char.

(** [/^[a-zA-Z0-9_][a-zA-Z0-9_-]{0,127}$/] *)
Definition VALID_COMMAND_NAME_REGEX : Regex.regex :=
  Regex.Seq (Regex.Class first_char) (Regex.Upto 127 (Regex.Class rest_char)).

(** The script given to [/bin/sh]: [command -v] applied to the first
    positional parameter, written between double quotes (character 34). *)
Definition COMMAND_V : string :=
  "command -v " +:+ String (ascii_of_nat 34) "$1" +:+ String (ascii_of_nat 34) "".

(** The variables the callbacks of a lookup close over; [timer] is false
    once [clearTimeout] has run. *)
Record lookup := {
  output : string;
  resolved : promise (option string);
  timer : bool
}.

Definition is_resolved (l : lookup) : bool :=
  match resolved l with Pending => false | _ => true end.

Definition safeResolve (l : lookup) (value : option string) : lookup :=
  if is_resolved l then l
  else {| output := output l; resolved := Resolved value; timer := timer l |}.

Definition clearTimeout (l : lookup) : lookup :=
  {| output := output l; resolved := resolved l; timer := false |}.

(** What the [close] callback resolves to when the lookup succeeded. *)
Definition pick_path {S} (command : string) (out : string)
  : M S (option string) :=
  if isWin then
    let paths := JS.split_lines (JS.trim out) in
    match List.find (fun p => JS.endsWith (JS.toLowerCase p) ".exe") paths with
    | Some exePath =>
        if JS.nonempty exePath then ret (Some exePath)
        else
          logger Debug ("Command '" +:+ command +:+ "' found but not as .exe ("
                          +:+ default "" (head paths)
                          +:+ "), treating as not found")
          >> ret None
    | None =>
        logger Debug ("Command '" +:+ command +:+ "' found but not as .exe ("
                        +:+ default "" (head paths)
                        +:+ "), treating as not found")
        >> ret None
    end
  else
    let commandPath := default "" (head (JS.split "010"%char (JS.trim out))) in
    if path_isAbsolute commandPath then ret (Some commandPath)
    else
      logger Debug ("Command '" +:+ command +:+ "' resolved to non-path '"
                      +:+ commandPath +:+ "', treating as not found")
      >> ret None.

Definition on_lookup_event {S} (command : string) (l : lookup)
    (ev : child_event) : M S lookup :=
  match ev with
  | ChildStdout data =>
      if (N.of_nat (String.length (output l)) <? MAX_OUTPUT_SIZE)%N then
        ret {| output := output l +:+ data; resolved := resolved l;
               timer := timer l |}
      else ret l
  | ChildStderr _ => ret l
  | TimerFired =>
      if negb (timer l) || is_resolved l then ret l
      else
        emit Killed >>
        logger Debug
          (if isWin then "Timeout checking command '" +:+ command +:+ "' on Windows"
           else "Timeout checking command '" +:+ command +:+ "'") >>
        ret (safeResolve l None)
  | ChildClose code =>
      let l := clearTimeout l in
      if is_resolved l then ret l
      else if bool_decide (code = Some 0%Z) && JS.nonempty (JS.trim (output l))
      then
        let* found := pick_path command (output l) in
        ret (safeResolve l found)
      else
        logger Debug ("Command '" +:+ command +:+ "' not found in shell environment")
        >> ret (safeResolve l None)
  | ChildError _ =>
      let l := clearTimeout l in
      if is_resolved l then ret l
      else
        logger Warn ("Error checking command '" +:+ command +:+ "':")
        >> ret (safeResolve l None)
  end.

Fixpoint run_lookup {S} (command : string) (l : lookup)
    (evs : list child_event) : M S lookup :=
  match evs with
  | [] => ret l
  | ev :: evs' =>
      let* l' := on_lookup_event command l ev in
      run_lookup command l' evs'
  end.

Definition findCommandInShellEnv {S} (command : string) (loginShellEnv : env)
  : M S (promise (option string)) :=
  if negb (Regex.test_anchored VALID_COMMAND_NAME_REGEX command) then
    logger Warn
      ("Invalid command name '" +:+ command
         +:+ "' - must only contain alphanumeric characters, underscore, or hyphen")
    >> ret (Resolved None)
  else
    let '(cmd, args) :=
      if isWin then ("where", [command])
      else ("/bin/sh", ["-c"; COMMAND_V; "--"; command]) in
    emit (Spawned cmd args) >>
    match spawn cmd args (Some loginShellEnv) with
    | Throws message => ret (Rejected message)
    | Returns child =>
        let* l :=
          run_lookup command
            {| output := ""; resolved := Pending; timer := true |} child in
        ret (resolved l)
    end.

(** [getCommonGitRoots] *)
Definition getCommonGitRoots : list string :=
  [ path_join [JS.or_default (Env.get process_env "ProgramFiles") "C:\Program Files"; "Git"];
    path_join [JS.or_default (Env.get process_env "ProgramFiles(x86)") "C:\Program Files (x86)"; "Git"] ]
  ++ match Env.get process_env "LOCALAPPDATA" with
     | Some local =>
         if JS.nonempty local then [path_join [local; "Programs"; "Git"]] else []
     | None => []
     end.

(** [fs.existsSync], recorded. *)
Definition existsSync {S} (p : string) : M S bool :=
  emit (ExistsSync p) >> ret (fs_existsSync p).

(** The first loop of [findExecutable]: the common installation roots. *)
Fixpoint find_git_at_roots {S} (name : string) (roots : list string)
  : M S (option string) :=
  match roots with
  | [] => ret None
  | root :: roots' =>
      let gitPath := path_join [root; "cmd"; "git.exe"] in
      let* present := existsSync gitPath in
      if present then
        logger Debug ("Found " +:+ name +:+ " at common path") >> ret (Some gitPath)
      else find_git_at_roots name roots'
  end.

(** The test that skips a candidate: its directory is the current
    directory or starts with the current directory and a separator. *)
Definition in_current_dir (execDir currentDir : string) : bool :=
  String.eqb execDir currentDir
    || JS.startsWith execDir (currentDir +:+ path_sep).

(** The second loop of [findExecutable]: the lines of [where.exe]. *)
Fixpoint scan_where {S} (name : string) (exts : list string)
    (currentDir : string) (paths : list string) : M S (option string) :=
  match paths with
  | [] => ret None
  | exePath :: paths' =>
      let cleanPath := JS.trim exePath in
      let lowerPath := JS.toLowerCase cleanPath in
      let hasAllowedExtension :=
        existsb (fun ext => JS.endsWith lowerPath (JS.toLowerCase ext)) exts in
      if negb hasAllowedExtension then scan_where name exts currentDir paths'
      else
        let resolvedPath := JS.toLowerCase (path_resolve process_cwd cleanPath) in
        let execDir := JS.toLowerCase (path_dirname resolvedPath) in
        if in_current_dir execDir currentDir then
          logger Warn "Skipping potentially malicious executable in current directory"
          >> scan_where name exts currentDir paths'
        else
          logger Debug ("Found " +:+ name +:+ " via where.exe")
          >> ret (Some cleanPath)
  end.

Definition findExecutable {S} (name : string)
    (options : option FindExecutableOptions) : M S (option string) :=
  if negb isWin then ret None
  else
    let exts :=
      default [".exe"; ".cmd"] (options ≫= extensions) in
    let* atRoot :=
      if String.eqb name "git" then find_git_at_roots name getCommonGitRoots
      else ret None in
    match atRoot with
    | Some gitPath => ret (Some gitPath)
    | None =>
        emit (ExecFile "where.exe" [name]) >>
        match execFileSync "where.exe" [name] (options ≫= env_) with
        | Some result =>
            let paths :=
              List.filter JS.nonempty (JS.split_lines (JS.trim result)) in
            let currentDir := JS.toLowerCase process_cwd in
            scan_where name exts currentDir paths
        | None =>
            logger Debug ("where.exe " +:+ name +:+ " failed") >> ret None
        end
    end.

Definition validateGitBashPath {S} (customPath : option string)
  : M S (option string) :=
  if negb (JS.truthy customPath) then ret None
  else
    let resolved := path_resolve process_cwd (default "" customPath) in
    let* present := existsSync resolved in
    if negb present then
      logger Warn "Custom Git Bash path does not exist" >> ret None
    else
      let isExe := JS.endsWith (JS.toLowerCase resolved) "bash.exe" in
      if negb isExe then
        logger Warn "Custom Git Bash path is not bash.exe" >> ret None
      else
        logger Debug "Validated custom Git Bash path" >> ret (Some resolved).

(** The loop of [findGitBash] over the locations derived from [git.exe]. *)
Fixpoint first_existing_resolved {S} (candidates : list string)
  : M S (option string) :=
  match candidates with
  | [] => ret None
  | bashPath :: rest =>
      let resolvedBashPath := path_resolve process_cwd bashPath in
      let* present := existsSync resolvedBashPath in
      if present then
        logger Debug "Found bash.exe via git.exe path derivation"
        >> ret (Some resolvedBashPath)
      else first_existing_resolved rest
  end.

(** The last loop of [findGitBash]: the common installation roots. *)
Fixpoint find_bash_at_roots {S} (roots : list string) : M S (option string) :=
  match roots with
  | [] => ret None
  | root :: roots' =>
      let fullPath := path_join [root; "bin"; "bash.exe"] in
      let* present := existsSync fullPath in
      if present then
        logger Debug "Found bash.exe at common path" >> ret (Some fullPath)
      else find_bash_at_roots roots'
  end.

(** Steps 3 and 4 of [findGitBash]. *)
Definition discover_bash {S} : M S (option string) :=
  let* gitPath := findExecutable "git" None in
  let* derived :=
    match gitPath with
    | Some gitPath =>
        if JS.nonempty gitPath then
          let possibleBashPaths :=
            [ path_join [gitPath; ".."; ".."; "bin"; "bash.exe"];
              path_join [gitPath; ".."; "bash.exe"];
              path_join [gitPath; ".."; ".."; "usr"; "bin"; "bash.exe"] ] in
          let* found := first_existing_resolved possibleBashPaths in
          match found with
          | Some p => ret (Some p)
          | None =>
              logger Debug "bash.exe not found at expected locations relative to git.exe"
              >> ret None
          end
        else ret None
    | None => ret None
    end in
  match derived with
  | Some p => ret (Some p)
  | None =>
      let* atRoot := find_bash_at_roots getCommonGitRoots in
      match atRoot with
      | Some p => ret (Some p)
      | None =>
          logger Debug "bash.exe not found - checked git derivation and common paths"
          >> ret None
      end
  end.

Definition CLAUDE_CODE_GIT_BASH_PATH : option string :=
  Env.get process_env "CLAUDE_CODE_GIT_BASH_PATH".

Definition findGitBash {S} (customPath : option string) : M S (option string) :=
  if negb isWin then ret None
  else
    (* 1. custom path from config *)
    let* fromConfig :=
      if JS.truthy customPath then
        let* validated := validateGitBashPath customPath in
        if JS.truthy validated then
          logger Debug "Using custom Git Bash path from config" >> ret validated
        else
          logger Warn "Custom Git Bash path provided but invalid" >> ret None
      else ret None in
    match fromConfig with
    | Some p => ret (Some p)
    | None =>
        (* 2. environment variable override *)
        let envOverride := CLAUDE_CODE_GIT_BASH_PATH in
        let* fromEnv :=
          if JS.truthy envOverride then
            let* validated := validateGitBashPath envOverride in
            if JS.truthy validated then
              logger Debug "Using CLAUDE_CODE_GIT_BASH_PATH override for bash.exe"
              >> ret validated
            else
              logger Warn "CLAUDE_CODE_GIT_BASH_PATH provided but path is invalid"
              >> ret None
          else ret None in
        match fromEnv with
        | Some p => ret (Some p)
        | None => discover_bash
        end
    end.

Definition autoDiscoverGitBash : M config (option string) :=
  if negb isWin then ret None
  else
    (* 1. environment variable override *)
    let envOverride := CLAUDE_CODE_GIT_BASH_PATH in
    let* fromEnv :=
      if JS.truthy envOverride then
        let* validated := validateGitBashPath envOverride in
        if JS.truthy validated then
          logger Debug "Using CLAUDE_CODE_GIT_BASH_PATH override" >> ret validated
        else
          logger Warn "CLAUDE_CODE_GIT_BASH_PATH provided but path is invalid"
          >> ret None
      else ret None in
    match fromEnv with
    | Some p => ret (Some p)
    | None =>
        (* 2. a path already configured *)
        let* cfg := read in
        let existingPath := GitBashPath cfg in
        let* fromConfig :=
          if JS.truthy existingPath then
            let* validated := validateGitBashPath existingPath in
            if JS.truthy validated then ret validated
            else
              logger Warn "Existing Git Bash path is invalid, attempting auto-discovery"
              >> ret None
          else ret None in
        match fromConfig with
        | Some p => ret (Some p)
        | None =>
            (* 3. auto-discovery *)
            let* discoveredPath := findGitBash None in
            (if JS.truthy discoveredPath then
               emit (ConfigSet "GitBashPath" (default "" discoveredPath)) >>
               emit (ConfigSet "GitBashPathSource" "auto") >>
               write {| GitBashPath := discoveredPath;
                        GitBashPathSource_ := Some SourceAuto |} >>
               logger Info "Auto-discovered Git Bash path"
             else ret tt) >>
            ret discoveredPath
        end
    end.

Definition getGitBashPathInfo : M config GitBashPathInfo :=
  if negb isWin then ret {| path := None; source := None |}
  else
    let* cfg := read in
    let path0 := GitBashPath cfg in
    let source0 := GitBashPathSource_ cfg in
    if negb (JS.truthy path0) then
      let* discovered := autoDiscoverGitBash in
      ret {| path := discovered;
             source := if JS.truthy discovered then Some SourceAuto else None |}
    else ret {| path := path0; source := source0 |}.

(** [await]: the rest of an [async] function runs on the value of a
    resolved promise; a pending or rejected one is what the function
    returns. *)
Definition await {S A B} (m : M S (promise A)) (k : A -> M S (promise B))
  : M S (promise B) :=
  let* r := m in
  match r with
  | Resolved a => k a
  | Pending => ret Pending
  | Rejected message => ret (Rejected message)
  end.

Definition MISE_TIMEOUT_MS : Z := 5000.

(** [result.trim().split(/\r?\n/)[0]?.trim()] *)
Definition first_line (result : string) : string :=
  JS.trim (default "" (head (JS.split_lines (JS.trim result)))).

Definition findMiseExecutable {S} (e : env) : M S (option string) :=
  emit (ExecFile "where.exe" ["mise"]) >>
  match execFileSync "where.exe" ["mise"] (Some e) with
  | Some result =>
      let firstLine := first_line result in
      if JS.nonempty firstLine
         && JS.endsWith (JS.toLowerCase firstLine) ".exe"
      then ret (Some firstLine)
      else ret None
  | None => ret None
  end.

Definition findViaMise {S} (name : string) (e : env) : M S (option string) :=
  if negb isWin then ret None
  else if negb (Regex.test_anchored VALID_COMMAND_NAME_REGEX name) then ret None
  else
    let* misePath := findMiseExecutable e in
    if negb (JS.truthy misePath) then
      logger Debug "mise not found, skipping mise fallback" >> ret None
    else
      let misePath := default "" misePath in
      emit (ExecFile misePath ["which"; name]) >>
      match execFileSync misePath ["which"; name] (Some e) with
      | Some result =>
          let resolvedPath := first_line result in
          if negb (JS.nonempty resolvedPath)
             || negb (path_isAbsolute resolvedPath)
          then
            logger Debug ("mise which " +:+ name
                            +:+ " returned non-absolute path: " +:+ resolvedPath)
            >> ret None
          else
            let* present := existsSync resolvedPath in
            if negb present then
              logger Debug ("mise which " +:+ name
                              +:+ " returned non-existent path: " +:+ resolvedPath)
              >> ret None
            else
              logger Debug ("Found " +:+ name +:+ " via mise")
              >> ret (Some resolvedPath)
      | None =>
          logger Debug ("mise which " +:+ name +:+ " failed") >> ret None
      end.

(** [findExecutableInEnv] after its first [await], [e] being the shell
    environment. *)
Definition search_in_env {S} (name : string) (e : env)
  : M S (promise (option string)) :=
  await (findCommandInShellEnv name e) (fun found =>
  if JS.truthy found then ret (Resolved found)
  else if isWin then
    let* winFound :=
      findExecutable name (Some {| extensions := None; env_ := Some e |}) in
    if JS.truthy winFound then ret (Resolved winFound)
    else
      let* viaMise := findViaMise name e in
      ret (Resolved viaMise)
  else ret (Resolved None)).

(** The module state of [shell-env] is the state here: [getShellEnv] is
    the imported function. *)
Definition findExecutableInEnv (name : string)
  : M (option env) (promise (option string)) :=
  await ShellEnv.getShellEnv (search_in_env name).

Record GitAvailable := {
  available : bool;
  git_path : option string
}.

Definition checkGitAvailable : M (option env) (promise GitAvailable) :=
  await ShellEnv.refreshShellEnv (fun _ =>
  await (findExecutableInEnv "git") (fun gitPath =>
  logger Debug
    ("git check result: "
       +:+ (if JS.truthy gitPath then "found at " +:+ default "" gitPath
            else "not found")) >>
  ret (Resolved {| available := bool_decide (gitPath <> None);
                   git_path := gitPath |}))).

(** [spawn] with the option [shell: true]: what the child does when the
    command line is handed to the command interpreter. *)
Variable spawn_shell :
  string -> list string -> option env -> attempt (list child_event).

(** [crossPlatformSpawn]: the child process, that is, what it does. *)
Definition crossPlatformSpawn (command : string) (args : list string)
    (e : env) : attempt (list child_event) :=
  if isWin && negb (JS.endsWith (JS.toLowerCase command) ".exe")
  then spawn_shell command args (Some e)
  else spawn command args (Some e).

(** The variables the callbacks of [executeCommand] close over, and the
    promise they settle; [timeoutId] is false when no timer is pending. *)
Record command_run := {
  stdout : string;
  stderr : string;
  outcome : promise string;
  timeoutId : bool
}.

(** [resolve] and [reject] of a promise: the first call settles it, the
    later ones do nothing. *)
Definition settle (r : command_run) (value : promise string) : command_run :=
  {| stdout := stdout r; stderr := stderr r;
     outcome := match outcome r with Pending => value | settled => settled end;
     timeoutId := timeoutId r |}.

Definition clear_timer (r : command_run) : command_run :=
  {| stdout := stdout r; stderr := stderr r; outcome := outcome r;
     timeoutId := false |}.

Definition on_command_event {S} (capture : bool) (timeout : Z)
    (r : command_run) (ev : child_event) : M S command_run :=
  match ev with
  | ChildStdout chunk =>
      ret {| stdout := stdout r +:+ chunk; stderr := stderr r;
             outcome := outcome r; timeoutId := timeoutId r |}
  | ChildStderr chunk =>
      ret {| stdout := stdout r; stderr := stderr r +:+ chunk;
             outcome := outcome r; timeoutId := timeoutId r |}
  | TimerFired =>
      if timeoutId r then
        emit Killed >>
        ret (settle (clear_timer r)
               (Rejected ("Command timed out after " +:+ pretty timeout +:+ "ms")))
      else ret r
  | ChildError message =>
      ret (settle (clear_timer r) (Rejected message))
  | ChildClose code =>
      if bool_decide (code = Some 0%Z) then
        ret (settle (clear_timer r)
               (Resolved (if capture then stdout r else "")))
      else
        ret (settle (clear_timer r)
               (Rejected
                  (if JS.nonempty (stderr r) then stderr r
                   else "Command failed with code "
                          +:+ ShellEnv.code_string code)))
  end.

Fixpoint run_command {S} (capture : bool) (timeout : Z) (r : command_run)
    (evs : list child_event) : M S command_run :=
  match evs with
  | [] => ret r
  | ev :: evs' =>
      let* r' := on_command_event capture timeout r ev in
      run_command capture timeout r' evs'
  end.

(** [executeCommand]; an absent [timeout] is 0, which is as falsy. *)
Definition executeCommand (command : string) (args : list string)
    (capture : bool) (env_option : option env) (timeout : Z)
  : M (option env) (promise string) :=
  await
    (match env_option with
     | Some e => ret (Resolved e)
     | None => ShellEnv.getShellEnv
     end)
    (fun e =>
       emit (Spawned command args) >>
       match crossPlatformSpawn command args e with
       | Throws message => ret (Rejected message)
       | Returns child =>
           let* r :=
             run_command capture timeout
               {| stdout := ""; stderr := ""; outcome := Pending;
                  timeoutId := negb (timeout =? 0)%Z |} child in
           ret (outcome r)
       end).

End Code.
End Process.

(** ** Example hosts *)

Module Examples.

Definition nl : string := String "010" "".

(** A machine with the given environment, current directory, home, files,
    lookup results and child behaviour. *)
Definition host (e : env) (cwd home : string) (files : list string)
    (exec : string -> list string -> option string)
    (child : string -> list child_event) : Host := {|
  process_env := e;
  process_cwd := cwd;
  os_homedir := Returns home;
  fs_existsSync := fun p => existsb (String.eqb p) files;
  execFileSync := fun cmd args _ => exec cmd args;
  spawn := fun cmd _ _ => Returns (child cmd)
|}.

(** The character 0, which no argument and no variable of a child may
    hold. *)
Definition nul : string := String "000" "".

Definition has_nul (kv : string * string) : bool :=
  JS.includes_char "000" kv.1 || JS.includes_char "000" kv.2.

(** The same machine when the system knows no home directory for the user
    ([os.homedir()] throws), and [spawn] refuses an environment with the
    character 0 in it. *)
Definition homeless (e : env) (cwd : string) (files : list string)
    (exec : string -> list string -> option string)
    (child : string -> list child_event) : Host := {|
  process_env := e;
  process_cwd := cwd;
  os_homedir :=
    Throws "A system error occurred: uv_os_homedir returned ENOENT (no such file or directory)";
  fs_existsSync := fun p => existsb (String.eqb p) files;
  execFileSync := fun cmd args _ => exec cmd args;
  spawn := fun cmd _ e' =>
    if existsb has_nul (default [] e') then
      Throws "The property 'options.env' must be a string without null bytes."
    else Returns (child cmd)
|}.

Definition no_exec (cmd : string) (args : list string) : option string := None.

(** A Linux machine whose login shell prints two variables and exits. *)
Definition linux : Host :=
  host [("HOME", "/home/u"); ("SHELL", "/bin/bash"); ("PATH", "/usr/bin:/bin")]
    "/home/u" "/home/u" [] no_exec
    (fun _ => [ChildStdout ("PATH=/usr/bin" +:+ nl +:+ "FOO=bar" +:+ nl);
               ChildClose (Some 0%Z)]).

(** The same machine with a login shell that hangs until the timer fires. *)
Definition linux_hanging : Host :=
  host [("HOME", "/home/u"); ("SHELL", "/bin/bash"); ("PATH", "/usr/bin:/bin")]
    "/home/u" "/home/u" [] no_exec (fun _ => [TimerFired]).

(** A Windows machine where no variable names the home directory and the
    system knows none, and where the registry cannot be read. *)
Definition windows_homeless : Host :=
  homeless [("SystemRoot", "C:\Windows"); ("Path", "C:\Windows")]
    "C:\work" [] no_exec (fun _ => []).

(** A Linux machine where the program runs without [HOME], as a user the
    password database does not know. *)
Definition linux_homeless : Host :=
  homeless [("SHELL", "/bin/sh"); ("PATH", "/usr/bin:/bin")]
    "/" [] no_exec (fun _ => [ChildClose (Some 0%Z)]).


(** A Windows machine where [where.exe npm] reports a shim planted in the
    current directory, then the installed one. *)
Definition windows_planted : Host :=
  host [("SystemRoot", "C:\Windows"); ("USERPROFILE", "C:\Users\TestUser");
        ("Path", "C:\StaleOldPath")]
    "C:\work\project" "C:\Users\TestUser" []
    (fun cmd args =>
       if String.eqb cmd "where.exe" then
         Some ("C:\work\project\npm.cmd" +:+ String "013" nl
                 +:+ "C:\Program Files\nodejs\npm.cmd" +:+ String "013" nl)
       else None)
    (fun _ => []).

(** A Windows machine run from the root of the drive, where [where.exe npm]
    reports a shim in a directory under it. *)
Definition windows_at_root : Host :=
  host [("SystemRoot", "C:\Windows"); ("USERPROFILE", "C:\Users\TestUser");
        ("Path", "C:\tools")]
    "C:\" "C:\Users\TestUser" []
    (fun cmd args =>
       if String.eqb cmd "where.exe" then Some ("C:\tools\npm.cmd" +:+ String "013" nl)
       else None)
    (fun _ => []).

(** A Windows machine with the override variable set, both the override
    and the configured path being existing [bash.exe] files; a file whose
    name only ends in [bash.exe] exists too. *)
Definition windows_git_bash : Host :=
  host [("USERPROFILE", "C:\Users\TestUser"); ("Path", "C:\Windows");
        ("CLAUDE_CODE_GIT_BASH_PATH", "D:\override\bash.exe")]
    "C:\work" "C:\Users\TestUser"
    ["D:\override\bash.exe"; "C:\configured\bash.exe"; "C:\tools\zbash.exe"]
    no_exec (fun _ => []).

(** A Linux machine where [command -v] prints the path of the command in
    two chunks, warns on its standard error and exits; what the child
    does after its close is part of the script to show it is ignored. *)
Definition linux_lookup : Host :=
  host [("HOME", "/home/u"); ("SHELL", "/bin/bash"); ("PATH", "/usr/bin:/bin")]
    "/home/u" "/home/u" ["/usr/bin/node"] no_exec
    (fun cmd =>
       if String.eqb cmd "/bin/sh" then
         [ChildStdout "/usr/bin/"; ChildStdout ("node" +:+ nl);
          ChildStderr "warning"; ChildClose (Some 0%Z);
          ChildStdout "late"; TimerFired]
       else
         [ChildStdout ("PATH=/usr/bin" +:+ nl); ChildClose (Some 0%Z)]).

(** A Windows machine where [where.exe] knows a program whose name has a
    space in it. *)
Definition windows_spaced : Host :=
  host [("USERPROFILE", "C:\Users\TestUser"); ("Path", "C:\tools")]
    "C:\work" "C:\Users\TestUser" ["C:\tools\my tool.exe"]
    (fun cmd args =>
       if String.eqb cmd "where.exe" && bool_decide (args = ["my tool"])
       then Some ("C:\tools\my tool.exe" +:+ String "013" nl)
       else None)
    (fun _ => []).

Definition crlf : string := String "013" nl.

(** The output of [reg query] for a value of type [REG_EXPAND_SZ], as the
    tests of the module write it. *)
Definition regOutput (keyPath value : string) : string :=
  crlf +:+ keyPath +:+ crlf +:+ "    Path    REG_EXPAND_SZ    " +:+ value
    +:+ crlf +:+ crlf.

(** A Windows machine whose registry holds a system PATH and no user
    PATH, the PATH of the process being stale. *)
Definition windows_registry : Host :=
  host [("SystemRoot", "C:\Windows"); ("USERPROFILE", "C:\Users\TestUser");
        ("Path", "C:\StaleOldPath")]
    "C:\work" "C:\Users\TestUser" []
    (fun cmd args =>
       if String.eqb cmd "reg"
          && bool_decide (args = ["query"; ShellEnv.HKLM_KEY; "/v"; "Path"])
       then Some (regOutput ShellEnv.HKLM_KEY "%SystemRoot%\system32;C:\NodeJS")
       else None)
    (fun _ => []).

(** A Linux machine where [git --version] prints its version in two
    chunks around a hint on its standard error, and exits. *)
Definition linux_git : Host :=
  host [("HOME", "/home/u"); ("SHELL", "/bin/bash"); ("PATH", "/usr/bin:/bin")]
    "/home/u" "/home/u" ["/usr/bin/git"] no_exec
    (fun cmd =>
       if String.eqb cmd "git" then
         [ChildStdout "git version "; ChildStderr "hint: none";
          ChildStdout ("2.43.0" +:+ nl); ChildClose (Some 0%Z); TimerFired]
       else [ChildClose (Some 127%Z)]).

End Examples.

(** ** Notions the properties are stated with *)

(** All the characters of a string satisfy [p]. *)
Fixpoint all_chars (p : ascii -> bool) (s : string) : bool :=
  match s with
  | EmptyString => true
  | String c s' => p c && all_chars p s'
  end.

(** The safety pattern in the words of the specification: one character
    from [a-zA-Z0-9_], then at most 127 characters from [a-zA-Z0-9_-]. *)
Definition safety_pattern (command : string) : Prop :=
  exists c rest,
    command = String c rest
    /\ Process.first_char c = true
    /\ (String.length rest <= 127)%nat
    /\ all_chars Process.rest_char rest = true.

(** A [%VAR%] token. *)
Definition token (name : string) : string := "%" +:+ name +:+ "%".

(** [key] is a key of [e] that equals [name] up to case. *)
Definition matches_key (e : env) (name key : string) : Prop :=
  In key (Env.keys e) /\ JS.toLowerCase key = JS.toLowerCase name.

(** A name a token can have: it is not empty and holds no percent sign. *)
Definition token_name (name : string) : Prop :=
  name <> "" /\ JS.includes_char "%" name = false.

(** A token is written somewhere in [s]. *)
Definition holds_token (s : string) : Prop :=
  exists a name b, token_name name /\ s = a +:+ token name +:+ b.

(** A token is written at the front of [s], after its opening percent
    sign. *)
Definition token_ahead (s : string) : Prop :=
  exists name b, token_name name /\ s = name +:+ String "%" b.

(** A value as the pattern reads it, from the left: the tokens, each with
    the text before it, and the text after the last of them. *)
Fixpoint written (tokens : list (string * string)) (final : string) : string :=
  match tokens with
  | [] => final
  | (before, name) :: tokens' =>
      before +:+ token name +:+ written tokens' final
  end.

(** The reading is the one from the left when no token starts in the text
    before a token, its percent sign included, and the text after the last
    token holds none. *)
Definition leftmost (tokens : list (string * string)) (final : string) : Prop :=
  Forall (fun t => ~ holds_token (t.1 +:+ "%") /\ token_name t.2) tokens
  /\ ~ holds_token final.

(** [key] is the first key of [e], in the order of its keys, that equals
    [name] up to case. *)
Definition first_key (e : env) (name key : string) : Prop :=
  exists earlier later,
    Env.keys e = earlier ++ key :: later
    /\ JS.toLowerCase key = JS.toLowerCase name
    /\ Forall (fun k => JS.toLowerCase k <> JS.toLowerCase name) earlier.

(** What a token stands for in a map: the value of the first key that
    equals its name up to case, the token itself when there is none. *)
Definition stands_for (e : env) (name : string) : string :=
  match
    List.find
      (fun key => String.eqb (JS.toLowerCase key) (JS.toLowerCase name))
      (Env.keys e)
  with
  | Some key => default (token name) (Env.get e key)
  | None => token name
  end.

(** The value with every token replaced by what it stands for. *)
Fixpoint expanded (e : env) (tokens : list (string * string)) (final : string)
  : string :=
  match tokens with
  | [] => final
  | (before, name) :: tokens' =>
      before +:+ stands_for e name +:+ expanded e tokens' final
  end.

(** A string that can stand as one segment of a PATH: it does not contain
    the separator and has no white space around it. *)
Definition plain_segment (sep : ascii) (x : string) : Prop :=
  JS.trim x = x /\ JS.includes_char sep x = false.

(** Deduplication in the words of the specification: a segment is kept when
    it is not empty and no earlier non-empty segment has the same normal
    form [f]. *)
Definition kept (f : string -> string) (earlier : list string) (x : string)
  : bool :=
  JS.nonempty x
    && negb (existsb (fun y => JS.nonempty y && String.eqb (f y) (f x)) earlier).

Fixpoint dedup_from (f : string -> string) (earlier l : list string)
  : list string :=
  match l with
  | [] => []
  | x :: l' =>
      (if kept f earlier x then [x] else []) ++ dedup_from f (earlier ++ [x]) l'
  end.

Definition first_occurrences (f : string -> string) (l : list string)
  : list string := dedup_from f [] l.

(** The normal form two PATH segments are compared by, in the words of the
    specification: [path.normalize], and on Windows only the lower case. *)
Definition normal_form `{NP : NodePath} (segment : string) : string :=
  if isWin then JS.toLowerCase (path_normalize segment)
  else path_normalize segment.

(** The separator of the segments of a PATH. *)
Definition list_separator `{NP : NodePath} : ascii :=
  if isWin then ";"%char else ":"%char.

(** The tool directory of a home directory: [<home>/.cherrystudio/bin]. *)
Definition tool_directory `{NP : NodePath} (home : string) : string :=
  path_join [home; ".cherrystudio"; "bin"].

(** The home directory a map names: the first of [HOME], [Home],
    [USERPROFILE] and [UserProfile] that is set and not empty. *)
Definition home_variable (e : env) : option string :=
  List.find JS.nonempty
    (omap (Env.get e) ["HOME"; "Home"; "USERPROFILE"; "UserProfile"]).

(** The home directory of a map on a host: the one the map names, or the
    one the system knows. *)
Definition home_of `{H : Host} (e : env) : attempt string :=
  match home_variable e with
  | Some home => Returns home
  | None => os_homedir
  end.

(** A key that reads [path] whatever the case of its letters. *)
Definition path_like (k : string) : Prop := JS.toLowerCase k = "path".

(** The PATH a map holds: the value of its first PATH-like key, or of
    [PATH] when that value is empty, or nothing. *)
Definition path_of (e : env) : string :=
  match List.find (fun k => String.eqb (JS.toLowerCase k) "path") (Env.keys e) with
  | Some k =>
      match Env.get e k with
      | Some (String c v) => String c v
      | _ => default "" (Env.get e "PATH")
      end
  | None => ""
  end.

(** The segments of the PATH a map holds: its pieces between separators,
    each trimmed. *)
Definition path_segments `{NP : NodePath} (e : env) : list string :=
  map JS.trim (JS.split list_separator (path_of e)).

(** The keys [appendCherryBinToPath] assigns to: the PATH-like keys of the
    map, or the canonical key when there is none, and [PATH] off Windows. *)
Definition assigned_keys `{NP : NodePath} (e : env) : list string :=
  match ShellEnv.pathKeys e with
  | [] => [ShellEnv.canonicalPathKey e]
  | ks => ks
  end ++ (if isWin then [] else ["PATH"]).

(** The closure state after the segments [earlier]: [seenSegments] holds
    the normal forms of the non-empty ones. *)
Definition seen_after (f : string -> string) (seen : gset string)
    (earlier : list string) : Prop :=
  forall z, z ∈ seen <-> exists y, In y earlier /\ y <> "" /\ f y = z.

Definition is_output (ev : child_event) : bool :=
  match ev with ChildStdout _ | ChildStderr _ => true | _ => false end.

(** The login shell of the user, and the call that spawns it. *)
Definition login_shell `{H : Host} (mac : bool) : string :=
  match Env.get process_env "SHELL" with
  | Some (String c sh) => String c sh
  | _ => if mac then "/bin/zsh" else "/bin/bash"
  end.

Definition login_child `{NP : NodePath} `{H : Host}
  : attempt (list child_event) :=
  spawn (login_shell isMac) ["-ilc"; "env"] None.

(** The failures of the environment probe: off Windows no home directory,
    a [spawn] that throws, or a spawned shell whose first event besides
    output is an error, an exit with a code other than 0, or the timer; on
    Windows two registry reads that both yield nothing. *)
Inductive probe_fails `{NP : NodePath} `{H : Host} : Prop :=
  | no_home_directory :
      isWin = false -> home_of process_env = Returns "" -> probe_fails
  | spawn_throws message :
      isWin = false -> login_child = Throws message -> probe_fails
  | spawn_error pre message post :
      isWin = false ->
      login_child = Returns (pre ++ ChildError message :: post) ->
      forallb is_output pre = true -> probe_fails
  | nonzero_exit pre code post :
      isWin = false ->
      login_child = Returns (pre ++ ChildClose code :: post) ->
      code <> Some 0%Z ->
      forallb is_output pre = true -> probe_fails
  | timed_out pre post :
      isWin = false ->
      login_child = Returns (pre ++ TimerFired :: post) ->
      forallb is_output pre = true -> probe_fails
  | registry_unavailable :
      isWin = true ->
      execFileSync "reg"
        ["query";
         "HKLM\SYSTEM\CurrentControlSet\Control\Session Manager\Environment";
         "/v"; "Path"] None = None ->
      execFileSync "reg" ["query"; "HKCU\Environment"; "/v"; "Path"] None
        = None ->
      probe_fails.

(** What the fallback of [fetchShellEnv] settles the promise to. *)
Definition fallback_result `{NP : NodePath} `{H : Host} : promise env :=
  match ShellEnv.fallbackEnv with
  | Returns e => Resolved e
  | Throws message => Rejected message
  end.

(** What a call of [getShellEnv] that started the probe [started] settles
    to when the child of that probe does [evs]: the result of the probe,
    or the fallback of [fetchShellEnv] when the probe rejects. *)
Definition own_result `{NP : NodePath} `{H : Host}
    (started : promise env + ShellEnv.shell) (evs : list child_event)
  : promise env :=
  let probed :=
    match started with
    | inl r => r
    | inr sh => (ShellEnv.probe_finish (S := unit) sh evs tt).1.1
    end in
  (ShellEnv.fetch_settle (S := unit) probed tt).1.1.

(** The event loop resumes suspended calls one after the other, each when
    the child of its probe has done what goes with it. *)
Definition wakes `{NP : NodePath} `{H : Host}
    (order : list (nat * list child_event)) (st : ShellEnv.loop)
  : ShellEnv.loop :=
  fold_left (fun st x => ShellEnv.wake x.1 x.2 st) order st.

(** The map the cache holds after the calls of [order] have been resumed
    on the cache [c]: what the last of them that resolved resolved to. *)
Definition last_resolved (results : list (promise env)) (c : option env)
  : option env :=
  fold_left
    (fun c r => match r with Resolved e => Some e | _ => c end) results c.

(** An event that rejects an unsettled promise. *)
Definition rejecting (ev : child_event) : Prop :=
  match ev with
  | ChildError _ | TimerFired => True
  | ChildClose code => code <> Some 0%Z
  | _ => False
  end.

(** The directory of a candidate as [findExecutable] compares it: the
    directory of the resolved path, in lower case. *)
Definition execDir `{NP : NodePath} `{H : Host} (candidate : string) : string :=
  JS.toLowerCase
    (path_dirname (JS.toLowerCase (path_resolve process_cwd candidate))).





Definition hasAllowedExtension (exts : list string) (candidate : string) : bool :=
  existsb
    (fun ext => JS.endsWith (JS.toLowerCase candidate) (JS.toLowerCase ext)) exts.


(** The name of the file a Windows path leads to: its last component. *)
Definition file_name (p : string) : string :=
  List.last (JS.split_on Node.is_win_sep p) "".

(** What [validateGitBashPath] requires of a candidate. *)
Definition acceptable `{NP : NodePath} `{H : Host} (candidate : string) : bool :=
  JS.nonempty candidate
    && fs_existsSync (path_resolve process_cwd candidate)
    && JS.endsWith (JS.toLowerCase (path_resolve process_cwd candidate)) "bash.exe".

(** The path a candidate validates to: its resolved path when it is
    acceptable, nothing otherwise. *)
Definition validated `{NP : NodePath} `{H : Host} (candidate : option string)
  : option string :=
  match candidate with
  | Some c => if acceptable c then Some (path_resolve process_cwd c) else None
  | None => None
  end.

(** What the child wrote on its standard output, chunk after chunk. *)
Fixpoint stdout_of (evs : list child_event) : string :=
  match evs with
  | [] => ""
  | ChildStdout data :: evs' => data +:+ stdout_of evs'
  | _ :: evs' => stdout_of evs'
  end.




(** What a lookup keeps of the standard output of its child: a chunk is
    appended as long as fewer than [MAX_OUTPUT_SIZE] characters are held. *)
Fixpoint collected (acc : string) (evs : list child_event) : string :=
  match evs with
  | [] => acc
  | ChildStdout data :: evs' =>
      collected
        (if (N.of_nat (String.length acc) <? Process.MAX_OUTPUT_SIZE)%N
         then acc +:+ data else acc) evs'
  | _ :: evs' => collected acc evs'
  end.

(** What [findCommandInShellEnv] requires of a path before it reports it:
    the [.exe] ending on Windows, an absolute path elsewhere. *)
Definition found_ok `{NP : NodePath} (p : string) : Prop :=
  if isWin then JS.endsWith (JS.toLowerCase p) ".exe" = true
  else path_isAbsolute p = true.

(** The command line of a lookup. *)
Definition lookup_cmd `{NP : NodePath} : string :=
  if isWin then "where" else "/bin/sh".

Definition lookup_args `{NP : NodePath} (command : string) : list string :=
  if isWin then [command] else ["-c"; Process.COMMAND_V; "--"; command].

(** The path a successful lookup reports, read off the output [out] it
    holds: on Windows the first line that ends in [.exe] whatever the case,
    elsewhere the first line when it is an absolute path. *)
Definition picked `{NP : NodePath} (out : string) : option string :=
  if isWin then
    List.find (fun p => JS.endsWith (JS.toLowerCase p) ".exe")
      (JS.split_lines (JS.trim out))
  else
    let commandPath := default "" (head (JS.split "010"%char (JS.trim out))) in
    if path_isAbsolute commandPath then Some commandPath else None.

(** What a lookup resolves to when [ev] is the first event of its child
    besides output and [out] is the output held by then. *)
Definition lookup_result `{NP : NodePath} (out : string) (ev : child_event)
  : option string :=
  match ev with
  | ChildClose code =>
      if bool_decide (code = Some 0%Z) && JS.nonempty (JS.trim out)
      then picked out else None
  | _ => None
  end.

(** No chunk of standard output is longer than [n]. *)
Definition chunks_within (n : nat) (evs : list child_event) : Prop :=
  forall data, In (ChildStdout data) evs -> (String.length data <= n)%nat.

(** The state a lookup never leaves: a settled lookup holds [null] or a
    path that passed the test. *)
Definition sane `{NP : NodePath} (l : Process.lookup) : Prop :=
  match Process.resolved l with
  | Pending | Resolved None => True
  | Resolved (Some p) => found_ok p
  | Rejected _ => False
  end.

(** The keys [getWindowsEnvironment] assigns the registry value to: the
    PATH-like keys of the map, or [Path] when there is none. *)
Definition registry_keys `{NP : NodePath} (e : env) : list string :=
  match ShellEnv.pathKeys e with
  | [] => ["Path"]
  | ks => ks
  end.

(** The PATH [appendCherryBinToPath] makes of an existing PATH [value]
    for the home directory [home]: the first occurrences, up to the normal
    form, of its trimmed segments followed by the tool directory. *)
Definition path_with_cherry_bin `{NP : NodePath} (home value : string)
  : string :=
  JS.join list_separator
    (first_occurrences normal_form
       (map JS.trim (JS.split list_separator value) ++ [tool_directory home])).

(** A computation that leaves the state alone and whose result
    satisfies [Q]. *)
Definition keeps {S A} (m : M S A) (Q : A -> Prop) : Prop :=
  forall s, (m s).1.2 = s /\ Q (m s).1.1.

(** An optional path that, when present, exists on disk. *)
Definition on_disk `{H : Host} (r : option string) : Prop :=
  forall p, r = Some p -> fs_existsSync p = true.

(** A computation all of whose recorded events satisfy [T]. *)
Definition emits {S A} (m : M S A) (T : event -> Prop) : Prop :=
  forall s, Forall T (m s).2.

(** A computation that does not look at the state: its result and what it
    records are the same from any state, which it leaves alone. *)
Definition blind {S A} (m : M S A) : Prop :=
  forall s1 s2,
    (m s1).1.1 = (m s2).1.1 /\ (m s1).2 = (m s2).2 /\ (m s1).1.2 = s1.

(** The events of the Windows fallback of a search for [name]: no child
    is spawned, and the one program run is [where.exe] on the name. *)
Definition where_only (name : string) (ev : event) : Prop :=
  match ev with
  | Spawned _ _ => False
  | ExecFile cmd args => cmd = "where.exe" /\ args = [name]
  | _ => True
  end.

(** No child is spawned. *)
Definition not_spawned (ev : event) : Prop :=
  match ev with Spawned _ _ => False | _ => True end.

(** The processes a search for [name] may start: the lookup command
    as a child, and on Windows only [where.exe] on the name or on [mise],
    and a program asked [which] for the name. *)
Definition search_event `{NP : NodePath} (name : string) (ev : event) : Prop :=
  match ev with
  | Spawned cmd args => cmd = lookup_cmd /\ args = lookup_args name
  | ExecFile cmd args =>
      isWin = true
      /\ ((cmd = "where.exe" /\ (args = [name] \/ args = ["mise"]))
          \/ args = ["which"; name])
  | _ => True
  end.

(** [s] holds [needle] (given in lower case) somewhere, whatever the
    case of its letters. *)
Fixpoint mentions (needle s : string) : bool :=
  match ShellEnv.drop_prefix_ci needle s with
  | Some _ => true
  | None =>
      match s with
      | EmptyString => false
      | String _ s' => mentions needle s'
      end
  end.

(** What the child wrote on its standard error, chunk after chunk. *)
Fixpoint stderr_of (evs : list child_event) : string :=
  match evs with
  | [] => ""
  | ChildStderr data :: evs' => data +:+ stderr_of evs'
  | _ :: evs' => stderr_of evs'
  end.

(** What [executeCommand] settles to when [ev] is the first event of the
    child besides output and [pre] is the output before it. *)
Definition command_result (capture : bool) (timeout : Z)
    (pre : list child_event) (ev : child_event) : promise string :=
  match ev with
  | ChildClose code =>
      if bool_decide (code = Some 0%Z)
      then Resolved (if capture then stdout_of pre else "")
      else Rejected
             (if JS.nonempty (stderr_of pre) then stderr_of pre
              else "Command failed with code " +:+ ShellEnv.code_string code)
  | ChildError message => Rejected message
  | TimerFired =>
      Rejected ("Command timed out after " +:+ pretty timeout +:+ "ms")
  | _ => Pending
  end.


(** * Properties *)

(** Let [simpl] compute an append whose first argument starts with a
    character. *)
#[local] Arguments String.append !s1 s2 : simpl nomatch.

(** ** The command-name pattern *)

Section RegexFacts.
Import Regex.

Lemma test_void s : test_anchored Void s = false.
Proof. induction s as [|c s IH]; [reflexivity | exact IH]. Qed.

Lemma test_alt r1 r2 s :
  test_anchored (Alt r1 r2) s = test_anchored r1 s || test_anchored r2 s.
Proof.
  revert r1 r2; induction s as [|c s IH]; intros r1 r2; simpl;
    [reflexivity | apply IH].
Qed.

Lemma test_seq_void r s : test_anchored (Seq Void r) s = false.
Proof. induction s as [|c s IH]; [reflexivity | exact IH]. Qed.

Lemma test_seq_eps r s : test_anchored (Seq Eps r) s = test_anchored r s.
Proof.
  destruct s as [|c s]; simpl; [reflexivity |].
  by rewrite test_alt, test_seq_void.
Qed.

Lemma test_upto_class p n s :
  test_anchored (Upto n (Class p)) s
  = (String.length s <=? n)%nat && all_chars p s.
Proof.
  revert n; induction s as [|c s IH]; intros n; [by destruct n |].
  destruct n as [|n]; simpl; [apply test_void |].
  destruct (p c); simpl.
  - rewrite test_seq_eps. apply IH.
  - rewrite andb_false_r. apply test_seq_void.
Qed.

End RegexFacts.

Lemma VALID_COMMAND_NAME_REGEX_spec command :
  Regex.test_anchored Process.VALID_COMMAND_NAME_REGEX command = true
  <-> safety_pattern command.
Proof.
  unfold Process.VALID_COMMAND_NAME_REGEX, safety_pattern.
  destruct command as [|c rest]; simpl.
  - split; [discriminate | intros (c & rest & Heq & _); discriminate].
  - destruct (Process.first_char c) eqn:Hc.
    + rewrite test_seq_eps, test_upto_class, andb_true_iff, Nat.leb_le.
      split.
      * intros [Hlen Hall]. by exists c, rest.
      * intros (c' & rest' & Heq & _ & Hlen & Hall).
        injection Heq as <- <-. by split.
    + rewrite test_seq_void. split; [discriminate |].
      intros (c' & rest' & Heq & Hc' & _). injection Heq as <- <-. congruence.
Qed.

(** A character of the pattern is a letter, a digit, an underscore or (after
    the first position) a hyphen: no shell metacharacter. *)
Lemma rest_char_cases c :
  Process.rest_char c = true ->
  JS.is_lower c = true \/ JS.is_upper c = true \/ JS.is_digit c = true
  \/ c = "_"%char \/ c = "-"%char.
Proof.
  unfold Process.rest_char. rewrite !orb_true_iff, !Ascii.eqb_eq. tauto.
Qed.

Section LookupFacts.
Context `{NP : NodePath} `{H : Host}.

(** C1. A command name that does not match the safety pattern is reported
    as not found: [findCommandInShellEnv] resolves to [null], logs one
    warning and spawns no subprocess, whatever the environment map and the
    platform; the name with the shell metacharacters is such a name. *)
Theorem findCommandInShellEnv_rejects_invalid
    (S : Type) (command : string) (loginShellEnv : env) (s : S) :
  ~ safety_pattern command ->
  exists warning,
    Process.findCommandInShellEnv command loginShellEnv s
    = (Resolved None, s, [Log Warn warning])
    /\ List.filter is_spawn [Log Warn warning] = []
    /\ ~ safety_pattern "ls; rm -rf /".
Proof.
  intros Hbad. eexists. unfold Process.findCommandInShellEnv.
  destruct (Regex.test_anchored _ command) eqn:Htest.
  - exfalso. apply Hbad. by apply VALID_COMMAND_NAME_REGEX_spec.
  - simpl. split; [reflexivity | split; [reflexivity |]].
    rewrite <- VALID_COMMAND_NAME_REGEX_spec. by vm_compute.
Qed.

End LookupFacts.

Lemma findCommandInShellEnv_rejects_invalid_witness :
  exists warning,
    Process.findCommandInShellEnv (NP := Node.posix false) (H := Examples.linux)
      "ls; rm -rf /" [] tt
    = (Resolved None, tt, [Log Warn warning])
    /\ List.filter is_spawn [Log Warn warning] = []
    /\ ~ safety_pattern "ls; rm -rf /".
Proof.
  apply (findCommandInShellEnv_rejects_invalid (NP := Node.posix false)
           (H := Examples.linux) unit "ls; rm -rf /" [] tt).
  rewrite <- VALID_COMMAND_NAME_REGEX_spec. by vm_compute.
Defined.

(** ** Strings and environment maps *)

Section StringFacts.

Lemma append_assoc (a b c : string) : (a +:+ b) +:+ c = a +:+ (b +:+ c).
Proof. induction a as [|x a IH]; simpl; [reflexivity | by rewrite IH]. Qed.

Lemma toLowerCase_empty s : JS.toLowerCase s = "" -> s = "".
Proof. by destruct s. Qed.

Lemma get_of_key (e : env) k : In k (Env.keys e) -> exists v, Env.get e k = Some v.
Proof.
  induction e as [|[k' v'] e IH]; simpl; [tauto |].
  intros [-> | Hin].
  - rewrite String.eqb_refl. by exists v'.
  - destruct (String.eqb k' k); [by exists v' | by apply IH].
Qed.

End StringFacts.

(** ** [expandWindowsEnvVars] *)

Section ExpandFacts.

Lemma span_name_length s name rest :
  ShellEnv.span_name s = (name, rest) ->
  String.length name + String.length rest = String.length s.
Proof.
  revert name rest; induction s as [|c s IH]; intros name rest; simpl.
  - by intros [= <- <-].
  - destruct (Ascii.eqb c "%"); [by intros [= <- <-] |].
    destruct (ShellEnv.span_name s) as [n r] eqn:Hs.
    intros [= <- <-]. simpl. by rewrite (IH n r).
Qed.

Lemma span_name_token name post :
  JS.includes_char "%" name = false ->
  ShellEnv.span_name (name +:+ String "%" post) = (name, String "%" post).
Proof.
  induction name as [|c name IH]; simpl; [reflexivity |].
  destruct (Ascii.eqb c "%"); [discriminate |].
  intros Hn. by rewrite (IH Hn).
Qed.

Lemma expand_go_fuel e f1 : forall f2 s,
  String.length s <= f1 -> String.length s <= f2 ->
  ShellEnv.expand_go f1 e s = ShellEnv.expand_go f2 e s.
Proof.
  induction f1 as [|f1 IH]; intros f2 s H1 H2.
  - destruct s; [by destruct f2 | simpl in H1; lia].
  - destruct s as [|c s]; [by destruct f2 |].
    destruct f2 as [|f2]; [simpl in H2; lia |].
    simpl in *. destruct (Ascii.eqb c "%").
    + destruct (ShellEnv.span_name s) as [name rest] eqn:Hs.
      pose proof (span_name_length _ _ _ Hs) as Hlen.
      destruct name as [|n name]; [f_equal; apply IH; lia |].
      destruct rest as [|r rest]; [f_equal; apply IH; lia |].
      f_equal. apply IH; simpl in Hlen; lia.
    + f_equal. apply IH; lia.
Qed.

(** The scan, unfolded once: the equation of the function without fuel. *)
Lemma expandWindowsEnvVars_cons c s e :
  ShellEnv.expandWindowsEnvVars (String c s) e =
  if Ascii.eqb c "%" then
    match ShellEnv.span_name s with
    | (String n name, String _ rest) =>
        ShellEnv.replacer e (token (String n name)) (String n name)
          +:+ ShellEnv.expandWindowsEnvVars rest e
    | _ => String c (ShellEnv.expandWindowsEnvVars s e)
    end
  else String c (ShellEnv.expandWindowsEnvVars s e).
Proof.
  unfold ShellEnv.expandWindowsEnvVars. simpl.
  destruct (Ascii.eqb c "%"); [| reflexivity].
  destruct (ShellEnv.span_name s) as [name rest] eqn:Hs.
  pose proof (span_name_length _ _ _ Hs) as Hlen.
  destruct name as [|n name]; [reflexivity |].
  destruct rest as [|r rest]; [reflexivity |].
  f_equal. apply expand_go_fuel; simpl in Hlen; lia.
Qed.

Lemma expandWindowsEnvVars_plain pre s e :
  JS.includes_char "%" pre = false ->
  ShellEnv.expandWindowsEnvVars (pre +:+ s) e
  = pre +:+ ShellEnv.expandWindowsEnvVars s e.
Proof.
  induction pre as [|c pre IH]; simpl; [reflexivity |].
  destruct (Ascii.eqb c "%") eqn:Hc; [discriminate |].
  intros Hpre. rewrite expandWindowsEnvVars_cons, Hc. by rewrite IH.
Qed.

Lemma expandWindowsEnvVars_at_token name post e :
  JS.includes_char "%" name = false -> name <> "" ->
  ShellEnv.expandWindowsEnvVars (token name +:+ post) e
  = ShellEnv.replacer e (token name) name
      +:+ ShellEnv.expandWindowsEnvVars post e.
Proof.
  intros Hname Hne.
  replace (token name +:+ post) with (String "%" (name +:+ String "%" post))
    by (unfold token; simpl; by rewrite append_assoc).
  rewrite expandWindowsEnvVars_cons. simpl.
  rewrite (span_name_token _ _ Hname).
  destruct name; [congruence | reflexivity].
Qed.

Lemma span_name_app s name rest :
  ShellEnv.span_name s = (name, rest) ->
  s = name +:+ rest /\ (rest = "" \/ exists r, rest = String "%" r).
Proof.
  revert name rest; induction s as [|c s IH]; intros name rest; simpl.
  - intros [= <- <-]. split; [done | by left].
  - destruct (Ascii.eqb c "%") eqn:Hc.
    + intros [= <- <-]. apply Ascii.eqb_eq in Hc as ->.
      split; [done | right; by eexists].
    + destruct (ShellEnv.span_name s) as [n r] eqn:Hs.
      intros [= <- <-]. destruct (IH n r eq_refl) as [-> Hr]. by split.
Qed.

Lemma span_name_plain s name rest :
  ShellEnv.span_name s = (name, rest) -> JS.includes_char "%" name = false.
Proof.
  revert name rest; induction s as [|c s IH]; intros name rest; simpl.
  - by intros [= <- <-].
  - destruct (Ascii.eqb c "%") eqn:Hc; [by intros [= <- <-] |].
    destruct (ShellEnv.span_name s) as [n r] eqn:Hs.
    intros [= <- <-]. simpl. rewrite Hc. by apply (IH n r).
Qed.

(** The name the scan reads in front of a percent sign. *)
Lemma span_name_before b w name rest :
  ShellEnv.span_name (b +:+ String "%" w) = (name, rest) ->
  exists b2, b +:+ "%" = name +:+ String "%" b2 /\ rest = String "%" (b2 +:+ w).
Proof.
  revert name rest; induction b as [|c b IH]; intros name rest; simpl.
  - intros [= <- <-]. by exists "".
  - destruct (Ascii.eqb c "%") eqn:Hc.
    + intros [= <- <-]. apply Ascii.eqb_eq in Hc as ->.
      exists (b +:+ "%"). split; [done |]. by rewrite append_assoc.
    + destruct (ShellEnv.span_name (b +:+ String "%" w)) as [n r] eqn:Hs.
      intros [= <- <-]. destruct (IH n r eq_refl) as (b2 & Hb & ->).
      exists b2. simpl. by rewrite Hb.
Qed.

Lemma token_ahead_span s :
  token_ahead s
  <-> exists n name r, ShellEnv.span_name s = (String n name, String "%" r).
Proof.
  split.
  - intros (name & b & [Hne Hplain] & ->).
    rewrite (span_name_token _ _ Hplain).
    destruct name as [|n name]; [done | by eexists _, _, _].
  - intros (n & name & r & Hs).
    destruct (span_name_app _ _ _ Hs) as [-> _].
    exists (String n name), r. split; [| done].
    split; [done | by apply (span_name_plain _ _ _ Hs)].
Qed.

Lemma holds_token_cons c s :
  holds_token (String c s) <-> (c = "%"%char /\ token_ahead s) \/ holds_token s.
Proof.
  split.
  - intros (a & name & b & Hname & Heq). destruct a as [|c' a]; simpl in Heq.
    + left. injection Heq as -> ->. split; [done |].
      exists name, b. split; [done |]. by rewrite append_assoc.
    + right. injection Heq as -> ->. by exists a, name, b.
  - intros [[-> (name & b & Hname & ->)] | (a & name & b & Hname & ->)].
    + exists "", name, b. split; [done |]. unfold token. simpl.
      by rewrite append_assoc.
    + by exists (String c a), name, b.
Qed.

Lemma holds_token_nil : ~ holds_token "".
Proof. intros (a & name & b & _ & Heq). by destruct a. Qed.

Lemma token_ahead_more s w : token_ahead s -> token_ahead (s +:+ w).
Proof.
  intros (name & b & Hname & ->). exists name, (b +:+ w).
  split; [done |]. by rewrite append_assoc.
Qed.

(** The percent sign that opens no token is copied. *)
Lemma expandWindowsEnvVars_percent s e :
  ~ token_ahead s ->
  ShellEnv.expandWindowsEnvVars (String "%" s) e
  = String "%" (ShellEnv.expandWindowsEnvVars s e).
Proof.
  intros Hno. rewrite expandWindowsEnvVars_cons. simpl.
  destruct (ShellEnv.span_name s) as [name rest] eqn:Hs.
  destruct name as [|n name]; [reflexivity |].
  destruct rest as [|r rest]; [reflexivity |].
  destruct (span_name_app _ _ _ Hs) as [_ [| [r' [= -> ->]]]]; [done |].
  exfalso. apply Hno, token_ahead_span. by eexists _, _, _.
Qed.

Lemma expandWindowsEnvVars_copy c s e :
  ~ (c = "%"%char /\ token_ahead s) ->
  ShellEnv.expandWindowsEnvVars (String c s) e
  = String c (ShellEnv.expandWindowsEnvVars s e).
Proof.
  intros Hno. destruct (Ascii.eqb c "%") eqn:Hc.
  - apply Ascii.eqb_eq in Hc as ->. apply expandWindowsEnvVars_percent. tauto.
  - by rewrite expandWindowsEnvVars_cons, Hc.
Qed.

(** A text that holds no token is copied. *)
Lemma expandWindowsEnvVars_final final e :
  ~ holds_token final -> ShellEnv.expandWindowsEnvVars final e = final.
Proof.
  induction final as [|c s IH]; [reflexivity |].
  intros Hno. rewrite holds_token_cons in Hno.
  rewrite expandWindowsEnvVars_copy by tauto. rewrite IH; tauto.
Qed.

(** The text before a token is copied when no token starts in it. *)
Lemma expandWindowsEnvVars_before before name rest e :
  ~ holds_token (before +:+ "%") -> token_name name ->
  ShellEnv.expandWindowsEnvVars (before +:+ token name +:+ rest) e
  = before +:+ ShellEnv.replacer e (token name) name
      +:+ ShellEnv.expandWindowsEnvVars rest e.
Proof.
  intros Hno [Hne Hplain]. induction before as [|c b IH].
  - by apply expandWindowsEnvVars_at_token.
  - change (String c b +:+ "%") with (String c (b +:+ "%")) in Hno.
    rewrite holds_token_cons in Hno.
    change (String c b +:+ token name +:+ rest)
      with (String c (b +:+ token name +:+ rest)).
    rewrite expandWindowsEnvVars_copy; [rewrite IH; [reflexivity | tauto] |].
    intros [-> Hahead]. apply Hno. left. split; [done |].
    apply token_ahead_span in Hahead as (n & nm & r & Hs).
    replace (b +:+ token name +:+ rest)
      with (b +:+ String "%" (name +:+ "%" +:+ rest)) in Hs
      by (unfold token; simpl; by rewrite !append_assoc).
    apply span_name_before in Hs as Hb. destruct Hb as (b2 & Hb & _).
    rewrite Hb. exists (String n nm), b2. split; [| done].
    split; [done |].
    by apply (span_name_plain _ _ _ Hs).
Qed.

Lemma find_key_some e name key :
  ShellEnv.find_key e name = Some key -> matches_key e name key.
Proof.
  unfold ShellEnv.find_key. intros Hf. apply find_some in Hf as [Hin Heq].
  split; [exact Hin | by apply String.eqb_eq].
Qed.

Lemma find_key_none e name :
  ShellEnv.find_key e name = None -> forall key, ~ matches_key e name key.
Proof.
  unfold ShellEnv.find_key. intros Hf key [Hin Heq].
  pose proof (find_none _ _ Hf key Hin) as Hno. simpl in Hno.
  apply String.eqb_neq in Hno. congruence.
Qed.

(** The replacer replaces a token by what it stands for. *)
Lemma replacer_stands_for e name :
  name <> "" -> ShellEnv.replacer e (token name) name = stands_for e name.
Proof.
  intros Hne. unfold ShellEnv.replacer, stands_for, ShellEnv.find_key.
  destruct (List.find _ (Env.keys e)) as [key|] eqn:Hfind; [| reflexivity].
  apply find_some in Hfind as [Hin Heq]. apply String.eqb_eq in Heq.
  destruct key as [|k key].
  - symmetry in Heq. by apply toLowerCase_empty in Heq.
  - simpl. by destruct (Env.get e (String k key)).
Qed.

Lemma expandWindowsEnvVars_written e tokens final :
  leftmost tokens final ->
  ShellEnv.expandWindowsEnvVars (written tokens final) e
  = expanded e tokens final.
Proof.
  intros [Htokens Hfinal].
  induction Htokens as [|[before name] tokens [Hbefore Hname] _ IH];
    cbn [written expanded].
  - by apply expandWindowsEnvVars_final.
  - rewrite expandWindowsEnvVars_before by done.
    by rewrite IH, (replacer_stands_for e name (proj1 Hname)).
Qed.

(** Every value can be read from the left. *)
Lemma written_exists n : forall value,
  (String.length value <= n)%nat ->
  exists tokens final, leftmost tokens final /\ value = written tokens final.
Proof.
  induction n as [|n IH]; intros value Hn.
  - destruct value; [| simpl in Hn; lia].
    exists [], "". split; [| done]. split; [constructor | apply holds_token_nil].
  - destruct value as [|c s].
    { exists [], "". split; [| done].
      split; [constructor | apply holds_token_nil]. }
    simpl in Hn.
    destruct (Ascii.eqb c "%") eqn:Hc.
    + apply Ascii.eqb_eq in Hc as ->.
      destruct (ShellEnv.span_name s) as [name rest] eqn:Hs.
      destruct (span_name_app _ _ _ Hs) as [Heq Hrest].
      pose proof (span_name_plain _ _ _ Hs) as Hplain.
      pose proof (span_name_length _ _ _ Hs) as Hlen.
      destruct name as [|n0 name]; [| destruct Hrest as [-> | [r ->]]].
      * (* the percent sign opens no token *)
        assert (~ token_ahead s) as Hno.
        { intros Ha. apply token_ahead_span in Ha as (? & ? & ? & Ha).
          congruence. }
        destruct (IH s ltac:(lia)) as (tokens & final & [Ht Hf] & ->).
        destruct tokens as [|[before nm] tokens].
        -- exists [], (String "%" final). split; [| done].
           split; [constructor |]. rewrite holds_token_cons. tauto.
        -- exists ((String "%" before, nm) :: tokens), final. split; [| done].
           inversion Ht as [|? ? [Hb Hnm] Ht']; subst. split; [| done].
           constructor; [| done]. split; [| done]. cbn [fst].
           change (String "%" before +:+ "%")
             with (String "%" (before +:+ "%")).
           rewrite holds_token_cons. intros [[_ Ha] | Hh]; [| done].
           apply Hno. cbn [written].
           replace (before +:+ token nm +:+ written tokens final)
             with ((before +:+ "%") +:+ nm +:+ "%" +:+ written tokens final)
             by (unfold token; by rewrite !append_assoc).
           by apply token_ahead_more.
      * assert (~ token_ahead s) as Hno.
        { intros Ha. apply token_ahead_span in Ha as (? & ? & ? & Ha).
          congruence. }
        destruct (IH s ltac:(lia)) as (tokens & final & [Ht Hf] & ->).
        destruct tokens as [|[before nm] tokens].
        -- exists [], (String "%" final). split; [| done].
           split; [constructor |]. rewrite holds_token_cons. tauto.
        -- exists ((String "%" before, nm) :: tokens), final. split; [| done].
           inversion Ht as [|? ? [Hb Hnm] Ht']; subst. split; [| done].
           constructor; [| done]. split; [| done]. cbn [fst].
           change (String "%" before +:+ "%")
             with (String "%" (before +:+ "%")).
           rewrite holds_token_cons. intros [[_ Ha] | Hh]; [| done].
           apply Hno. cbn [written].
           replace (before +:+ token nm +:+ written tokens final)
             with ((before +:+ "%") +:+ nm +:+ "%" +:+ written tokens final)
             by (unfold token; by rewrite !append_assoc).
           by apply token_ahead_more.
      * (* a token *)
        destruct (IH r) as (tokens & final & [Ht Hf] & ->).
        { simpl in Hlen. lia. }
        exists (("", String n0 name) :: tokens), final. split.
        -- split; [| done]. constructor; [| done]. split; [| done].
           cbn [fst]. simpl. rewrite holds_token_cons.
           intros [[_ (nm & b & [Hnm _] & Heq')] | Hh];
             [by destruct nm | by apply holds_token_nil].
        -- rewrite Heq. simpl. unfold token. simpl. by rewrite append_assoc.
    + destruct (IH s ltac:(lia)) as (tokens & final & [Ht Hf] & ->).
      assert (c <> "%"%char) as Hne by (intros ->; discriminate).
      destruct tokens as [|[before nm] tokens].
      * exists [], (String c final). split; [| done].
        split; [constructor |]. rewrite holds_token_cons. tauto.
      * exists ((String c before, nm) :: tokens), final. split; [| done].
        inversion Ht as [|? ? [Hb Hnm] Ht']; subst. split; [| done].
        constructor; [| done]. split; [| done]. cbn [fst].
        change (String c before +:+ "%") with (String c (before +:+ "%")).
        rewrite holds_token_cons. tauto.
Qed.

(** C6. [expandWindowsEnvVars] replaces every token by what it stands for
    in the map and copies the rest.  A value read from the left is a
    sequence of tokens, each after a text in which no token starts, and a
    final text that holds no token; every value can be read so.  A token
    whose name equals a key of the map up to case stands for the value of
    the first such key, a token with no such key for itself.  The two
    examples of the specification follow, and one with a token after a
    doubled percent sign. *)
Theorem expandWindowsEnvVars_tokens (e : env) :
  (forall tokens final,
     leftmost tokens final ->
     ShellEnv.expandWindowsEnvVars (written tokens final) e
     = expanded e tokens final)
  /\ (forall value, exists tokens final,
        leftmost tokens final /\ value = written tokens final)
  /\ (forall name key,
        first_key e name key ->
        exists value, Env.get e key = Some value /\ stands_for e name = value)
  /\ (forall name,
        (forall key, ~ matches_key e name key) -> stands_for e name = token name)
  /\ ShellEnv.expandWindowsEnvVars "%SystemRoot%\system32"
       [("SystemRoot", "C:\Windows")] = "C:\Windows\system32"
  /\ ShellEnv.expandWindowsEnvVars "%UNKNOWN%\bin"
       [("SystemRoot", "C:\Windows")] = "%UNKNOWN%\bin"
  /\ ShellEnv.expandWindowsEnvVars "%%systemroot%;%a"
       [("SystemRoot", "C:\Windows")] = "%C:\Windows;%a".
Proof.
  split; [intros tokens final; apply expandWindowsEnvVars_written |].
  split; [intros value; by apply (written_exists (String.length value)) |].
  split; [| split; [| by repeat split]].
  - intros name key (earlier & later & Hkeys & Heq & Hearlier).
    assert (In key (Env.keys e)) as Hin
      by (rewrite Hkeys; apply in_or_app; right; by left).
    destruct (get_of_key e key Hin) as [value Hval].
    exists value. split; [done |]. unfold stands_for. rewrite Hkeys.
    assert (forall l, Forall (fun k => JS.toLowerCase k <> JS.toLowerCase name) l ->
              List.find
                (fun k => String.eqb (JS.toLowerCase k) (JS.toLowerCase name))
                (l ++ key :: later) = Some key) as Hfind.
    { intros l Hl. induction Hl as [|k l Hk _ IH]; simpl.
      - by rewrite Heq, String.eqb_refl.
      - apply String.eqb_neq in Hk. by rewrite Hk. }
    by rewrite (Hfind earlier Hearlier), Hval.
  - intros name Hnone. unfold stands_for.
    destruct (List.find _ (Env.keys e)) as [key|] eqn:Hfind; [| reflexivity].
    apply find_some in Hfind as [Hin Heq]. apply String.eqb_eq in Heq.
    by destruct (Hnone key).
Qed.

End ExpandFacts.

(** ** Splitting, joining and trimming *)

Section SplitFacts.

Lemma trimStart_cases s :
  JS.trimStart s = ""
  \/ exists c r, JS.trimStart s = String c r /\ JS.is_space c = false.
Proof.
  induction s as [|c s IH]; simpl; [by left |].
  destruct (JS.is_space c) eqn:Hc; [exact IH | right; by exists c, s].
Qed.

Lemma trimEnd_head c s :
  JS.is_space c = false -> exists r, JS.trimEnd (String c s) = String c r.
Proof.
  intros Hc. simpl. destruct (JS.trimEnd s); rewrite ?Hc; by eexists.
Qed.

Lemma trimEnd_idem s : JS.trimEnd (JS.trimEnd s) = JS.trimEnd s.
Proof.
  induction s as [|c s IH]; simpl; [reflexivity |].
  destruct (JS.trimEnd s) as [|d r] eqn:Hr.
  - destruct (JS.is_space c) eqn:Hc; simpl; [reflexivity | by rewrite Hc].
  - change (JS.trimEnd (String c (String d r))) with
      (match JS.trimEnd (String d r) with
       | "" => if JS.is_space c then "" else String c ""
       | r' => String c r'
       end).
    by rewrite IH.
Qed.

Lemma trim_idem s : JS.trim (JS.trim s) = JS.trim s.
Proof.
  unfold JS.trim. destruct (trimStart_cases s) as [-> | (c & r & -> & Hc)];
    [reflexivity |].
  destruct (trimEnd_head c r Hc) as [r' Hr']. rewrite Hr' at 1.
  simpl JS.trimStart. rewrite Hc, <- Hr'. apply trimEnd_idem.
Qed.

Lemma includes_trimStart x s :
  JS.includes_char x (JS.trimStart s) = true -> JS.includes_char x s = true.
Proof.
  induction s as [|c s IH]; simpl; [done |].
  destruct (JS.is_space c); [| done].
  intros Hin. rewrite (IH Hin). by destruct (Ascii.eqb c x).
Qed.

Lemma includes_trimEnd x s :
  JS.includes_char x (JS.trimEnd s) = true -> JS.includes_char x s = true.
Proof.
  induction s as [|c s IH]; simpl; [done |].
  destruct (JS.trimEnd s) as [|d r].
  - destruct (JS.is_space c); simpl; [done |].
    by destruct (Ascii.eqb c x).
  - simpl. destruct (Ascii.eqb c x); [done |]. exact IH.
Qed.

Lemma includes_trim x s :
  JS.includes_char x s = false -> JS.includes_char x (JS.trim s) = false.
Proof.
  intros Hs. destruct (JS.includes_char x (JS.trim s)) eqn:Ht; [| done].
  apply includes_trimEnd, includes_trimStart in Ht. congruence.
Qed.

Lemma split_on_cons p s : exists x xs, JS.split_on p s = x :: xs.
Proof.
  destruct s as [|c s]; simpl; [by eexists _, _ |].
  destruct (p c); [by eexists _, _ |].
  destruct (JS.split_on p s); by eexists _, _.
Qed.

Lemma split_pieces sep s x :
  In x (JS.split sep s) -> JS.includes_char sep x = false.
Proof.
  unfold JS.split. revert x; induction s as [|c s IH]; intros x; simpl.
  - by intros [<- | []].
  - destruct (Ascii.eqb sep c) eqn:Hc.
    + intros [<- | Hin]; [done | by apply IH].
    + destruct (split_on_cons (Ascii.eqb sep) s) as (y & ys & Hs).
      rewrite Hs in *. intros [<- | Hin].
      * simpl. rewrite Ascii.eqb_sym, Hc. apply IH. by left.
      * apply IH. by right.
Qed.

Lemma split_plain sep x :
  JS.includes_char sep x = false -> JS.split sep x = [x].
Proof.
  unfold JS.split. induction x as [|c x IH]; simpl; [done |].
  rewrite (Ascii.eqb_sym sep). destruct (Ascii.eqb c sep); [done |].
  intros Hx. by rewrite (IH Hx).
Qed.

Lemma split_append sep x rest :
  JS.includes_char sep x = false ->
  JS.split sep (x +:+ String sep rest) = x :: JS.split sep rest.
Proof.
  unfold JS.split. induction x as [|c x IH]; simpl.
  - by rewrite Ascii.eqb_refl.
  - rewrite (Ascii.eqb_sym sep). destruct (Ascii.eqb c sep); [done |].
    intros Hx. by rewrite (IH Hx).
Qed.

(** Splitting what was joined gives the segments back. *)
Lemma split_join sep l :
  l <> [] -> Forall (fun x => JS.includes_char sep x = false) l ->
  JS.split sep (JS.join sep l) = l.
Proof.
  intros Hne Hall. induction Hall as [|x l Hx Hl IH]; [done |].
  destruct l as [|y l]; [by apply split_plain |].
  change (JS.join sep (x :: y :: l))
    with (x +:+ String sep "" +:+ JS.join sep (y :: l)).
  simpl. rewrite split_append by done. by rewrite IH.
Qed.

End SplitFacts.

(** ** Assignments to an environment map *)

Section EnvFacts.

Lemma path_like_ordinary k : JS.toLowerCase k = "path" -> k <> "__proto__".
Proof. by intros Hk ->. Qed.

Lemma get_set e k v k' :
  k <> "__proto__" ->
  Env.get (Env.set e k v) k' = if String.eqb k k' then Some v else Env.get e k'.
Proof.
  intros Hk. apply String.eqb_neq in Hk.
  induction e as [|[k0 v0] e IH]; simpl; [by rewrite Hk |].
  destruct (String.eqb k0 k) eqn:H0; simpl.
  - apply String.eqb_eq in H0 as ->. by destruct (String.eqb k k').
  - rewrite IH. destruct (String.eqb k0 k') eqn:H1; [| reflexivity].
    apply String.eqb_eq in H1 as ->. by rewrite String.eqb_sym, H0.
Qed.

Lemma get_none e k : ~ In k (Env.keys e) -> Env.get e k = None.
Proof.
  induction e as [|[k0 v0] e IH]; simpl; [reflexivity |].
  intros Hn. destruct (String.eqb k0 k) eqn:H0.
  - apply String.eqb_eq in H0. tauto.
  - apply IH. tauto.
Qed.

Lemma keys_set e k v k' :
  k <> "__proto__" ->
  In k' (Env.keys (Env.set e k v)) <-> In k' (Env.keys e) \/ k' = k.
Proof.
  intros Hk. apply String.eqb_neq in Hk.
  induction e as [|[k0 v0] e IH]; simpl; [rewrite Hk; simpl; intuition congruence |].
  destruct (String.eqb k0 k) eqn:H0; simpl.
  - apply String.eqb_eq in H0 as ->. intuition congruence.
  - rewrite IH. tauto.
Qed.

(** An assignment adds no key but its own, and loses none. *)
Lemma keys_set_any e k v k' :
  In k' (Env.keys (Env.set e k v)) -> In k' (Env.keys e) \/ k' = k.
Proof.
  induction e as [|[k0 v0] e IH]; simpl.
  - destruct (String.eqb k "__proto__"); simpl; intuition congruence.
  - destruct (String.eqb k0 k) eqn:H0; simpl; [tauto |].
    intros [-> | Hin]; [tauto |]. destruct (IH Hin); tauto.
Qed.


Lemma get_set_all e ks v k' :
  Forall (fun k => k <> "__proto__") ks ->
  Env.get (Env.set_all e ks v) k'
  = if existsb (fun k => String.eqb k k') ks then Some v else Env.get e k'.
Proof.
  unfold Env.set_all. intros Hks. revert e.
  induction Hks as [|k ks Hk _ IH]; intros e; simpl; [reflexivity |].
  rewrite IH, get_set by done. destruct (String.eqb k k'); simpl; [| reflexivity].
  by destruct (existsb _ ks).
Qed.

Lemma keys_set_all e ks v k' :
  Forall (fun k => k <> "__proto__") ks ->
  In k' (Env.keys (Env.set_all e ks v)) <-> In k' (Env.keys e) \/ In k' ks.
Proof.
  unfold Env.set_all. intros Hks. revert e.
  induction Hks as [|k ks Hk _ IH]; intros e; simpl; [tauto |].
  rewrite IH, keys_set by done. intuition congruence.
Qed.


Lemma set_all_app e ks1 ks2 v :
  Env.set_all e (ks1 ++ ks2) v = Env.set_all (Env.set_all e ks1 v) ks2 v.
Proof. unfold Env.set_all. apply fold_left_app. Qed.

Lemma existsb_eqb_In ks k' :
  existsb (fun k => String.eqb k k') ks = true <-> In k' ks.
Proof.
  rewrite existsb_exists. split.
  - intros (k & Hin & Heq). by apply String.eqb_eq in Heq as <-.
  - intros Hin. exists k'. by rewrite String.eqb_refl.
Qed.

End EnvFacts.

(** ** Deduplication by first occurrence *)

Section DedupFacts.
Variable f : string -> string.

Lemma kept_iff earlier x :
  kept f earlier x = true <->
  x <> "" /\ forall y, In y earlier -> y <> "" -> f y <> f x.
Proof.
  unfold kept. rewrite andb_true_iff, negb_true_iff. split.
  - intros [Hx Hex]. split; [by destruct x |].
    intros y Hin Hy Heq.
    assert (existsb (fun y => JS.nonempty y && String.eqb (f y) (f x)) earlier
            = true) as Hyes; [| congruence].
    apply existsb_exists. exists y. split; [done |].
    rewrite Heq, String.eqb_refl. by destruct y.
  - intros [Hx Hall]. split; [by destruct x |].
    destruct (existsb _ earlier) eqn:Hex; [| done].
    apply existsb_exists in Hex as (y & Hin & Hy).
    apply andb_true_iff in Hy as [Hy Heq]. apply String.eqb_eq in Heq.
    exfalso. apply (Hall y Hin); [by destruct y | done].
Qed.

Lemma dedup_from_elem earlier l u :
  In u (dedup_from f earlier l) ->
  In u l /\ u <> "" /\ forall y, In y earlier -> y <> "" -> f y <> f u.
Proof.
  revert earlier; induction l as [|x l IH]; intros earlier; simpl; [done |].
  intros Hin. apply in_app_or in Hin as [Hin | Hin].
  - destruct (kept f earlier x) eqn:Hk; [| done].
    destruct Hin as [<- | []]. apply kept_iff in Hk. tauto.
  - apply IH in Hin as (Hl & Hne & Hall). repeat split; [tauto | done |].
    intros y Hy. apply Hall, in_or_app. by left.
Qed.

Lemma dedup_from_NoDup earlier l : NoDup (map f (dedup_from f earlier l)).
Proof.
  revert earlier; induction l as [|x l IH]; intros earlier; simpl;
    [constructor |].
  destruct (kept f earlier x) eqn:Hk; simpl; [| apply IH].
  apply kept_iff in Hk as [Hx _].
  constructor; [| apply IH].
  rewrite list_elem_of_In, in_map_iff. intros (u & Heq & Hin).
  apply dedup_from_elem in Hin as (_ & _ & Hall).
  apply (Hall x); [apply in_or_app; right; by left | done | done].
Qed.

(** Every non-empty segment has its normal form among the kept ones, or
    among the earlier ones. *)
Lemma dedup_from_covers earlier l x :
  In x l -> x <> "" ->
  (exists y, In y earlier /\ y <> "" /\ f y = f x)
  \/ exists u, In u (dedup_from f earlier l) /\ f u = f x.
Proof.
  revert earlier; induction l as [|a l IH]; intros earlier; simpl; [done |].
  intros [-> | Hin] Hx.
  - destruct (kept f earlier x) eqn:Hk.
    + right. exists x. split; [by left | done].
    + left. destruct (existsb (fun y => JS.nonempty y && String.eqb (f y) (f x))
                        earlier) eqn:Hex.
      * apply existsb_exists in Hex as (y & Hy & Hc).
        apply andb_true_iff in Hc as [Hne Heq]. apply String.eqb_eq in Heq.
        exists y. repeat split; [done | by destruct y | done].
      * unfold kept in Hk. rewrite Hex in Hk. by destruct x.
  - destruct (IH (earlier ++ [a]) Hin Hx) as [(y & Hy & Hne & Heq) | (u & Hu & Heq)].
    + apply in_app_or in Hy as [Hy | [-> | []]]; [left; by exists y |].
      destruct (kept f earlier y) eqn:Hk.
      * right. exists y. split; [by left | done].
      * left. destruct (existsb (fun z => JS.nonempty z && String.eqb (f z) (f y))
                          earlier) eqn:Hex.
        -- apply existsb_exists in Hex as (z & Hz & Hc).
           apply andb_true_iff in Hc as [Hzne Hzeq]. apply String.eqb_eq in Hzeq.
           exists z. repeat split; [done | by destruct z | congruence].
        -- unfold kept in Hk. rewrite Hex in Hk. by destruct y.
    + right. exists u. split; [apply in_or_app; by right | done].
Qed.

Lemma dedup_from_app earlier l l' :
  dedup_from f earlier (l ++ l')
  = dedup_from f earlier l ++ dedup_from f (earlier ++ l) l'.
Proof.
  revert earlier; induction l as [|x l IH]; intros earlier; simpl.
  - by rewrite app_nil_r.
  - by rewrite IH, <- !app_assoc.
Qed.




(** Among the kept segments exactly one has a given normal form. *)
Lemma count_one (U : list string) z :
  NoDup (map f U) -> In z (map f U) ->
  List.length (List.filter (fun u => String.eqb (f u) z) U) = 1.
Proof.
  induction U as [|u U IH]; simpl; [done |].
  intros Hnd. inversion Hnd as [|? ? Hnin Hnd']; subst.
  destruct (String.eqb (f u) z) eqn:Hu.
  - apply String.eqb_eq in Hu as <-. intros _. simpl. f_equal.
    apply length_zero_iff_nil.
    destruct (List.filter _ U) as [|v ?] eqn:Hf; [done |].
    assert (In v (List.filter (fun u0 => String.eqb (f u0) (f u)) U)) as Hv
      by (rewrite Hf; by left).
    apply filter_In in Hv as [Hv Heq]. apply String.eqb_eq in Heq.
    exfalso. apply Hnin. rewrite list_elem_of_In, in_map_iff. by exists v.
  - intros [Heq | Hin]; [apply String.eqb_neq in Hu; done | by apply IH].
Qed.

(** Whether a segment is kept depends on the earlier ones only through
    the normal forms of the non-empty ones. *)
Lemma dedup_from_ext l : forall earlier1 earlier2,
  (forall z, kept f earlier1 z = kept f earlier2 z) ->
  dedup_from f earlier1 l = dedup_from f earlier2 l.
Proof.
  induction l as [|x l IH]; intros earlier1 earlier2 Hsame; simpl;
    [reflexivity |].
  rewrite (Hsame x). f_equal. apply IH. intros z. unfold kept in *.
  rewrite !existsb_app. simpl. specialize (Hsame z).
  destruct (JS.nonempty z); simpl in *; [| reflexivity].
  apply (f_equal negb) in Hsame. rewrite !negb_involutive in Hsame.
  by rewrite Hsame.
Qed.

(** A segment whose normal form an earlier non-empty segment has counts
    for nothing: the kept segments are those of the list without it. *)
Lemma dedup_from_drop l2 : forall earlier x y l3,
  In x earlier -> x <> "" -> f x = f y ->
  dedup_from f earlier (l2 ++ y :: l3) = dedup_from f earlier (l2 ++ l3).
Proof.
  induction l2 as [|a l2 IH]; intros earlier x y l3 Hx Hne Heq; simpl.
  - assert (kept f earlier y = false) as ->.
    { destruct (kept f earlier y) eqn:Hk; [| done].
      apply kept_iff in Hk as [_ Hall]. by destruct (Hall x). }
    simpl. apply dedup_from_ext. intros z. unfold kept.
    rewrite existsb_app. simpl. rewrite orb_false_r.
    destruct (JS.nonempty y && String.eqb (f y) (f z)) eqn:Hy;
      [| by rewrite orb_false_r].
    apply andb_true_iff in Hy as [_ Hy]. apply String.eqb_eq in Hy.
    rewrite orb_true_r.
    assert (existsb (fun y0 => JS.nonempty y0 && String.eqb (f y0) (f z)) earlier
            = true) as ->; [| done].
    apply existsb_exists. exists x. split; [done |].
    rewrite Heq, Hy, String.eqb_refl. by destruct x.
  - f_equal. apply (IH _ x); [apply in_or_app; by left | done | done].
Qed.

Lemma dedup_from_sublist l : forall earlier,
  dedup_from f earlier l `sublist_of` l.
Proof.
  induction l as [|x l IH]; intros earlier; simpl; [constructor |].
  destruct (kept f earlier x); simpl.
  - apply sublist_skip, IH.
  - apply sublist_cons, IH.
Qed.

End DedupFacts.

(** ** [appendCherryBinToPath] *)

Section AppendFacts.
Context `{NP : NodePath} `{H : Host}.

Abbreviation f := normal_form.
Abbreviation seen_of := (seen_after normal_form).

(** The constants of the code are those of the specification. *)
Lemma normaliseSegment_normal_form x :
  ShellEnv.normaliseSegment x = normal_form x.
Proof. reflexivity. Qed.

Lemma pathSeparator_list_separator : ShellEnv.pathSeparator = list_separator.
Proof. reflexivity. Qed.

Lemma cherryBinPath_tool_directory home :
  ShellEnv.cherryBinPath home = tool_directory home.
Proof. reflexivity. Qed.

Lemma homeDirFromEnv_home_of e : ShellEnv.homeDirFromEnv e = home_of e.
Proof.
  unfold ShellEnv.homeDirFromEnv, home_of, home_variable. simpl.
  destruct (Env.get e "HOME") as [[|c1 h1]|];
    destruct (Env.get e "Home") as [[|c2 h2]|];
    destruct (Env.get e "USERPROFILE") as [[|c3 h3]|];
    destruct (Env.get e "UserProfile") as [[|c4 h4]|]; reflexivity.
Qed.

Lemma head_filter {A} (p : A -> bool) l : head (List.filter p l) = List.find p l.
Proof.
  induction l as [|x l IH]; simpl; [reflexivity |]. by destruct (p x).
Qed.

Lemma pathKeys_In e k :
  In k (ShellEnv.pathKeys e)
  <-> In k (Env.keys e) /\ JS.toLowerCase k = "path".
Proof.
  unfold ShellEnv.pathKeys. rewrite filter_In, String.eqb_eq. tauto.
Qed.

Lemma existingPathValue_path_of e : ShellEnv.existingPathValue e = path_of e.
Proof.
  unfold ShellEnv.existingPathValue, ShellEnv.canonicalPathKey, path_of.
  rewrite <- (head_filter _ (Env.keys e)). fold (ShellEnv.pathKeys e).
  destruct (ShellEnv.pathKeys e) as [|k ks] eqn:Hpk; simpl.
  - assert (forall k, JS.toLowerCase k = "path" -> Env.get e k = None) as Hno.
    { intros k Hk. apply get_none. intros Hin.
      assert (In k (ShellEnv.pathKeys e)) as Hp by (by apply pathKeys_In).
      by rewrite Hpk in Hp. }
    rewrite (Hno "PATH" eq_refl).
    destruct isWin; [by rewrite (Hno "Path" eq_refl) | by rewrite (Hno "PATH" eq_refl)].
  - assert (In k (ShellEnv.pathKeys e)) as Hin by (rewrite Hpk; by left).
    apply pathKeys_In in Hin as [Hin Hk].
    destruct (get_of_key e k Hin) as [v Hv].
    destruct k as [|c k]; [done |]. simpl. rewrite Hv.
    destruct v as [|d v]; [| reflexivity].
    unfold JS.or_else. simpl. by destruct (Env.get e "PATH") as [[|]|].
Qed.

Lemma existingSegments_path_segments e :
  ShellEnv.existingSegments e = path_segments e.
Proof.
  unfold ShellEnv.existingSegments, path_segments.
  by rewrite existingPathValue_path_of.
Qed.

Lemma pushIfUnique_spec U seen earlier x :
  seen_of seen earlier ->
  (ShellEnv.pushIfUnique (U, seen) x).1
    = U ++ (if kept f earlier x then [x] else [])
  /\ seen_of (ShellEnv.pushIfUnique (U, seen) x).2 (earlier ++ [x]).
Proof.
  intros Hseen. unfold ShellEnv.pushIfUnique.
  destruct x as [|c x]; simpl.
  - split; [by rewrite app_nil_r |].
    intros z. rewrite (Hseen z). split.
    + intros (y & Hin & Hy). exists y. split; [apply in_or_app; by left | done].
    + intros (y & Hin & Hy & Hz). apply in_app_or in Hin as [Hin | [<- | []]];
        [by exists y | done].
  - change (ShellEnv.normaliseSegment (String c x)) with (f (String c x)).
    destruct (decide (f (String c x) ∈ seen)) as [Hin | Hnin]; simpl.
    + assert (kept f earlier (String c x) = false) as ->.
      { destruct (kept f earlier (String c x)) eqn:Hk; [| done].
        apply kept_iff in Hk as [_ Hk].
        apply Hseen in Hin as (y & Hy & Hne & Heq). by destruct (Hk y). }
      split; [by rewrite app_nil_r |].
      intros z. rewrite (Hseen z). split.
      * intros (y & Hy & Hne). exists y. split; [apply in_or_app; by left | done].
      * intros (y & Hy & Hne & Hz).
        apply in_app_or in Hy as [Hy | [<- | []]]; [by exists y |].
        subst z. by apply Hseen.
    + assert (kept f earlier (String c x) = true) as ->.
      { apply kept_iff. split; [done |]. intros y Hy Hne Heq.
        apply Hnin, Hseen. by exists y. }
      split; [done |].
      intros z. rewrite elem_of_union, elem_of_singleton, (Hseen z). split.
      * intros [-> | (y & Hy & Hne)].
        -- exists (String c x). split; [apply in_or_app; right; by left | done].
        -- exists y. split; [apply in_or_app; by left | done].
      * intros (y & Hy & Hne & Hz).
        apply in_app_or in Hy as [Hy | [<- | []]]; [right; by exists y | by left].
Qed.

Lemma fold_pushIfUnique l : forall U seen earlier,
  seen_of seen earlier ->
  (fold_left ShellEnv.pushIfUnique l (U, seen)).1 = U ++ dedup_from f earlier l
  /\ seen_of (fold_left ShellEnv.pushIfUnique l (U, seen)).2 (earlier ++ l).
Proof.
  induction l as [|x l IH]; intros U seen earlier Hseen; simpl.
  - rewrite !app_nil_r. by split.
  - destruct (pushIfUnique_spec U seen earlier x Hseen) as [HU Hs].
    destruct (ShellEnv.pushIfUnique (U, seen) x) as [U' seen'] eqn:Hp.
    simpl in HU, Hs. destruct (IH U' seen' (earlier ++ [x]) Hs) as [HU' Hs'].
    rewrite <- app_assoc in Hs'. simpl in Hs'.
    split; [| exact Hs']. rewrite HU', HU. by rewrite <- app_assoc.
Qed.

(** [uniqueSegments] keeps the first occurrence of every normal form. *)
Lemma uniqueSegments_first_occurrences home e :
  ShellEnv.uniqueSegments home e
  = first_occurrences f (path_segments e ++ [tool_directory home]).
Proof.
  unfold ShellEnv.uniqueSegments, first_occurrences.
  rewrite existingSegments_path_segments, cherryBinPath_tool_directory.
  assert (seen_of ∅ []) as Hseen.
  { intros z. split; [set_solver | by intros (y & [] & _)]. }
  pose proof (fold_pushIfUnique (path_segments e ++ [tool_directory home])
                [] ∅ [] Hseen) as [HU _].
  rewrite fold_left_app in HU. simpl in HU. exact HU.
Qed.

Lemma updatedPath_path_with_cherry_bin home e :
  ShellEnv.updatedPath home e = path_with_cherry_bin home (path_of e).
Proof.
  unfold ShellEnv.updatedPath, path_with_cherry_bin.
  by rewrite uniqueSegments_first_occurrences.
Qed.

Lemma assign_as_set_all e P :
  ShellEnv.assignPath e P = Env.set_all e (assigned_keys e) P.
Proof.
  unfold ShellEnv.assignPath, assigned_keys.
  rewrite set_all_app.
  destruct (ShellEnv.pathKeys e) as [|k ks]; destruct isWin; reflexivity.
Qed.

Lemma assigned_keys_path e k :
  In k (assigned_keys e) -> JS.toLowerCase k = "path".
Proof.
  unfold assigned_keys. intros Hin. apply in_app_or in Hin as [Hin | Hin].
  - destruct (ShellEnv.pathKeys e) as [|k0 ks] eqn:Hpk.
    + destruct Hin as [<- | []]. unfold ShellEnv.canonicalPathKey.
      rewrite Hpk. simpl. by destruct isWin.
    + rewrite <- Hpk in Hin. apply pathKeys_In in Hin. tauto.
  - destruct isWin; [done |]. by destruct Hin as [<- | []].
Qed.

Lemma assigned_keys_ordinary e :
  Forall (fun k => k <> "__proto__") (assigned_keys e).
Proof.
  apply Forall_forall. intros k Hk.
  by apply path_like_ordinary, (assigned_keys_path e), list_elem_of_In.
Qed.

Lemma assigned_keys_of_path e k :
  In k (ShellEnv.pathKeys e) -> In k (assigned_keys e).
Proof.
  unfold assigned_keys. intros Hin. apply in_or_app. left.
  by destruct (ShellEnv.pathKeys e).
Qed.

Lemma assigned_keys_cons e : exists k, In k (assigned_keys e).
Proof.
  unfold assigned_keys. destruct (ShellEnv.pathKeys e) as [|k ks];
    eexists; apply in_or_app; left; by left.
Qed.

Section After.
Variable e : env.
Variable P : string.
Let e' := ShellEnv.assignPath e P.

Lemma get_assigned k : In k (assigned_keys e) -> Env.get e' k = Some P.
Proof.
  intros Hin. subst e'.
  rewrite assign_as_set_all, get_set_all by apply assigned_keys_ordinary.
  apply existsb_eqb_In in Hin. by rewrite Hin.
Qed.

Lemma get_unassigned k :
  JS.toLowerCase k <> "path" -> Env.get e' k = Env.get e k.
Proof.
  intros Hk. subst e'.
  rewrite assign_as_set_all, get_set_all by apply assigned_keys_ordinary.
  destruct (existsb _ (assigned_keys e)) eqn:Hex; [| done].
  apply existsb_eqb_In, assigned_keys_path in Hex. done.
Qed.

Lemma keys_after k :
  In k (Env.keys e') <-> In k (Env.keys e) \/ In k (assigned_keys e).
Proof.
  subst e'. rewrite assign_as_set_all.
  apply keys_set_all, assigned_keys_ordinary.
Qed.

Lemma pathKeys_after k : In k (ShellEnv.pathKeys e') -> Env.get e' k = Some P.
Proof.
  intros Hin. apply pathKeys_In in Hin as [Hin Hk].
  apply get_assigned. apply keys_after in Hin as [Hin | Hin]; [| done].
  apply assigned_keys_of_path, pathKeys_In. by split.
Qed.

Lemma pathKeys_after_cons : exists k ks, ShellEnv.pathKeys e' = k :: ks.
Proof.
  destruct (assigned_keys_cons e) as [k Hk].
  assert (In k (ShellEnv.pathKeys e')) as Hin.
  { apply pathKeys_In. split; [apply keys_after; by right |].
    by apply (assigned_keys_path e). }
  destruct (ShellEnv.pathKeys e') as [|k0 ks]; [done | by eexists _, _].
Qed.




(** What the assignments leave alone and what they set. *)
Lemma assignPath_frame :
  (forall k, JS.toLowerCase k <> "path" -> Env.get e' k = Env.get e k)
  /\ (forall k, In k (Env.keys e) -> In k (Env.keys e'))
  /\ (forall k, In k (Env.keys e') ->
        In k (Env.keys e) \/ JS.toLowerCase k = "path")
  /\ (forall k, In k (Env.keys e') -> JS.toLowerCase k = "path" ->
        Env.get e' k = Some P)
  /\ (exists k, In k (Env.keys e') /\ JS.toLowerCase k = "path")
  /\ (isWin = false -> Env.get e' "PATH" = Some P).
Proof.
  repeat split.
  - intros k Hk. by apply get_unassigned.
  - intros k Hk. apply keys_after. by left.
  - intros k Hk. apply keys_after in Hk as [Hk | Hk]; [by left | right].
    by apply (assigned_keys_path e).
  - intros k Hk Hpath. apply pathKeys_after, pathKeys_In. by split.
  - destruct pathKeys_after_cons as (k & ks & Hpk). exists k.
    apply pathKeys_In. rewrite Hpk. by left.
  - intros Hwin. apply get_assigned. unfold assigned_keys. rewrite Hwin.
    apply in_or_app. right. by left.
Qed.

End After.

Lemma path_segments_plain e x :
  In x (path_segments e) -> plain_segment list_separator x.
Proof.
  unfold path_segments. rewrite in_map_iff.
  intros (y & <- & Hy). split; [apply trim_idem |].
  by apply includes_trim, (split_pieces _ (path_of e)).
Qed.

Lemma uniqueSegments_elem home e u :
  In u (ShellEnv.uniqueSegments home e) ->
  u <> "" /\ In u (path_segments e ++ [tool_directory home]).
Proof.
  rewrite uniqueSegments_first_occurrences. intros Hu.
  apply dedup_from_elem in Hu. tauto.
Qed.

Lemma uniqueSegments_plain home e :
  plain_segment list_separator (tool_directory home) ->
  Forall (plain_segment list_separator) (ShellEnv.uniqueSegments home e).
Proof.
  intros Hcb. apply Forall_forall. intros u Hu.
  apply list_elem_of_In, uniqueSegments_elem in Hu as [_ Hu].
  apply in_app_or in Hu as [Hu | [<- | []]]; [| done].
  by apply (path_segments_plain e).
Qed.




(** The function returns when the home directory is known, and throws
    with [os.homedir()] otherwise. *)
Lemma appendCherryBinToPath_run e :
  ShellEnv.appendCherryBinToPath e
  = match home_of e with
    | Returns home =>
        Returns (ShellEnv.assignPath e (path_with_cherry_bin home (path_of e)))
    | Throws message => Throws message
    end.
Proof.
  unfold ShellEnv.appendCherryBinToPath. rewrite homeDirFromEnv_home_of.
  destruct (home_of e); [| reflexivity].
  by rewrite updatedPath_path_with_cherry_bin.
Qed.


(** C10. The output PATH holds the first occurrence of every normal form
    ([path.normalize], and on Windows the lower case of it) among the
    trimmed non-empty segments of the input PATH, then the tool directory
    unless its normal form occurred: no two kept segments have one normal
    form, the segment kept for a normal form is the first one that has it,
    a later segment with the normal form of an earlier one counts for
    nothing, and every PATH-like key of the result holds the kept segments
    joined by the separator. *)
Theorem uniqueSegments_first_only (e : env) (home : string) :
  let nf := fun x : string =>
    if isWin then JS.toLowerCase (path_normalize x) else path_normalize x in
  let segs := path_segments e ++ [tool_directory home] in
  ShellEnv.uniqueSegments home e = first_occurrences nf segs
  /\ NoDup (map nf (ShellEnv.uniqueSegments home e))
  /\ (forall l1 x l2,
        segs = l1 ++ x :: l2 -> x <> "" ->
        (forall y, In y l1 -> y <> "" -> nf y <> nf x) ->
        In x (ShellEnv.uniqueSegments home e)
        /\ (forall u, In u (ShellEnv.uniqueSegments home e) -> nf u = nf x -> u = x)
        /\ List.length
             (List.filter (fun u => String.eqb (nf u) (nf x))
                (ShellEnv.uniqueSegments home e)) = 1)
  /\ (forall l1 x l2 y l3,
        segs = l1 ++ x :: l2 ++ y :: l3 -> x <> "" -> nf x = nf y ->
        ShellEnv.uniqueSegments home e
        = first_occurrences nf (l1 ++ x :: l2 ++ l3))
  /\ (home_of e = Returns home ->
      exists e',
        ShellEnv.appendCherryBinToPath e = Returns e'
        /\ (exists k, In k (Env.keys e') /\ JS.toLowerCase k = "path")
        /\ forall k, In k (Env.keys e') -> JS.toLowerCase k = "path" ->
             Env.get e' k
             = Some (JS.join list_separator (ShellEnv.uniqueSegments home e))).
Proof.
  intros nf segs. change nf with f.
  pose proof (uniqueSegments_first_occurrences home e) as HU.
  fold segs in HU. split; [exact HU |]. split; [| split; [| split]].
  - rewrite HU. apply dedup_from_NoDup.
  - intros l1 x l2 Hsegs Hx Hfirst.
    assert (kept f l1 x = true) as Hk by (by apply kept_iff).
    assert (ShellEnv.uniqueSegments home e
            = dedup_from f [] l1 ++ [x] ++ dedup_from f (l1 ++ [x]) l2) as Hsplit.
    { rewrite HU, Hsegs. unfold first_occurrences.
      rewrite dedup_from_app. simpl. by rewrite Hk. }
    assert (In x (ShellEnv.uniqueSegments home e)) as Hin.
    { rewrite Hsplit. apply in_or_app. right. by left. }
    split; [exact Hin |]. split.
    + intros u Hu Heq. rewrite Hsplit in Hu.
      apply in_app_or in Hu as [Hu | [Hu | Hu]]; [| done |].
      * apply dedup_from_elem in Hu as (Hu & Hne & _).
        by destruct (Hfirst u).
      * apply dedup_from_elem in Hu as (_ & _ & Hall).
        exfalso. apply (Hall x); [apply in_or_app; right; by left | done | done].
    + apply count_one; [rewrite HU; apply dedup_from_NoDup |].
      apply in_map_iff. by exists x.
  - intros l1 x l2 y l3 Hsegs Hx Heq. rewrite HU, Hsegs.
    unfold first_occurrences.
    rewrite (dedup_from_app f [] l1), (dedup_from_app f [] l1). f_equal.
    simpl. f_equal.
    apply (dedup_from_drop f l2 _ x); [apply in_or_app; right; by left | done | done].
  - intros Hhome. exists (ShellEnv.assignPath e (ShellEnv.updatedPath home e)).
    split; [| split].
    + unfold ShellEnv.appendCherryBinToPath.
      by rewrite homeDirFromEnv_home_of, Hhome.
    + apply assignPath_frame.
    + intros k Hk Hpath.
      by rewrite (proj1 (proj2 (proj2 (proj2 (assignPath_frame e _)))) k Hk Hpath).
Qed.

End AppendFacts.



Lemma uniqueSegments_first_only_witness :
  ShellEnv.appendCherryBinToPath (NP := Node.posix false) (H := Examples.linux)
    [("HOME", "/home/u"); ("PATH", "/usr/bin:/bin:/usr//bin:/usr/bin")]
  = Returns
      [("HOME", "/home/u"); ("PATH", "/usr/bin:/bin:/home/u/.cherrystudio/bin")]
  /\ "/usr/bin:/bin:/home/u/.cherrystudio/bin"
     <> "/usr/bin:/bin:/usr//bin:/usr/bin" +:+ ":" +:+ "/home/u/.cherrystudio/bin"
  /\ ShellEnv.uniqueSegments (NP := Node.win32) "C:\Users\u"
       [("USERPROFILE", "C:\Users\u");
        ("Path", "C:\Windows;C:\Tools\.\bin;c:\WINDOWS;C:\tools\BIN")]
     = ["C:\Windows"; "C:\Tools\.\bin"; "C:\Users\u\.cherrystudio\bin"].
Proof.
  split; [| split; [discriminate |]].
  - destruct (uniqueSegments_first_only (NP := Node.posix false)
                (H := Examples.linux)
                [("HOME", "/home/u"); ("PATH", "/usr/bin:/bin:/usr//bin:/usr/bin")]
                "/home/u")
      as (_ & _ & _ & _ & Hget).
    destruct (Hget eq_refl) as (e' & Hrun & _). rewrite Hrun.
    vm_compute in Hrun. by injection Hrun as <-.
  - destruct (uniqueSegments_first_only (NP := Node.win32)
                (H := Examples.windows_planted)
                [("USERPROFILE", "C:\Users\u");
                 ("Path", "C:\Windows;C:\Tools\.\bin;c:\WINDOWS;C:\tools\BIN")]
                "C:\Users\u")
      as (HU & _).
    rewrite HU. reflexivity.
Defined.

(** ** The environment probe and its cache *)

Section ProbeFacts.
Context `{NP : NodePath} `{H : Host}.

Ltac run_monad :=
  unfold logger in *; unfold bind, ret, emit, read, write in *; simpl in *;
  repeat (case_match; simpl in *); simplify_eq/=; try done.

Lemma on_child_event_state {S} sh home p ev (s : S) :
  (ShellEnv.on_child_event sh home p ev s).1.2 = s.
Proof. destruct ev; unfold ShellEnv.on_child_event; run_monad. Qed.

Lemma run_child_state {S} sh home evs : forall p (s : S),
  (ShellEnv.run_child sh home p evs s).1.2 = s.
Proof.
  induction evs as [|ev evs IH]; intros p s; simpl; [reflexivity |].
  unfold bind. pose proof (on_child_event_state sh home p ev s) as Hs.
  destruct (ShellEnv.on_child_event sh home p ev s) as [[p' s'] t'].
  simpl in Hs. subst s'. specialize (IH p' s).
  by destruct (ShellEnv.run_child sh home p' evs s) as [[p'' s''] t''].
Qed.

(** The promise settles once: later events leave the settlement alone. *)
Lemma on_child_event_settled {S} sh home p ev (s : S) :
  ShellEnv.is_settled p = true ->
  ShellEnv.settled (ShellEnv.on_child_event sh home p ev s).1.1
  = ShellEnv.settled p.
Proof.
  intros Hp. destruct ev; unfold ShellEnv.on_child_event; rewrite ?Hp;
    run_monad.
Qed.

Lemma run_child_settled {S} sh home evs : forall p (s : S),
  ShellEnv.is_settled p = true ->
  ShellEnv.settled (ShellEnv.run_child sh home p evs s).1.1
  = ShellEnv.settled p.
Proof.
  induction evs as [|ev evs IH]; intros p s Hp; simpl; [reflexivity |].
  unfold bind. pose proof (on_child_event_state sh home p ev s) as Hs.
  pose proof (on_child_event_settled sh home p ev s Hp) as Hset.
  destruct (ShellEnv.on_child_event sh home p ev s) as [[p' s'] t'].
  simpl in Hs, Hset. subst s'.
  assert (ShellEnv.is_settled p' = true) as Hp'
    by (unfold ShellEnv.is_settled in *; by rewrite Hset).
  specialize (IH p' s Hp').
  destruct (ShellEnv.run_child sh home p' evs s) as [[p'' s''] t''].
  simpl in *. congruence.
Qed.

(** Output alone settles nothing. *)
Lemma run_child_output {S} sh home pre : forall rest p (s : S),
  forallb is_output pre = true ->
  exists p',
    ShellEnv.settled p' = ShellEnv.settled p
    /\ ShellEnv.settled (ShellEnv.run_child sh home p (pre ++ rest) s).1.1
       = ShellEnv.settled (ShellEnv.run_child sh home p' rest s).1.1.
Proof.
  induction pre as [|ev pre IH]; intros rest p s Hpre; simpl in *.
  - by exists p.
  - apply andb_true_iff in Hpre as [Hev Hpre].
    destruct ev; try discriminate; unfold bind; simpl.
    + destruct (IH rest {| ShellEnv.output := ShellEnv.output p +:+ data;
                           ShellEnv.errorOutput := ShellEnv.errorOutput p;
                           ShellEnv.settled := ShellEnv.settled p |} s Hpre)
        as (p' & Hp' & Heq).
      exists p'. split; [done |].
      destruct (ShellEnv.run_child sh home _ (pre ++ rest) s) as [[? ?] ?].
      exact Heq.
    + destruct (IH rest {| ShellEnv.output := ShellEnv.output p;
                           ShellEnv.errorOutput := ShellEnv.errorOutput p +:+ data;
                           ShellEnv.settled := ShellEnv.settled p |} s Hpre)
        as (p' & Hp' & Heq).
      exists p'. split; [done |].
      destruct (ShellEnv.run_child sh home _ (pre ++ rest) s) as [[? ?] ?].
      exact Heq.
Qed.

Lemma run_child_rejects {S} sh home pre ev post (s : S) :
  forallb is_output pre = true -> rejecting ev ->
  exists message,
    ShellEnv.settled
      (ShellEnv.run_child sh home
         {| ShellEnv.output := ""; ShellEnv.errorOutput := "";
            ShellEnv.settled := Pending |} (pre ++ ev :: post) s).1.1
    = Rejected message.
Proof.
  intros Hpre Hev.
  destruct (run_child_output sh home pre (ev :: post)
              {| ShellEnv.output := ""; ShellEnv.errorOutput := "";
                 ShellEnv.settled := Pending |} s Hpre) as (p' & Hp' & ->).
  simpl in Hp'. simpl. unfold bind.
  pose proof (on_child_event_state sh home p' ev s) as Hs.
  assert (exists message,
            ShellEnv.settled (ShellEnv.on_child_event sh home p' ev s).1.1
            = Rejected message) as [message Hrej].
  { destruct ev; simpl in Hev; try done;
      unfold ShellEnv.on_child_event, ShellEnv.is_settled; rewrite Hp'.
    - unfold bind, logger, emit, ret. simpl. by eexists.
    - rewrite bool_decide_eq_false_2 by done. simpl.
      unfold bind, logger, emit, ret. simpl. by eexists.
    - unfold bind, logger, emit, ret. simpl. by eexists. }
  destruct (ShellEnv.on_child_event sh home p' ev s) as [[p1 s1] t1].
  simpl in Hs, Hrej. subst s1. exists message.
  pose proof (run_child_settled sh home post p1 s) as Hstay.
  destruct (ShellEnv.run_child sh home p1 post s) as [[p2 s2] t2].
  simpl in *. rewrite Hstay; [done |].
  unfold ShellEnv.is_settled. by rewrite Hrej.
Qed.

(** The home directory and the shell of the probe are those of the
    specification. *)
Lemma homeDirectory_home_of : ShellEnv.homeDirectory = home_of process_env.
Proof.
  unfold ShellEnv.homeDirectory, home_of, home_variable. simpl.
  destruct (Env.get process_env "HOME") as [[|c1 h1]|];
    destruct (Env.get process_env "Home") as [[|c2 h2]|];
    destruct (Env.get process_env "USERPROFILE") as [[|c3 h3]|];
    destruct (Env.get process_env "UserProfile") as [[|c4 h4]|]; reflexivity.
Qed.

Lemma shellPath_login_shell : ShellEnv.shellPath = login_shell isMac.
Proof.
  unfold ShellEnv.shellPath, login_shell.
  by destruct (Env.get process_env "SHELL") as [[|c sh]|].
Qed.

Lemma probe_start_no_home {S} (s : S) message :
  isWin = false ->
  home_of process_env = Returns "" \/ home_of process_env = Throws message ->
  exists m, ShellEnv.probe_start s = (inl (Rejected m), s, []).
Proof.
  intros Hwin Hhome. unfold ShellEnv.probe_start.
  rewrite Hwin, homeDirectory_home_of.
  destruct Hhome as [-> | ->]; simpl; by eexists.
Qed.

(** With a home directory the probe gets as far as the [spawn]. *)
Lemma probe_start_spawns {S} (s : S) home :
  isWin = false -> home_of process_env = Returns home -> home <> "" ->
  exists t,
    ShellEnv.probe_start s
    = (match login_child with
       | Returns _ => inr (login_shell isMac, home)
       | Throws message => inl (Rejected message)
       end, s, t)
    /\ List.filter is_spawn t = [Spawned (login_shell isMac) ["-ilc"; "env"]].
Proof.
  intros Hwin Hhome Hne. unfold ShellEnv.probe_start, login_child.
  rewrite Hwin, homeDirectory_home_of, Hhome, shellPath_login_shell.
  destruct home as [|c home]; [done |]. cbn [JS.nonempty negb].
  destruct (JS.truthy (Env.get process_env "SHELL")); [| destruct isMac];
    unfold logger, bind, emit, ret; simpl;
    destruct (spawn _ _ None); simpl; by eexists.
Qed.

Lemma probe_finish_rejects {S} sh pre ev post (s : S) :
  forallb is_output pre = true -> rejecting ev ->
  exists message t,
    ShellEnv.probe_finish sh (pre ++ ev :: post) s = (Rejected message, s, t).
Proof.
  intros Hpre Hev. unfold ShellEnv.probe_finish, bind, ret.
  destruct (run_child_rejects sh.1 sh.2 pre ev post s Hpre Hev)
    as [message Hrej].
  pose proof (run_child_state sh.1 sh.2 (pre ++ ev :: post)
                {| ShellEnv.output := ""; ShellEnv.errorOutput := "";
                   ShellEnv.settled := Pending |} s) as Hs.
  destruct (ShellEnv.run_child _ _ _ _ s) as [[p' s'] t'].
  simpl in *. subst s'. rewrite Hrej. by eexists _, _.
Qed.

(** Off Windows, a probe whose child fails, or that has no child, rejects. *)
Lemma getLoginShellEnvironment_rejects {S} (s : S) :
  isWin = false ->
  (exists message, home_of process_env = Throws message)
  \/ home_of process_env = Returns ""
  \/ (exists message, login_child = Throws message)
  \/ (exists pre ev post,
        login_child = Returns (pre ++ ev :: post)
        /\ forallb is_output pre = true /\ rejecting ev) ->
  exists message t,
    ShellEnv.getLoginShellEnvironment s = (Rejected message, s, t).
Proof.
  intros Hwin Hfail. unfold ShellEnv.getLoginShellEnvironment, bind.
  destruct (home_of process_env) as [[|c home] | m] eqn:Hhome.
  - destruct (probe_start_no_home s "" Hwin (or_introl Hhome)) as [m ->].
    unfold ret. by eexists _, _.
  - destruct (probe_start_spawns s (String c home) Hwin Hhome) as (t & -> & _);
      [done |].
    destruct Hfail as [[m Hm] | [Hm | [[m Hm] | (pre & ev & post & Hm & Hpre & Hev)]]];
      [done | done | |].
    + rewrite Hm. unfold ret. by eexists _, _.
    + rewrite Hm. cbn [fst]. unfold login_child in Hm.
      rewrite Hm. cbn [ShellEnv.child_events].
      destruct (probe_finish_rejects (login_shell isMac, String c home)
                  pre ev post s Hpre Hev) as (m' & t' & ->).
      by eexists _, _.
  - destruct (probe_start_no_home s m Hwin (or_intror Hhome)) as [m' ->].
    unfold ret. by eexists _, _.
Qed.

Lemma getWindowsEnvironment_unavailable {S} (s : S) :
  JS.truthy (ShellEnv.regValue ShellEnv.HKLM_KEY "Path") = false ->
  JS.truthy (ShellEnv.regValue ShellEnv.HKCU_KEY "Path") = false ->
  exists t, ShellEnv.getWindowsEnvironment s = (ShellEnv.fallbackEnv, s, t).
Proof.
  intros Hsys Huser.
  unfold ShellEnv.getWindowsEnvironment, ShellEnv.readWindowsRegistryPath,
    ShellEnv.queryRegValue, ShellEnv.fallbackEnv.
  unfold logger, bind, emit, ret. simpl. rewrite Hsys, Huser. simpl.
  by eexists.
Qed.

(** Whatever way the probe fails, [fetchShellEnv] settles as its fallback
    does and leaves the module state alone. *)
Lemma fetchShellEnv_fallback {S} (s : S) :
  probe_fails ->
  exists t, ShellEnv.fetchShellEnv s = (fallback_result, s, t).
Proof.
  intros Hfail. unfold ShellEnv.fetchShellEnv, bind.
  assert ((exists m t, ShellEnv.getLoginShellEnvironment s = (Rejected m, s, t))
          \/ exists t, ShellEnv.getLoginShellEnvironment s
                       = (fallback_result, s, t)) as Hprobe.
  { destruct Hfail as [Hwin Hhome | m Hwin Hsp | pre m post Hwin Hsp Hpre
                      | pre code post Hwin Hsp Hcode Hpre
                      | pre post Hwin Hsp Hpre | Hwin Hsys Huser].
    - left. apply getLoginShellEnvironment_rejects; [done | tauto].
    - left. apply getLoginShellEnvironment_rejects; [done |].
      right. right. left. by exists m.
    - left. apply getLoginShellEnvironment_rejects; [done |].
      right. right. right. by exists pre, (ChildError m), post.
    - left. apply getLoginShellEnvironment_rejects; [done |].
      right. right. right. by exists pre, (ChildClose code), post.
    - left. apply getLoginShellEnvironment_rejects; [done |].
      right. right. right. by exists pre, TimerFired, post.
    - unfold ShellEnv.getLoginShellEnvironment, ShellEnv.probe_start.
      rewrite Hwin. unfold bind.
      destruct (getWindowsEnvironment_unavailable s) as [t ->].
      { unfold ShellEnv.regValue, ShellEnv.HKLM_KEY. by rewrite Hsys. }
      { unfold ShellEnv.regValue, ShellEnv.HKCU_KEY. by rewrite Huser. }
      right. unfold fallback_result.
      destruct ShellEnv.fallbackEnv as [e | m]; unfold ret; simpl; by eexists. }
  destruct Hprobe as [(m & t & ->) | (t & ->)].
  - unfold ShellEnv.fetch_settle, fallback_result, logger, bind, emit, ret.
    simpl. destruct ShellEnv.fallbackEnv; simpl; by eexists.
  - unfold fallback_result.
    destruct ShellEnv.fallbackEnv as [e | m] eqn:Hfb; unfold ShellEnv.fetch_settle.
    + unfold ret. by eexists.
    + rewrite Hfb. unfold logger, bind, emit, ret. simpl. by eexists.
Qed.

(** *** The copy of [process.env] *)

Lemma set_fresh (e : env) k v :
  k <> "__proto__" -> ~ In k (Env.keys e) -> Env.set e k v = e ++ [(k, v)].
Proof.
  intros Hk. apply String.eqb_neq in Hk.
  induction e as [|[k0 v0] e IH]; simpl; [by rewrite Hk |].
  intros Hn. destruct (String.eqb k0 k) eqn:H0.
  - apply String.eqb_eq in H0. tauto.
  - rewrite IH; [reflexivity | tauto].
Qed.

Lemma set_proto (e : env) v :
  ~ In "__proto__" (Env.keys e) -> Env.set e "__proto__" v = e.
Proof.
  induction e as [|[k0 v0] e IH]; simpl; [reflexivity |].
  intros Hn. destruct (String.eqb k0 "__proto__") eqn:H0.
  - apply String.eqb_eq in H0. tauto.
  - rewrite IH; [reflexivity | tauto].
Qed.

Lemma copy_onto (src : env) : forall acc : env,
  NoDup (Env.keys (acc ++ src)) -> ~ In "__proto__" (Env.keys acc) ->
  fold_left
    (fun acc kv => Env.set acc (fst kv) (JS.or_default (Some (snd kv)) ""))
    src acc
  = acc ++ List.filter (fun kv => negb (String.eqb kv.1 "__proto__")) src.
Proof.
  induction src as [|[k v] src IH]; intros acc Hnd Hacc;
    cbn [fold_left fst snd List.filter].
  - by rewrite app_nil_r.
  - assert (JS.or_default (Some v) "" = v) as -> by (by destruct v).
    assert (~ In k (Env.keys acc)) as Hfresh.
    { unfold Env.keys in *. rewrite map_app in Hnd. simpl in Hnd.
      apply NoDup_app in Hnd as (_ & Hdis & _). intros Hin.
      apply (Hdis k); [by apply list_elem_of_In | left]. }
    destruct (String.eqb k "__proto__") eqn:Hk; cbn [negb].
    + apply String.eqb_eq in Hk as ->. rewrite (set_proto acc v Hacc).
      apply IH; [| done]. unfold Env.keys in *.
      rewrite map_app in *. simpl in Hnd.
      apply NoDup_app in Hnd as (Ha & Hdis & Hs). apply NoDup_cons in Hs as [_ Hs].
      apply NoDup_app. split; [done | split; [| done]].
      intros x Hx Hx'. apply (Hdis x Hx). by right.
    + apply String.eqb_neq in Hk.
      rewrite (set_fresh acc k v Hk Hfresh), IH.
      * by rewrite <- app_assoc.
      * by rewrite <- app_assoc.
      * unfold Env.keys. rewrite map_app, in_app_iff. simpl.
        intros [Hin | [Heq | []]]; [by apply Hacc | by apply Hk].
Qed.

(** The copy loop copies every variable but [__proto__]. *)
Lemma copy_own (e : env) :
  NoDup (Env.keys e) ->
  Env.copy e = List.filter (fun kv => negb (String.eqb kv.1 "__proto__")) e.
Proof.
  intros Hnd. unfold Env.copy. rewrite copy_onto; [done | done | by intros []].
Qed.

Lemma get_filter_ordinary (e : env) k :
  k <> "__proto__" ->
  Env.get (List.filter (fun kv => negb (String.eqb kv.1 "__proto__")) e) k
  = Env.get e k.
Proof.
  intros Hk. induction e as [|[k0 v0] e IH]; simpl; [reflexivity |].
  destruct (String.eqb k0 "__proto__") eqn:H0; simpl.
  - apply String.eqb_eq in H0 as ->.
    apply not_eq_sym, String.eqb_neq in Hk. by rewrite Hk.
  - by rewrite IH.
Qed.

Lemma find_filter_ordinary (p : string -> bool) (e : env) :
  p "__proto__" = false ->
  List.find p
    (Env.keys (List.filter (fun kv => negb (String.eqb kv.1 "__proto__")) e))
  = List.find p (Env.keys e).
Proof.
  intros Hp. induction e as [|[k0 v0] e IH]; simpl; [reflexivity |].
  destruct (String.eqb k0 "__proto__") eqn:H0; simpl.
  - apply String.eqb_eq in H0 as ->. by rewrite Hp.
  - by rewrite IH.
Qed.

Lemma keys_filter_ordinary (e : env) k :
  In k (Env.keys (List.filter (fun kv => negb (String.eqb kv.1 "__proto__")) e))
  <-> In k (Env.keys e) /\ k <> "__proto__".
Proof.
  unfold Env.keys. rewrite !in_map_iff. split.
  - intros ([k0 v0] & <- & Hin). apply filter_In in Hin as [Hin Hk].
    split; [by exists (k0, v0) |]. apply negb_true_iff in Hk.
    by apply String.eqb_neq in Hk.
  - intros [([k0 v0] & <- & Hin) Hk]. exists (k0, v0). split; [done |].
    apply filter_In. split; [done |]. apply negb_true_iff.
    by apply String.eqb_neq.
Qed.

(** The copy names the home directory and holds the PATH that
    [process.env] does. *)
Lemma copy_home_path (e : env) :
  NoDup (Env.keys e) ->
  home_of (Env.copy e) = home_of e /\ path_of (Env.copy e) = path_of e.
Proof.
  intros Hnd. rewrite (copy_own e Hnd). split.
  - unfold home_of, home_variable. simpl.
    by rewrite !get_filter_ordinary.
  - unfold path_of. rewrite find_filter_ordinary by reflexivity.
    destruct (List.find _ (Env.keys e)) as [k|] eqn:Hfind; [| reflexivity].
    apply find_some in Hfind as [_ Hk]. apply String.eqb_eq in Hk.
    rewrite (get_filter_ordinary e k) by (by apply path_like_ordinary).
    by rewrite (get_filter_ordinary e "PATH").
Qed.

(** C3.  The claim fails on the code where the home directory cannot be
    determined: the fallback of [fetchShellEnv] calls
    [appendCherryBinToPath], whose call of [os.homedir()] is outside every
    [try].  On a Windows machine where no variable names the home
    directory and the system knows none, with both registry reads failing,
    [getShellEnv] and [refreshShellEnv] reject after the fallback has been
    announced, and nothing is cached; so they do on a Linux machine
    without a home directory. *)
Theorem shell_env_rejects_without_home :
  probe_fails (NP := Node.win32) (H := Examples.windows_homeless)
  /\ (ShellEnv.getShellEnv (NP := Node.win32) (H := Examples.windows_homeless)
        None).1
     = (Rejected
          "A system error occurred: uv_os_homedir returned ENOENT (no such file or directory)",
        None)
  /\ (ShellEnv.refreshShellEnv (NP := Node.win32)
        (H := Examples.windows_homeless) (Some [("Path", "C:\Windows")])).1
     = (Rejected
          "A system error occurred: uv_os_homedir returned ENOENT (no such file or directory)",
        Some [("Path", "C:\Windows")])
  /\ last (ShellEnv.getShellEnv (NP := Node.win32)
             (H := Examples.windows_homeless) None).2
     = Some (Log Error
               "Failed to get shell environment, falling back to process.env")
  /\ (ShellEnv.getShellEnv (NP := Node.posix false)
        (H := Examples.linux_homeless) None).1
     = (Rejected
          "A system error occurred: uv_os_homedir returned ENOENT (no such file or directory)",
        None).
Proof.
  split; [by apply registry_unavailable |].
  repeat split; vm_compute; reflexivity.
Qed.

(** *** Calls on the event loop *)

Lemma probe_start_counts :
  isWin = true \/ (exists home, home_of process_env = Returns home /\ home <> "") ->
  List.length (List.filter is_spawn (ShellEnv.probe_start (S := unit) tt).2)
  = if isWin then 2 else 1.
Proof.
  intros Hok. destruct isWin eqn:Hwin.
  - unfold ShellEnv.probe_start. rewrite Hwin.
    unfold ShellEnv.getWindowsEnvironment, ShellEnv.readWindowsRegistryPath,
      ShellEnv.queryRegValue.
    unfold logger, bind, emit, ret. simpl.
    destruct (negb _ && negb _); simpl.
    + by destruct (ShellEnv.appendCherryBinToPath _).
    + destruct (JS.nonempty (ShellEnv.expandWindowsEnvVars _ _)); simpl;
        by destruct (ShellEnv.appendCherryBinToPath _).
  - destruct Hok as [| (home & Hhome & Hne)]; [done |].
    destruct (probe_start_spawns tt home Hwin Hhome Hne) as (t & -> & Ht).
    simpl. by rewrite Ht.
Qed.

Lemma call_uncached who st :
  ShellEnv.cachedEnv st = None ->
  ShellEnv.call who st
  = {| ShellEnv.cachedEnv := None;
       ShellEnv.awaiting :=
         ShellEnv.awaiting st
           ++ [(who, (ShellEnv.probe_start (S := unit) tt).1.1)];
       ShellEnv.returned := ShellEnv.returned st;
       ShellEnv.happened :=
         ShellEnv.happened st ++ (ShellEnv.probe_start (S := unit) tt).2 |}.
Proof.
  intros Hc. unfold ShellEnv.call. rewrite Hc.
  by destruct (ShellEnv.probe_start tt) as [[started u] evs].
Qed.

Lemma calls_state n :
  isWin = true \/ (exists home, home_of process_env = Returns home /\ home <> "") ->
  ShellEnv.cachedEnv (ShellEnv.calls n ShellEnv.loop_init) = None
  /\ ShellEnv.awaiting (ShellEnv.calls n ShellEnv.loop_init)
     = map (fun who => (who, (ShellEnv.probe_start (S := unit) tt).1.1)) (seq 0 n)
  /\ ShellEnv.returned (ShellEnv.calls n ShellEnv.loop_init) = []
  /\ List.length
       (List.filter is_spawn
          (ShellEnv.happened (ShellEnv.calls n ShellEnv.loop_init)))
     = n * (if isWin then 2 else 1).
Proof.
  intros Hok. induction n as [|n (Hc & Ha & Hr & Hn)]; [done |].
  change (ShellEnv.calls (Datatypes.S n) ShellEnv.loop_init)
    with (ShellEnv.call n (ShellEnv.calls n ShellEnv.loop_init)).
  rewrite (call_uncached n _ Hc).
  cbn [ShellEnv.cachedEnv ShellEnv.awaiting ShellEnv.returned ShellEnv.happened].
  repeat split; [| done |].
  - rewrite Ha, seq_S, map_app. reflexivity.
  - rewrite List.filter_app, length_app, Hn, (probe_start_counts Hok). lia.
Qed.

(** A call that is resumed settles as its own probe makes it. *)
Lemma wake_own st who started evs :
  List.find (fun x => (x.1 =? who)%nat) (ShellEnv.awaiting st)
  = Some (who, started) ->
  ShellEnv.cachedEnv (ShellEnv.wake who evs st)
  = match own_result started evs with
    | Resolved e => Some e
    | _ => ShellEnv.cachedEnv st
    end
  /\ ShellEnv.returned (ShellEnv.wake who evs st)
     = ShellEnv.returned st
       ++ match own_result started evs with
          | Pending => []
          | r => [(who, r)]
          end
  /\ ShellEnv.awaiting (ShellEnv.wake who evs st)
     = match own_result started evs with
       | Pending => ShellEnv.awaiting st
       | _ => ShellEnv.remove_call who (ShellEnv.awaiting st)
       end.
Proof.
  intros Hfind. unfold ShellEnv.wake, own_result. rewrite Hfind.
  destruct started as [r | sh].
  - unfold ret. cbn iota beta.
    destruct (ShellEnv.fetch_settle r tt) as [[[| e | m] u] t2]; simpl;
      by rewrite ?app_nil_r.
  - destruct (ShellEnv.probe_finish sh evs tt) as [[r u] t1]. simpl.
    destruct (ShellEnv.fetch_settle r tt) as [[[| e | m] u'] t2]; simpl;
      by rewrite ?app_nil_r.
Qed.

Lemma wakes_own started : forall order st,
  Forall (fun x => x.2 = started) (ShellEnv.awaiting st) ->
  NoDup (map fst order) ->
  Forall (fun x => In x.1 (map fst (ShellEnv.awaiting st))
                   /\ own_result started x.2 <> Pending) order ->
  ShellEnv.returned (wakes order st)
  = ShellEnv.returned st
    ++ map (fun x => (x.1, own_result started x.2)) order
  /\ ShellEnv.cachedEnv (wakes order st)
     = last_resolved (map (fun x => own_result started x.2) order)
         (ShellEnv.cachedEnv st).
Proof.
  induction order as [|[who evs] order IH]; intros st Hst Hnd Hall;
    [by rewrite app_nil_r |].
  inversion Hall as [|? ? [Hwho Hset] Hall']; subst. simpl in Hwho, Hset.
  apply NoDup_cons in Hnd as [Hfresh Hnd].
  assert (List.find (fun x => (x.1 =? who)%nat) (ShellEnv.awaiting st)
          = Some (who, started)) as Hfind.
  { destruct (List.find _ (ShellEnv.awaiting st)) as [[w s0]|] eqn:Hf.
    - apply find_some in Hf as [Hin Hw]. simpl in Hw.
      apply Nat.eqb_eq in Hw as ->.
      pose proof (proj1 (Forall_forall _ _) Hst (who, s0)
                    (proj2 (list_elem_of_In _ _) Hin)) as Hs0.
      simpl in Hs0. by subst s0.
    - apply in_map_iff in Hwho as ([w s0] & Hw & Hin). simpl in Hw. subst w.
      pose proof (find_none _ _ Hf _ Hin) as Hno. simpl in Hno.
      by rewrite Nat.eqb_refl in Hno. }
  destruct (wake_own st who started evs Hfind) as (Hc & Hr & Ha).
  unfold wakes. cbn [fold_left fst snd]. fold (wakes order (ShellEnv.wake who evs st)).
  destruct (IH (ShellEnv.wake who evs st)) as [Hr' Hc'].
  - rewrite Ha. destruct (own_result started evs); [done | |];
      unfold ShellEnv.remove_call; apply Forall_forall; intros x Hx;
      apply list_elem_of_In, filter_In in Hx as [Hx _];
      by apply (proj1 (Forall_forall _ _) Hst), list_elem_of_In.
  - done.
  - apply Forall_forall. intros [w evs'] Hx.
    pose proof (proj1 (Forall_forall _ _) Hall' _ Hx) as [Hw Hs].
    simpl in Hw, Hs. split; [| done]. cbn [fst].
    assert (w <> who) as Hne.
    { intros ->. apply Hfresh. apply list_elem_of_In, in_map_iff.
      exists (who, evs'). split; [done | by apply list_elem_of_In]. }
    rewrite Ha. destruct (own_result started evs); [done | |];
      apply in_map_iff in Hw as ([w' s0] & Hw' & Hin); simpl in Hw'; subst w';
      apply in_map_iff; exists (w, s0); (split; [done |]);
      apply filter_In; (split; [done |]); simpl;
      by apply negb_true_iff, Nat.eqb_neq.
  - rewrite Hr', Hr, Hc', Hc. cbn [map fst snd last_resolved fold_left].
    split.
    + destruct (own_result started evs); [done | |]; by rewrite <- app_assoc.
    + fold (last_resolved (map (fun x => own_result started x.2) order)).
      by destruct (own_result started evs).
Qed.

(** C4, as amended.  [getShellEnv] does not coalesce: [n] calls made before
    any probe settles start [n] probes, one shell (or one pair of registry
    reads) each, and leave [n] calls suspended on an empty cache, none
    having returned.  Resumed in whatever order, each call settles as its
    own probe makes it: to the map the probe resolved to, or to what the
    fallback gives when the probe rejected; and the cache holds the map of
    the call that resolved last.  Only a call that finds the cache filled
    starts no probe: it returns the cached map at once. *)
Theorem getShellEnv_probes_per_call (n : nat) :
  isWin = true \/ (exists home, home_of process_env = Returns home /\ home <> "") ->
  let st := ShellEnv.calls n ShellEnv.loop_init in
  let started := (ShellEnv.probe_start (S := unit) tt).1.1 in
  ShellEnv.probes_started st = n
  /\ ShellEnv.awaiting st = map (fun who => (who, started)) (seq 0 n)
  /\ ShellEnv.cachedEnv st = None
  /\ ShellEnv.returned st = []
  /\ (forall order,
        NoDup (map fst order) ->
        Forall (fun x => x.1 < n /\ own_result started x.2 <> Pending) order ->
        ShellEnv.returned (wakes order st)
        = map (fun x => (x.1, own_result started x.2)) order
        /\ ShellEnv.cachedEnv (wakes order st)
           = last_resolved (map (fun x => own_result started x.2) order) None)
  /\ (forall st e who,
        ShellEnv.cachedEnv st = Some e ->
        ShellEnv.call who st
        = {| ShellEnv.cachedEnv := Some e;
             ShellEnv.awaiting := ShellEnv.awaiting st;
             ShellEnv.returned := ShellEnv.returned st ++ [(who, Resolved e)];
             ShellEnv.happened := ShellEnv.happened st |}).
Proof.
  intros Hok st started. destruct (calls_state n Hok) as (Hc & Ha & Hr & Hn).
  fold st started in Hc, Ha, Hr, Hn.
  split; [| split; [done | split; [done | split; [done | split]]]].
  - unfold ShellEnv.probes_started. rewrite Hn.
    destruct isWin; [by rewrite Nat.div_mul | lia].
  - intros order Hnd Hall.
    destruct (wakes_own started order st) as [Hr' Hc'].
    + rewrite Ha. apply Forall_forall. intros x Hx.
      apply list_elem_of_In, in_map_iff in Hx as (who & <- & _). done.
    + done.
    + eapply Forall_impl; [exact Hall |]. intros x [Hlt Hs]. split; [| done].
      rewrite Ha, map_map. simpl. rewrite map_id. apply in_seq. lia.
    + by rewrite Hr', Hc', Hr, Hc.
  - intros st0 e who Hst. unfold ShellEnv.call. by rewrite Hst.
Qed.

End ProbeFacts.

(** C4, as stated, fails: two calls made before any probe settles spawn two
    shells, and when one shell prints its environment while the other hangs
    the two calls resolve to different maps. *)
Lemma getShellEnv_not_coalesced :
  ShellEnv.probes_started (NP := Node.posix false)
    (ShellEnv.calls (NP := Node.posix false) (H := Examples.linux) 2
       ShellEnv.loop_init) = 2
  /\ ShellEnv.returned
       (ShellEnv.wake (NP := Node.posix false) (H := Examples.linux) 1
          [TimerFired]
          (ShellEnv.wake (NP := Node.posix false) (H := Examples.linux) 0
             [ChildStdout ("PATH=/usr/bin" +:+ Examples.nl);
              ChildClose (Some 0%Z)]
             (ShellEnv.calls (NP := Node.posix false) (H := Examples.linux) 2
                ShellEnv.loop_init)))
     = [(0, Resolved [("PATH", "/usr/bin:/home/u/.cherrystudio/bin")]);
        (1, Resolved
              [("HOME", "/home/u"); ("SHELL", "/bin/bash");
               ("PATH", "/usr/bin:/bin:/home/u/.cherrystudio/bin")])].
Proof. split; vm_compute; reflexivity. Qed.

Lemma getShellEnv_probes_per_call_witness :
  ShellEnv.probes_started (NP := Node.win32)
    (ShellEnv.calls (NP := Node.win32) (H := Examples.windows_planted) 3
       ShellEnv.loop_init) = 3
  /\ ShellEnv.returned
       (wakes (NP := Node.posix false) (H := Examples.linux)
          [(1, [TimerFired]);
           (0, [ChildStdout ("PATH=/usr/bin" +:+ Examples.nl);
                ChildClose (Some 0%Z)])]
          (ShellEnv.calls (NP := Node.posix false) (H := Examples.linux) 2
             ShellEnv.loop_init))
     = [(1, Resolved
              [("HOME", "/home/u"); ("SHELL", "/bin/bash");
               ("PATH", "/usr/bin:/bin:/home/u/.cherrystudio/bin")]);
        (0, Resolved [("PATH", "/usr/bin:/home/u/.cherrystudio/bin")])].
Proof.
  split.
  - destruct (getShellEnv_probes_per_call (NP := Node.win32)
                (H := Examples.windows_planted) 3) as [Hn _];
      [left; reflexivity | exact Hn].
  - destruct (getShellEnv_probes_per_call (NP := Node.posix false)
                (H := Examples.linux) 2) as (_ & _ & _ & _ & Hwake & _).
    { right. exists "/home/u". by split. }
    destruct (Hwake [(1, [TimerFired]);
                     (0, [ChildStdout ("PATH=/usr/bin" +:+ Examples.nl);
                          ChildClose (Some 0%Z)])]) as [Hret _].
    + by apply (bool_decide_unpack _).
    + repeat constructor; simpl; try lia; by vm_compute.
    + rewrite Hret. vm_compute. reflexivity.
Defined.

(** ** [findExecutable] *)

Section FindFacts.
Context `{NP : NodePath} `{H : Host}.










End FindFacts.


(** Run from the root of a drive, [findExecutable] returns a shim in a
    directory under the root: the root ends in the separator, and the test
    looks for the root followed by one more. *)
Remark findExecutable_at_drive_root :
  (Process.findExecutable (NP := Node.win32) (H := Examples.windows_at_root)
     "npm" None tt).1.1 = Some "C:\tools\npm.cmd"
  /\ JS.startsWith (path_dirname (NodePath := Node.win32) "C:\tools\npm.cmd")
       (process_cwd (Host := Examples.windows_at_root)) = true.
Proof. split; vm_compute; reflexivity. Qed.


(** ** The Git Bash locator *)

Section GitBashFacts.
Context `{NP : NodePath} `{H : Host}.

(** [validateGitBashPath] decides [acceptable], returns the resolved path,
    leaves the state alone, and warns about every non-empty candidate it
    rejects. *)
Lemma validateGitBashPath_spec {S} (customPath : option string) (s : S) :
  exists t,
    Process.validateGitBashPath customPath s
    = (match customPath with
       | Some p =>
           if acceptable p then Some (path_resolve process_cwd p) else None
       | None => None
       end, s, t)
    /\ (JS.truthy customPath = false -> t = [])
    /\ (forall p, customPath = Some p -> p <> "" -> acceptable p = false ->
        exists w, t = [ExistsSync (path_resolve process_cwd p); Log Warn w])
    /\ (forall p, customPath = Some p -> acceptable p = true ->
        exists d, t = [ExistsSync (path_resolve process_cwd p); Log Debug d]).
Proof.
  unfold Process.validateGitBashPath, acceptable.
  destruct customPath as [[|c p]|]; simpl.
  - eexists. split; [reflexivity |]. repeat split; intros; by simplify_eq/=.
  - unfold bind, Process.existsSync, logger, emit, ret. simpl.
    destruct (fs_existsSync _) eqn:Hex; simpl.
    + destruct (JS.endsWith _ "bash.exe") eqn:Hend; simpl.
      * eexists. split; [reflexivity |]. repeat split; [done | |].
        -- intros ? [= <-] _ Hacc. simpl in Hacc. by rewrite Hex, Hend in Hacc.
        -- intros ? [= <-] _. by eexists.
      * eexists. split; [reflexivity |]. repeat split; [done | |].
        -- intros ? [= <-] _ _. by eexists.
        -- intros ? [= <-] Hacc. simpl in Hacc. by rewrite Hex, Hend in Hacc.
    + eexists. split; [reflexivity |]. repeat split; [done | |].
      * intros ? [= <-] _ _. by eexists.
      * intros ? [= <-] Hacc. simpl in Hacc. by rewrite Hex in Hacc.
  - eexists. split; [reflexivity |]. repeat split; intros; by simplify_eq/=.
Qed.

Lemma acceptable_resolved p :
  acceptable p = true -> JS.truthy (Some (path_resolve process_cwd p)) = true.
Proof.
  unfold acceptable. rewrite !andb_true_iff. intros [[_ _] Hend].
  by destruct (path_resolve process_cwd p).
Qed.

(** C8, as amended.  [validateGitBashPath] accepts a candidate if and only
    if the candidate is not empty, its resolved path exists on disk and the
    resolved path ends with [bash.exe] up to case; it then returns the
    resolved path.  Every other candidate is treated as absent, with a
    logged warning unless the candidate is empty or missing. *)
Theorem validateGitBashPath_accepts (S : Type) (customPath : option string)
    (s : S) :
  (forall resolved,
     (Process.validateGitBashPath customPath s).1.1 = Some resolved
     <-> exists p,
           customPath = Some p /\ p <> ""
           /\ resolved = path_resolve process_cwd p
           /\ fs_existsSync resolved = true
           /\ JS.endsWith (JS.toLowerCase resolved) "bash.exe" = true)
  /\ (forall p,
        customPath = Some p -> p <> "" ->
        (Process.validateGitBashPath customPath s).1.1 = None ->
        exists w,
          (Process.validateGitBashPath customPath s).2
          = [ExistsSync (path_resolve process_cwd p); Log Warn w])
  /\ (JS.truthy customPath = false ->
      Process.validateGitBashPath customPath s = (None, s, []))
  /\ (Process.validateGitBashPath customPath s).1.2 = s.
Proof.
  destruct (validateGitBashPath_spec customPath s)
    as (t & Heq & Hempty & Hwarn & _).
  rewrite Heq. simpl. repeat split.
  - destruct customPath as [p|]; [| discriminate].
    destruct (acceptable p) eqn:Hacc; [| discriminate].
    intros [= <-]. exists p. unfold acceptable in Hacc.
    rewrite !andb_true_iff in Hacc. destruct Hacc as [[Hne Hex] Hend].
    repeat split; try done. by destruct p.
  - intros (p & -> & Hne & -> & Hex & Hend).
    assert (acceptable p = true) as ->; [| done].
    unfold acceptable. rewrite Hex, Hend. by destruct p.
  - intros p -> Hne Hnone. apply (Hwarn p eq_refl Hne).
    by destruct (acceptable p).
  - intros Hfalsy. rewrite (Hempty Hfalsy).
    destruct customPath as [[|c p]|]; done.
Qed.

(** C7, as amended.  In [autoDiscoverGitBash] an override that validates
    wins over everything, the configured path too, and the configuration
    is left as it is.  In [findGitBash] the order is the other way round:
    a custom path that validates is returned before the override is looked
    at, and the override decides only when the custom path is missing or
    does not validate. *)
Theorem git_bash_override_precedence (override : string) :
  isWin = true ->
  Process.CLAUDE_CODE_GIT_BASH_PATH = Some override ->
  acceptable override = true ->
  (forall cfg, exists t,
     Process.autoDiscoverGitBash cfg
     = (Some (path_resolve process_cwd override), cfg, t))
  /\ (forall (S : Type) (s : S) customPath,
        acceptable customPath = true -> exists t,
          Process.findGitBash (Some customPath) s
          = (Some (path_resolve process_cwd customPath), s, t))
  /\ (forall (S : Type) (s : S) customPath,
        match customPath with
        | Some c => acceptable c = false
        | None => True
        end -> exists t,
          Process.findGitBash customPath s
          = (Some (path_resolve process_cwd override), s, t)).
Proof.
  intros Hwin Henv Hacc.
  assert (JS.truthy (Some override) = true) as Htruthy.
  { unfold acceptable in Hacc. by destruct override. }
  assert (forall (S : Type) (s : S), exists t,
            Process.validateGitBashPath (Some override) s
            = (Some (path_resolve process_cwd override), s, t)) as Hval.
  { intros S s. destruct (validateGitBashPath_spec (Some override) s)
      as (t & Heq & _). rewrite Hacc in Heq. by exists t. }
  split; [| split].
  - intros cfg. unfold Process.autoDiscoverGitBash.
    rewrite Hwin, Henv, Htruthy. cbn [negb]. unfold bind.
    destruct (Hval _ cfg) as [t ->].
    rewrite (acceptable_resolved override Hacc).
    unfold logger, emit, ret. simpl. by eexists.
  - intros S s customPath Hc. unfold Process.findGitBash.
    rewrite Hwin. cbn [negb].
    assert (JS.truthy (Some customPath) = true) as ->.
    { unfold acceptable in Hc. by destruct customPath. }
    unfold bind.
    destruct (validateGitBashPath_spec (Some customPath) s) as (t & -> & _).
    rewrite Hc, (acceptable_resolved customPath Hc).
    unfold logger, emit, ret. simpl. by eexists.
  - intros S s customPath Hc. unfold Process.findGitBash.
    rewrite Hwin, Henv, Htruthy. cbn [negb]. unfold bind.
    destruct (JS.truthy customPath) eqn:Hcust.
    + destruct customPath as [c|]; [| done].
      destruct (validateGitBashPath_spec (Some c) s) as (t & -> & _).
      rewrite Hc. unfold logger, emit, ret. cbn [JS.truthy].
      destruct (Hval S s) as [t' ->].
      rewrite (acceptable_resolved override Hacc). simpl. by eexists.
    + unfold ret at 1. destruct (Hval S s) as [t' ->].
      rewrite (acceptable_resolved override Hacc).
      unfold logger, emit, ret. simpl. by eexists.
Qed.

(** C9. On Windows [getGitBashPathInfo] returns a non-empty configured path
    and the recorded source as they are stored: nothing is logged, no file
    is looked at and the configuration is unchanged, whatever the files on
    disk.  Auto-discovery runs exactly when the configured path is empty or
    missing, and its result is then returned with the source [auto]. *)
Theorem getGitBashPathInfo_trusts_config (cfg : Process.config) :
  isWin = true ->
  (forall p,
     Process.GitBashPath cfg = Some p -> p <> "" ->
     Process.getGitBashPathInfo cfg
     = ({| Process.path := Some p;
           Process.source := Process.GitBashPathSource_ cfg |}, cfg, []))
  /\ (JS.truthy (Process.GitBashPath cfg) = false ->
      Process.getGitBashPathInfo cfg
      = let '(discovered, cfg', t) := Process.autoDiscoverGitBash cfg in
        ({| Process.path := discovered;
            Process.source :=
              if JS.truthy discovered then Some Process.SourceAuto else None |},
         cfg', t)).
Proof.
  intros Hwin. unfold Process.getGitBashPathInfo. rewrite Hwin. cbn [negb].
  unfold bind, read. split.
  - intros p Hp Hne. rewrite Hp. by destruct p.
  - intros ->. cbn [negb].
    destruct (Process.autoDiscoverGitBash cfg) as [[d cfg'] t].
    unfold ret. by rewrite app_nil_r.
Qed.

End GitBashFacts.

Lemma validateGitBashPath_accepts_witness :
  (Process.validateGitBashPath (NP := Node.win32) (H := Examples.windows_git_bash)
     (Some "C:\missing\bash.exe") tt).1.1 = None
  /\ (Process.validateGitBashPath (NP := Node.win32)
        (H := Examples.windows_git_bash) (Some "..\configured\bash.exe") tt).1.1
     = Some "C:\configured\bash.exe".
Proof.
  destruct (validateGitBashPath_accepts (NP := Node.win32)
              (H := Examples.windows_git_bash) unit
              (Some "..\configured\bash.exe") tt) as [Hiff _].
  split; [reflexivity |].
  apply Hiff. exists "..\configured\bash.exe". by repeat split.
Defined.

(** C8, as stated, fails: an existing file whose name only ends in
    [bash.exe] is accepted, and an empty candidate is rejected without a
    warning. *)
Lemma validateGitBashPath_accepts_other_name :
  Process.validateGitBashPath (NP := Node.win32) (H := Examples.windows_git_bash)
    (Some "C:\tools\zbash.exe") tt
  = (Some "C:\tools\zbash.exe", tt,
     [ExistsSync "C:\tools\zbash.exe"; Log Debug "Validated custom Git Bash path"])
  /\ file_name "C:\tools\zbash.exe" = "zbash.exe"
  /\ JS.toLowerCase (file_name "C:\tools\zbash.exe") <> "bash.exe"
  /\ Process.validateGitBashPath (NP := Node.win32)
       (H := Examples.windows_git_bash) (Some "") tt
     = (None, tt, []).
Proof. repeat split; try discriminate; vm_compute; reflexivity. Qed.

Lemma git_bash_override_precedence_witness :
  exists t,
    Process.autoDiscoverGitBash (NP := Node.win32) (H := Examples.windows_git_bash)
      {| Process.GitBashPath := Some "C:\configured\bash.exe";
         Process.GitBashPathSource_ := Some Process.SourceManual |}
    = (Some "D:\override\bash.exe",
       {| Process.GitBashPath := Some "C:\configured\bash.exe";
          Process.GitBashPathSource_ := Some Process.SourceManual |}, t).
Proof.
  destruct (git_bash_override_precedence (NP := Node.win32)
              (H := Examples.windows_git_bash) "D:\override\bash.exe"
              eq_refl eq_refl eq_refl) as [Hauto _].
  destruct (Hauto {| Process.GitBashPath := Some "C:\configured\bash.exe";
                     Process.GitBashPathSource_ := Some Process.SourceManual |})
    as [t Ht].
  exists t. exact Ht.
Defined.

(** C7, as stated, fails for [findGitBash]: with the override set and both
    paths valid it returns the configured path it was given; and
    [getGitBashPathInfo] returns the configured path without looking at the
    override. *)
Lemma findGitBash_config_before_override :
  Process.CLAUDE_CODE_GIT_BASH_PATH (H := Examples.windows_git_bash)
  = Some "D:\override\bash.exe"
  /\ acceptable (NP := Node.win32) (H := Examples.windows_git_bash)
       "D:\override\bash.exe" = true
  /\ acceptable (NP := Node.win32) (H := Examples.windows_git_bash)
       "C:\configured\bash.exe" = true
  /\ (Process.findGitBash (NP := Node.win32) (H := Examples.windows_git_bash)
        (Some "C:\configured\bash.exe") tt).1.1
     = Some "C:\configured\bash.exe"
  /\ (Process.getGitBashPathInfo (NP := Node.win32)
        (H := Examples.windows_git_bash)
        {| Process.GitBashPath := Some "C:\configured\bash.exe";
           Process.GitBashPathSource_ := Some Process.SourceManual |}).1.1
     = {| Process.path := Some "C:\configured\bash.exe";
          Process.source := Some Process.SourceManual |}.
Proof. repeat split; vm_compute; reflexivity. Qed.

Lemma getGitBashPathInfo_trusts_config_witness :
  fs_existsSync (Host := Examples.windows_git_bash) "C:\gone\notbash.txt" = false
  /\ Process.getGitBashPathInfo (NP := Node.win32) (H := Examples.windows_git_bash)
       {| Process.GitBashPath := Some "C:\gone\notbash.txt";
          Process.GitBashPathSource_ := Some Process.SourceManual |}
     = ({| Process.path := Some "C:\gone\notbash.txt";
           Process.source := Some Process.SourceManual |},
        {| Process.GitBashPath := Some "C:\gone\notbash.txt";
           Process.GitBashPathSource_ := Some Process.SourceManual |}, []).
Proof.
  split; [reflexivity |].
  destruct (getGitBashPathInfo_trusts_config (NP := Node.win32)
              (H := Examples.windows_git_bash)
              {| Process.GitBashPath := Some "C:\gone\notbash.txt";
                 Process.GitBashPathSource_ := Some Process.SourceManual |}
              eq_refl) as [Hkeep _].
  apply (Hkeep "C:\gone\notbash.txt" eq_refl). discriminate.
Defined.

(** * Further properties of the two modules *)

(** ** What [appendCherryBinToPath] leaves alone *)

Section AppendFrame.
Context `{NP : NodePath} `{H : Host}.

Lemma home_of_throws e message :
  home_of e = Throws message
  <-> home_variable e = None /\ os_homedir = Throws message.
Proof.
  unfold home_of. destruct (home_variable e); [| tauto].
  split; [done | by intros [? _]].
Qed.

(** X1. [appendCherryBinToPath] throws in one case only, with the
    exception of [os.homedir()]: no variable of the map names the home
    directory and [os.homedir()] throws.  Otherwise it returns, having
    touched the PATH-like keys only: every other variable keeps its value,
    no key is lost, a key that is new is PATH-like, and afterwards there is
    a PATH-like key and all of them hold one and the same value, the
    updated PATH; off Windows [PATH] is one of them. *)
Theorem appendCherryBinToPath_frame (e : env) :
  match ShellEnv.appendCherryBinToPath e with
  | Throws message => home_variable e = None /\ os_homedir = Throws message
  | Returns e' =>
      exists home,
        ShellEnv.homeDirFromEnv e = Returns home
        /\ (forall k, JS.toLowerCase k <> "path" -> Env.get e' k = Env.get e k)
        /\ (forall k, In k (Env.keys e) -> In k (Env.keys e'))
        /\ (forall k, In k (Env.keys e') ->
              In k (Env.keys e) \/ JS.toLowerCase k = "path")
        /\ (forall k, In k (Env.keys e') -> JS.toLowerCase k = "path" ->
              Env.get e' k = Some (ShellEnv.updatedPath home e))
        /\ (exists k, In k (Env.keys e') /\ JS.toLowerCase k = "path")
        /\ (isWin = false ->
            Env.get e' "PATH" = Some (ShellEnv.updatedPath home e))
  end.
Proof.
  unfold ShellEnv.appendCherryBinToPath.
  destruct (ShellEnv.homeDirFromEnv e) as [home | message] eqn:Hhome.
  - exists home. split; [reflexivity |]. apply assignPath_frame.
  - rewrite homeDirFromEnv_home_of in Hhome. by apply home_of_throws.
Qed.

(** X2. The kept segments come in the order of the input, the tool
    directory last: they form a subsequence of the trimmed segments of the
    existing PATH followed by the tool directory.  No directory is lost
    either: every non-empty input segment, and the tool directory when it
    is not empty, has a kept segment with the same normal form. *)
Theorem uniqueSegments_order (home : string) (e : env) :
  ShellEnv.uniqueSegments home e
    `sublist_of` (ShellEnv.existingSegments e ++ [ShellEnv.cherryBinPath home])
  /\ (forall x,
        In x (ShellEnv.existingSegments e ++ [ShellEnv.cherryBinPath home]) ->
        x <> "" ->
        exists u, In u (ShellEnv.uniqueSegments home e)
                  /\ ShellEnv.normaliseSegment u = ShellEnv.normaliseSegment x)
  /\ Forall (fun u => u <> "") (ShellEnv.uniqueSegments home e).
Proof.
  rewrite uniqueSegments_first_occurrences, existingSegments_path_segments.
  change (ShellEnv.cherryBinPath home) with (tool_directory home).
  unfold first_occurrences.
  split; [apply dedup_from_sublist | split].
  - intros x Hx Hne.
    by destruct (dedup_from_covers normal_form [] _ x Hx Hne)
      as [(y & [] & _) | Hu].
  - apply Forall_forall. intros u Hu.
    apply list_elem_of_In, dedup_from_elem in Hu. tauto.
Qed.

(** X3. When the tool directory can stand as one PATH segment, the updated
    PATH splits back into exactly the kept segments: it has no empty
    segment (which a POSIX lookup would read as the current directory) and
    no segment with white space around it. *)
Theorem updatedPath_segments (home : string) (e : env) :
  plain_segment ShellEnv.pathSeparator (ShellEnv.cherryBinPath home) ->
  ShellEnv.uniqueSegments home e <> [] ->
  JS.split ShellEnv.pathSeparator (ShellEnv.updatedPath home e)
  = ShellEnv.uniqueSegments home e
  /\ Forall (fun u => u <> "" /\ JS.trim u = u)
       (JS.split ShellEnv.pathSeparator (ShellEnv.updatedPath home e)).
Proof.
  intros Hcb Hne. pose proof (uniqueSegments_plain home e Hcb) as Hplain.
  assert (JS.split ShellEnv.pathSeparator (ShellEnv.updatedPath home e)
          = ShellEnv.uniqueSegments home e) as Hsplit.
  { unfold ShellEnv.updatedPath. apply split_join; [done |].
    eapply Forall_impl; [exact Hplain |]. by intros x [_ Hx]. }
  split; [exact Hsplit |]. rewrite Hsplit.
  apply Forall_forall. intros u Hu. split.
  - apply list_elem_of_In, uniqueSegments_elem in Hu. tauto.
  - by destruct (proj1 (Forall_forall _ _) Hplain u Hu).
Qed.

End AppendFrame.

Lemma updatedPath_segments_witness :
  JS.split ":"
    (ShellEnv.updatedPath (NP := Node.posix false) "/home/u"
       [("HOME", "/home/u"); ("PATH", "/usr/bin: :/bin::/usr/bin")])
  = ["/usr/bin"; "/bin"; "/home/u/.cherrystudio/bin"].
Proof.
  destruct (updatedPath_segments (NP := Node.posix false) "/home/u"
              [("HOME", "/home/u"); ("PATH", "/usr/bin: :/bin::/usr/bin")])
    as [Hsplit _]; [by split | by vm_compute |].
  etransitivity; [exact Hsplit | reflexivity].
Defined.

(** ** How the cache settles *)

Section CacheFacts.
Context `{NP : NodePath} `{H : Host}.

Lemma getWindowsEnvironment_state {S} (s : S) :
  (ShellEnv.getWindowsEnvironment s).1.2 = s.
Proof.
  unfold ShellEnv.getWindowsEnvironment, ShellEnv.readWindowsRegistryPath,
    ShellEnv.queryRegValue.
  unfold logger, bind, emit, ret. simpl.
  destruct (negb _ && negb _); simpl; [reflexivity |].
  destruct (JS.nonempty (ShellEnv.expandWindowsEnvVars _ _)); reflexivity.
Qed.

Lemma probe_start_state {S} (s : S) : (ShellEnv.probe_start s).1.2 = s.
Proof.
  unfold ShellEnv.probe_start. destruct isWin.
  - unfold bind, ret. pose proof (getWindowsEnvironment_state s) as Hs.
    by destruct (ShellEnv.getWindowsEnvironment s) as [[[e | m] s'] t].
  - destruct ShellEnv.homeDirectory as [home | m]; [| reflexivity].
    destruct (negb _); [reflexivity |].
    destruct (JS.truthy _); [| destruct isMac];
      unfold logger, bind, emit, ret; simpl; by destruct (spawn _ _ None).
Qed.

(** A probe that waits for a shell has spawned the login shell in a home
    directory that is not empty. *)
Lemma probe_start_shell {S} (s : S) sh :
  (ShellEnv.probe_start s).1.1 = inr sh ->
  isWin = false
  /\ exists home evs,
       home_of process_env = Returns home /\ home <> ""
       /\ sh = (login_shell isMac, home)
       /\ login_child = Returns evs.
Proof.
  unfold ShellEnv.probe_start. destruct isWin eqn:Hwin.
  - unfold bind, ret.
    by destruct (ShellEnv.getWindowsEnvironment s) as [[[e | m] s'] t].
  - rewrite homeDirectory_home_of.
    destruct (home_of process_env) as [[|c home] | m] eqn:Hhome; [done | | done].
    intros Hsh. split; [done |].
    destruct (probe_start_spawns s (String c home) Hwin Hhome) as (t & Hrun & _);
      [done |].
    unfold ShellEnv.probe_start in Hrun.
    rewrite Hwin, homeDirectory_home_of, Hhome in Hrun.
    rewrite Hrun in Hsh. simpl in Hsh.
    destruct login_child as [evs | m] eqn:Hchild; [| done].
    injection Hsh as <-. by exists (String c home), evs.
Qed.

Lemma probe_finish_state {S} sh evs (s : S) :
  (ShellEnv.probe_finish sh evs s).1.2 = s.
Proof.
  unfold ShellEnv.probe_finish, bind, ret.
  pose proof (run_child_state sh.1 sh.2 evs
                {| ShellEnv.output := ""; ShellEnv.errorOutput := "";
                   ShellEnv.settled := Pending |} s) as Hs.
  by destruct (ShellEnv.run_child _ _ _ evs s) as [[p s'] t].
Qed.

Lemma getLoginShellEnvironment_state {S} (s : S) :
  (ShellEnv.getLoginShellEnvironment s).1.2 = s.
Proof.
  unfold ShellEnv.getLoginShellEnvironment, bind.
  pose proof (probe_start_state s) as Hs.
  destruct (ShellEnv.probe_start s) as [[[r | sh] s'] t]; simpl in Hs; subst s'.
  - reflexivity.
  - pose proof (probe_finish_state sh
                  (ShellEnv.child_events (spawn sh.1 ["-ilc"; "env"] None)) s)
      as Hs.
    by destruct (ShellEnv.probe_finish sh _ s) as [[r s'] t'].
Qed.

(** The home directory of a map cannot be determined when the map names
    none and [os.homedir()] throws. *)
Lemma fallbackEnv_throws message :
  ShellEnv.fallbackEnv = Throws message
  <-> home_variable (Env.copy process_env) = None
      /\ os_homedir = Throws message.
Proof.
  unfold ShellEnv.fallbackEnv. rewrite appendCherryBinToPath_run.
  rewrite <- home_of_throws.
  destruct (home_of (Env.copy process_env)); [done |].
  split; by intros [= ->].
Qed.

(** [fetchShellEnv] leaves the module state alone and rejects only with
    the exception of its fallback. *)
Lemma fetchShellEnv_settles {S} (s : S) :
  (ShellEnv.fetchShellEnv s).1.2 = s
  /\ forall message,
       (ShellEnv.fetchShellEnv s).1.1 = Rejected message ->
       ShellEnv.fallbackEnv = Throws message.
Proof.
  unfold ShellEnv.fetchShellEnv, bind.
  pose proof (getLoginShellEnvironment_state s) as Hs.
  destruct (ShellEnv.getLoginShellEnvironment s) as [[r s'] t].
  simpl in Hs. subst s'.
  destruct r; unfold ShellEnv.fetch_settle, logger, bind, emit, ret; simpl;
    [by split | by split |].
  destruct ShellEnv.fallbackEnv; simpl; split; [done | done | done |].
  by intros ? [= ->].
Qed.

(** X4. [getShellEnv] and [refreshShellEnv] reject in one case only: no
    variable of the copy of [process.env] names the home directory and
    [os.homedir()] throws; the promise is then rejected with that
    exception and the cache is as it was.  Otherwise the promise is
    pending (the child has not terminated and the cache is as it was) or
    resolved to a map, which is then the cached map; and [getShellEnv]
    called on that cache returns the same map without running anything. *)
Theorem shell_env_outcome (cachedEnv : option env) :
  let outcome (run : M (option env) (promise env)) :=
    match (run cachedEnv).1.1 with
    | Rejected message =>
        home_variable (Env.copy process_env) = None
        /\ os_homedir = Throws message
        /\ (run cachedEnv).1.2 = cachedEnv
    | Pending => (run cachedEnv).1.2 = cachedEnv
    | Resolved e =>
        (run cachedEnv).1.2 = Some e
        /\ ShellEnv.getShellEnv (Some e) = (Resolved e, Some e, [])
    end in
  outcome ShellEnv.getShellEnv /\ outcome ShellEnv.refreshShellEnv.
Proof.
  assert (forall c, match (ShellEnv.refreshShellEnv c).1.1 with
                    | Rejected message =>
                        home_variable (Env.copy process_env) = None
                        /\ os_homedir = Throws message
                        /\ (ShellEnv.refreshShellEnv c).1.2 = c
                    | Pending => (ShellEnv.refreshShellEnv c).1.2 = c
                    | Resolved e =>
                        (ShellEnv.refreshShellEnv c).1.2 = Some e
                        /\ ShellEnv.getShellEnv (Some e) = (Resolved e, Some e, [])
                    end) as Hrefresh.
  { intros c. unfold ShellEnv.refreshShellEnv, bind.
    destruct (fetchShellEnv_settles c) as [Hs Hrej].
    destruct (ShellEnv.fetchShellEnv c) as [[r s'] t]. simpl in Hs, Hrej.
    subst s'. destruct r as [| e | m]; simpl; [done | done |].
    destruct (proj1 (fallbackEnv_throws m) (Hrej m eq_refl)). done. }
  split; [| apply Hrefresh].
  destruct cachedEnv as [e |]; [by simpl |].
  assert ((ShellEnv.getShellEnv None).1 = (ShellEnv.refreshShellEnv None).1)
    as Hsame.
  { unfold ShellEnv.getShellEnv, ShellEnv.refreshShellEnv, bind, read. simpl.
    destruct (ShellEnv.fetchShellEnv None) as [[[| e | m] s'] t]; reflexivity. }
  simpl. rewrite Hsame. exact (Hrefresh None).
Qed.

(** When the system knows a home directory, [appendCherryBinToPath]
    returns. *)
Lemma appendCherryBinToPath_returns home e :
  os_homedir = Returns home ->
  exists e', ShellEnv.appendCherryBinToPath e = Returns e'.
Proof.
  intros Hhome. rewrite appendCherryBinToPath_run. unfold home_of.
  rewrite Hhome. destruct (home_variable e); by eexists.
Qed.

(** A child that terminates, or a timer that fires, settles the probe. *)
Lemma run_child_terminates {S} home sh dir evs : forall p (s : S),
  os_homedir = Returns home ->
  Exists (fun ev => is_output ev = false) evs ->
  ShellEnv.is_settled (ShellEnv.run_child sh dir p evs s).1.1 = true.
Proof.
  induction evs as [|ev evs IH]; intros p s Hhome Hex; [by inversion Hex |].
  simpl. unfold bind.
  pose proof (on_child_event_state sh dir p ev s) as Hs.
  destruct (ShellEnv.is_settled p) eqn:Hp.
  - pose proof (run_child_settled sh dir (ev :: evs) p s Hp) as Hstay.
    simpl in Hstay. unfold bind in Hstay.
    destruct (ShellEnv.on_child_event sh dir p ev s) as [[p' s'] t'].
    destruct (ShellEnv.run_child sh dir p' evs s') as [[p'' s''] t''].
    simpl in *. unfold ShellEnv.is_settled in *. by rewrite Hstay.
  - destruct (is_output ev) eqn:Hev.
    + inversion Hex as [? ? Hnow | ? ? Hlater]; subst; [congruence |].
      destruct (ShellEnv.on_child_event sh dir p ev s) as [[p' s'] t'].
      simpl in Hs. subst s'. specialize (IH p' s Hhome Hlater).
      by destruct (ShellEnv.run_child sh dir p' evs s) as [[p'' s''] t''].
    + assert (ShellEnv.is_settled
                (ShellEnv.on_child_event sh dir p ev s).1.1 = true) as Hnow.
      { destruct ev; try discriminate;
          unfold ShellEnv.on_child_event; rewrite Hp;
          unfold logger, bind, emit, ret; simpl; [done | | done].
        destruct (negb _); simpl; [done |].
        destruct (appendCherryBinToPath_returns home
                    (ShellEnv.parse_env (ShellEnv.output p)) Hhome) as [e' ->].
        destruct (JS.nonempty _); simpl; by destruct (_ && _). }
      destruct (ShellEnv.on_child_event sh dir p ev s) as [[p' s'] t'].
      simpl in Hs, Hnow. subst s'.
      pose proof (run_child_settled sh dir evs p' s Hnow) as Hstay.
      destruct (ShellEnv.run_child sh dir p' evs s) as [[p'' s''] t''].
      simpl in *. unfold ShellEnv.is_settled in *. by rewrite Hstay.
Qed.

(** X5. When the system knows a home directory, the cache does not fail
    and the probe cannot hang past its child: on Windows, without a home
    directory, when the [spawn] throws, or when the spawned shell reports
    an error or a close or the timer fires, [getShellEnv] on an empty cache
    and [refreshShellEnv] resolve to a map and cache it. *)
Theorem shell_env_resolves (home : string) :
  os_homedir = Returns home ->
  isWin = true \/ home_of process_env = Returns ""
  \/ match login_child with
     | Throws _ => True
     | Returns evs => Exists (fun ev => is_output ev = false) evs
     end ->
  (exists e t, ShellEnv.getShellEnv None = (Resolved e, Some e, t))
  /\ (forall cachedEnv, exists e t,
        ShellEnv.refreshShellEnv cachedEnv = (Resolved e, Some e, t)).
Proof.
  intros Hhome Hok.
  assert (forall c : option env,
            exists e t, ShellEnv.fetchShellEnv c = (Resolved e, c, t)) as Hfetch.
  { intros c. destruct (fetchShellEnv_settles c) as [Hs Hrej].
    assert ((ShellEnv.getLoginShellEnvironment c).1.1 <> Pending) as Hnp.
    { unfold ShellEnv.getLoginShellEnvironment, bind.
      pose proof (probe_start_state c) as Hst.
      pose proof (probe_start_shell c) as Hsh.
      destruct (ShellEnv.probe_start c) as [[[r | sh] s'] t] eqn:Hstart;
        simpl in Hst; subst s'.
      - unfold ret. simpl. unfold ShellEnv.probe_start in Hstart.
        destruct isWin.
        + unfold bind, ret in Hstart.
          destruct (ShellEnv.getWindowsEnvironment c) as [[[e | m] s'] t'];
            inversion Hstart; subst; discriminate.
        + destruct ShellEnv.homeDirectory as [h | m];
            [| inversion Hstart; subst; discriminate].
          destruct (negb _); [inversion Hstart; subst; discriminate |].
          revert Hstart.
          destruct (JS.truthy _); [| destruct isMac];
            unfold logger, bind, emit, ret; simpl;
            destruct (spawn _ _ None); simpl; intros [= <- _]; discriminate.
      - destruct (Hsh sh eq_refl) as (Hwin & h & evs & Hh & Hne & -> & Hchild).
        destruct Hok as [Hw | [Hno | Hex]];
          [congruence | congruence |].
        rewrite Hchild in Hex. cbn [fst].
        unfold login_child in Hchild. rewrite Hchild.
        cbn [ShellEnv.child_events].
        unfold ShellEnv.probe_finish, bind, ret.
        pose proof (run_child_terminates home (login_shell isMac) h evs
                      {| ShellEnv.output := ""; ShellEnv.errorOutput := "";
                         ShellEnv.settled := Pending |} c Hhome Hex) as Hset.
        cbn [fst snd].
        destruct (ShellEnv.run_child _ _ _ _ c) as [[p s'] t'].
        simpl in *. unfold ShellEnv.is_settled in Hset.
        by destruct (ShellEnv.settled p). }
    assert (forall m, ShellEnv.fallbackEnv <> Throws m) as Hfb.
    { intros m Hm. apply fallbackEnv_throws in Hm as [_ Hm]. congruence. }
    unfold ShellEnv.fetchShellEnv, bind in *.
    destruct (ShellEnv.getLoginShellEnvironment c) as [[r s'] t].
    destruct r as [| e | m]; [done | |];
      unfold ShellEnv.fetch_settle, logger, bind, emit, ret in *.
    + simpl in *. subst s'. by eexists _, _.
    + destruct ShellEnv.fallbackEnv as [e | m']; [| by destruct (Hfb m')].
      simpl in *. subst s'. by eexists _, _. }
  split.
  - unfold ShellEnv.getShellEnv, bind, read. simpl.
    destruct (Hfetch None) as (e & t & ->). unfold write, ret. simpl.
    by eexists _, _.
  - intros c. unfold ShellEnv.refreshShellEnv, bind.
    destruct (Hfetch c) as (e & t & ->). unfold write, ret. simpl.
    by eexists _, _.
Qed.

(** X23. When the environment probe fails (the [spawn] throws, the shell
    reports an error, exits with a code other than 0 or runs into the
    timeout, there is no home directory, or both registry reads fail) and
    the home directory is known, [getShellEnv] on an empty cache and
    [refreshShellEnv] on any cache resolve to the fallback map and cache
    it.  The fallback map holds the variables of [process.env] as they
    are, but for the PATH-like ones; it has a PATH-like key, off Windows
    [PATH], and each of them holds the first occurrences, by normal form,
    of the trimmed segments of the PATH of [process.env] followed by
    [<home>/.cherrystudio/bin]. *)
Theorem shell_env_falls_back (home : string) :
  NoDup (Env.keys process_env) ->
  probe_fails ->
  home_of process_env = Returns home ->
  let updated :=
    JS.join list_separator
      (first_occurrences normal_form
         (path_segments process_env
            ++ [path_join [home; ".cherrystudio"; "bin"]])) in
  exists fallback,
    (exists t,
       ShellEnv.getShellEnv None = (Resolved fallback, Some fallback, t))
    /\ (forall cachedEnv, exists t,
          ShellEnv.refreshShellEnv cachedEnv
          = (Resolved fallback, Some fallback, t))
    /\ (forall k, JS.toLowerCase k <> "path" -> k <> "__proto__" ->
          Env.get fallback k = Env.get process_env k)
    /\ (forall k, In k (Env.keys process_env) -> k <> "__proto__" ->
          In k (Env.keys fallback))
    /\ (forall k, In k (Env.keys fallback) ->
          In k (Env.keys process_env) \/ JS.toLowerCase k = "path")
    /\ (forall k, In k (Env.keys fallback) -> JS.toLowerCase k = "path" ->
          Env.get fallback k = Some updated)
    /\ (exists k, In k (Env.keys fallback) /\ JS.toLowerCase k = "path")
    /\ (isWin = false -> Env.get fallback "PATH" = Some updated).
Proof.
  intros Hnd Hfail Hhome updated.
  destruct (copy_home_path process_env Hnd) as [Hch Hcp].
  set (fallback := ShellEnv.assignPath (Env.copy process_env) updated).
  assert (fallback_result = Resolved fallback) as Hfb.
  { unfold fallback_result, ShellEnv.fallbackEnv.
    rewrite appendCherryBinToPath_run, Hch, Hhome.
    unfold path_with_cherry_bin, path_segments in *. by rewrite Hcp. }
  exists fallback.
  destruct (assignPath_frame (Env.copy process_env) updated)
    as (Hother & Hkeep & Hnew & Hpath & Hsome & Hposix).
  fold fallback in Hother, Hkeep, Hnew, Hpath, Hsome, Hposix.
  split; [| split; [| split; [| split; [| split; [| split; [| split]]]]]];
    try done.
  - unfold ShellEnv.getShellEnv, bind, read. simpl.
    destruct (fetchShellEnv_fallback (None : option env) Hfail) as [t ->].
    rewrite Hfb. unfold write, ret. simpl. by eexists.
  - intros cachedEnv. unfold ShellEnv.refreshShellEnv, bind.
    destruct (fetchShellEnv_fallback cachedEnv Hfail) as [t ->].
    rewrite Hfb. unfold write, ret. simpl. by eexists.
  - intros k Hk Hproto. rewrite (Hother k Hk), (copy_own _ Hnd).
    by apply get_filter_ordinary.
  - intros k Hk Hproto. apply Hkeep. rewrite (copy_own _ Hnd).
    by apply keys_filter_ordinary.
  - intros k Hk. destruct (Hnew k Hk) as [Hin | Hp]; [left | by right].
    rewrite (copy_own _ Hnd) in Hin. apply keys_filter_ordinary in Hin. tauto.
Qed.

End CacheFacts.

Lemma shell_env_resolves_witness :
  exists t,
    ShellEnv.refreshShellEnv (NP := Node.posix false) (H := Examples.linux)
      (Some [("OLD", "1")])
    = (Resolved [("PATH", "/usr/bin:/home/u/.cherrystudio/bin"); ("FOO", "bar")],
       Some [("PATH", "/usr/bin:/home/u/.cherrystudio/bin"); ("FOO", "bar")], t).
Proof.
  destruct (shell_env_resolves (NP := Node.posix false) (H := Examples.linux)
              "/home/u" eq_refl)
    as [_ Hrefresh].
  - right. right. apply Exists_cons_tl, Exists_cons_hd. reflexivity.
  - destruct (Hrefresh (Some [("OLD", "1")])) as (e & t & Heq).
    exists t. rewrite Heq. vm_compute in Heq. by injection Heq as <- _.
Defined.

Lemma shell_env_falls_back_witness :
  exists fallback t,
    ShellEnv.getShellEnv (NP := Node.posix false) (H := Examples.linux_hanging)
      None
    = (Resolved fallback, Some fallback, t)
    /\ Env.get fallback "PATH" = Some "/usr/bin:/bin:/home/u/.cherrystudio/bin"
    /\ Env.get fallback "SHELL" = Some "/bin/bash".
Proof.
  destruct (shell_env_falls_back (NP := Node.posix false)
              (H := Examples.linux_hanging) "/home/u")
    as (fallback & [t Hget] & _ & Hother & _ & _ & _ & _ & Hposix).
  - by apply (bool_decide_unpack _).
  - by apply (timed_out [] []).
  - reflexivity.
  - exists fallback, t. split; [exact Hget |].
    split; [by apply Hposix | by apply Hother].
Defined.

(** ** The login shell's output *)

Section ParseFacts.

Lemma append_nil_r (a : string) : a +:+ "" = a.
Proof. induction a as [|x a IH]; simpl; [reflexivity | by rewrite IH]. Qed.

Lemma append_length (a b : string) :
  String.length (a +:+ b) = String.length a + String.length b.
Proof. induction a as [|x a IH]; simpl; [reflexivity | by rewrite IH]. Qed.













End ParseFacts.


Section LoginFacts.
Context `{NP : NodePath} `{H : Host}.

(** Output events only accumulate: the standard output is appended chunk
    by chunk, nothing is logged and nothing settles. *)
Lemma run_child_collects {S} sh home pre : forall rest p (s : S),
  forallb is_output pre = true ->
  exists err,
    ShellEnv.run_child sh home p (pre ++ rest) s
    = ShellEnv.run_child sh home
        {| ShellEnv.output := ShellEnv.output p +:+ stdout_of pre;
           ShellEnv.errorOutput := err;
           ShellEnv.settled := ShellEnv.settled p |} rest s.
Proof.
  induction pre as [|ev pre IH]; intros rest p s Hpre.
  - exists (ShellEnv.errorOutput p). simpl. rewrite append_nil_r. by destruct p.
  - simpl in Hpre. apply andb_true_iff in Hpre as [Hev Hpre].
    destruct ev; try discriminate; simpl; unfold bind, ret; simpl.
    + destruct (IH rest {| ShellEnv.output := ShellEnv.output p +:+ data;
                           ShellEnv.errorOutput := ShellEnv.errorOutput p;
                           ShellEnv.settled := ShellEnv.settled p |} s Hpre)
        as [err Heq].
      exists err. rewrite Heq. clear Heq. simpl. rewrite append_assoc.
      by destruct (ShellEnv.run_child _ _ _ rest s) as [[? ?] ?].
    + destruct (IH rest {| ShellEnv.output := ShellEnv.output p;
                           ShellEnv.errorOutput := ShellEnv.errorOutput p +:+ data;
                           ShellEnv.settled := ShellEnv.settled p |} s Hpre)
        as [err Heq].
      exists err. rewrite Heq. clear Heq. simpl.
      by destruct (ShellEnv.run_child _ _ _ rest s) as [[? ?] ?].
Qed.

Lemma on_child_event_no_spawn {S} sh home p ev (s : S) :
  List.filter is_spawn (ShellEnv.on_child_event sh home p ev s).2 = [].
Proof.
  destruct ev; unfold ShellEnv.on_child_event;
    unfold logger, bind, emit, ret; simpl;
    repeat (case_match; simpl in *); simplify_eq/=; reflexivity.
Qed.

Lemma run_child_no_spawn {S} sh home evs : forall p (s : S),
  List.filter is_spawn (ShellEnv.run_child sh home p evs s).2 = [].
Proof.
  induction evs as [|ev evs IH]; intros p s; simpl; [reflexivity |].
  unfold bind. pose proof (on_child_event_no_spawn sh home p ev s) as Hev.
  destruct (ShellEnv.on_child_event sh home p ev s) as [[p' s'] t'].
  specialize (IH p' s').
  destruct (ShellEnv.run_child sh home p' evs s') as [[p'' s''] t''].
  simpl in *. by rewrite List.filter_app, Hev, IH.
Qed.

Lemma probe_finish_success {S} sh pre post (s : S) e :
  forallb is_output pre = true ->
  ShellEnv.appendCherryBinToPath (ShellEnv.parse_env (stdout_of pre))
  = Returns e ->
  exists t,
    ShellEnv.probe_finish sh (pre ++ ChildClose (Some 0%Z) :: post) s
    = (Resolved e, s, t)
    /\ List.filter is_spawn t = [].
Proof.
  intros Hpre He. unfold ShellEnv.probe_finish.
  pose proof (run_child_no_spawn sh.1 sh.2
                (pre ++ ChildClose (Some 0%Z) :: post)
                {| ShellEnv.output := ""; ShellEnv.errorOutput := "";
                   ShellEnv.settled := Pending |} s) as Hn.
  pose proof (run_child_state sh.1 sh.2
                (pre ++ ChildClose (Some 0%Z) :: post)
                {| ShellEnv.output := ""; ShellEnv.errorOutput := "";
                   ShellEnv.settled := Pending |} s) as Hs.
  assert (ShellEnv.settled
            (ShellEnv.run_child sh.1 sh.2
               {| ShellEnv.output := ""; ShellEnv.errorOutput := "";
                  ShellEnv.settled := Pending |}
               (pre ++ ChildClose (Some 0%Z) :: post) s).1.1
          = Resolved e) as Hres.
  { destruct (run_child_collects sh.1 sh.2 pre
                (ChildClose (Some 0%Z) :: post)
                {| ShellEnv.output := ""; ShellEnv.errorOutput := "";
                   ShellEnv.settled := Pending |} s Hpre) as [err ->].
    cbn [ShellEnv.output ShellEnv.settled String.append ShellEnv.run_child].
    unfold bind at 1.
    assert (ShellEnv.settled
              (ShellEnv.on_child_event sh.1 sh.2
                 {| ShellEnv.output := stdout_of pre;
                    ShellEnv.errorOutput := err;
                    ShellEnv.settled := Pending |}
                 (ChildClose (Some 0%Z)) s).1.1
            = Resolved e) as Hclose.
    { unfold ShellEnv.on_child_event, logger, bind, emit, ret. simpl.
      rewrite He.
      destruct (JS.nonempty (JS.trim err)); simpl; by destruct (_ && _). }
    destruct (ShellEnv.on_child_event sh.1 sh.2 _
                (ChildClose (Some 0%Z)) s) as [[p1 s1] t1].
    simpl in Hclose.
    pose proof (run_child_settled sh.1 sh.2 post p1 s1) as Hstay.
    destruct (ShellEnv.run_child sh.1 sh.2 p1 post s1)
      as [[p2 s2] t2].
    simpl in *. rewrite Hstay; [done |].
    unfold ShellEnv.is_settled. by rewrite Hclose. }
  unfold bind, ret.
  destruct (ShellEnv.run_child sh.1 sh.2 _ _ s) as [[p' s'] t'].
  simpl in *. subst s'. rewrite Hres, app_nil_r. by eexists.
Qed.

(** X7. A login shell that exits with code 0 is a success whatever it wrote
    on its standard error and whatever happens afterwards: [getShellEnv] on
    an empty cache spawns that one shell and resolves to (and caches) the
    variables parsed from all of its standard output, with the tool
    directory appended. *)
Theorem getShellEnv_login_success (pre post : list child_event)
    (home : string) (e : env) :
  isWin = false ->
  ShellEnv.homeDirectory = Returns home ->
  JS.nonempty home = true ->
  spawn ShellEnv.shellPath ["-ilc"; "env"] None
  = Returns (pre ++ ChildClose (Some 0%Z) :: post) ->
  forallb is_output pre = true ->
  ShellEnv.appendCherryBinToPath (ShellEnv.parse_env (stdout_of pre))
  = Returns e ->
  exists t,
    ShellEnv.getShellEnv None = (Resolved e, Some e, t)
    /\ List.filter is_spawn t = [Spawned ShellEnv.shellPath ["-ilc"; "env"]].
Proof.
  intros Hwin Hhome Hne Hspawn Hpre He.
  assert (exists t0,
            ShellEnv.probe_start (None : option env)
            = (inr (ShellEnv.shellPath, home), None, t0)
            /\ List.filter is_spawn t0
               = [Spawned ShellEnv.shellPath ["-ilc"; "env"]])
    as (t0 & Hstart & Ht0).
  { unfold ShellEnv.probe_start. rewrite Hwin, Hhome, Hne. simpl.
    destruct (JS.truthy (Env.get process_env "SHELL")); [| destruct isMac];
      unfold logger, bind, emit, ret; simpl; rewrite Hspawn; by eexists. }
  destruct (probe_finish_success (ShellEnv.shellPath, home) pre post
              (None : option env) e Hpre He) as (t1 & Hfinish & Ht1).
  unfold ShellEnv.getShellEnv, ShellEnv.fetchShellEnv,
    ShellEnv.getLoginShellEnvironment.
  unfold bind, read. rewrite Hstart. cbn [fst]. rewrite Hspawn.
  cbn [ShellEnv.child_events]. rewrite Hfinish.
  unfold ShellEnv.fetch_settle, write, ret.
  eexists. split; [reflexivity |].
  rewrite !app_nil_r, !List.filter_app, Ht0, Ht1. reflexivity.
Qed.

End LoginFacts.

Lemma getShellEnv_login_success_witness :
  exists t,
    ShellEnv.getShellEnv (NP := Node.posix false) (H := Examples.linux) None
    = (Resolved [("PATH", "/usr/bin:/home/u/.cherrystudio/bin"); ("FOO", "bar")],
       Some [("PATH", "/usr/bin:/home/u/.cherrystudio/bin"); ("FOO", "bar")], t)
    /\ List.filter is_spawn t = [Spawned "/bin/bash" ["-ilc"; "env"]].
Proof.
  exact (getShellEnv_login_success (NP := Node.posix false) (H := Examples.linux)
           [ChildStdout ("PATH=/usr/bin" +:+ Examples.nl +:+ "FOO=bar" +:+ Examples.nl)]
           [] "/home/u"
           [("PATH", "/usr/bin:/home/u/.cherrystudio/bin"); ("FOO", "bar")]
           eq_refl eq_refl eq_refl eq_refl eq_refl eq_refl).
Defined.

(** * Further properties of the command lookup *)

(** Run a computation of [M] by its definition. *)
Ltac run_m :=
  unfold logger in *; unfold bind, ret, emit, read, write in *; simpl in *;
  repeat (case_match; simpl in *); simplify_eq/=; try done.

Section LookupMore.
Context `{NP : NodePath} `{H : Host}.

Lemma findCommandInShellEnv_valid {S} command e (s : S) :
  safety_pattern command ->
  Process.findCommandInShellEnv command e s
  = (emit (Spawned lookup_cmd (lookup_args command)) >>
     match spawn lookup_cmd (lookup_args command) (Some e) with
     | Throws message => ret (Rejected message)
     | Returns child =>
         let* l :=
           Process.run_lookup command
             {| Process.output := ""; Process.resolved := Pending;
                Process.timer := true |} child in
         ret (Process.resolved l)
     end) s.
Proof.
  intros Hok. apply VALID_COMMAND_NAME_REGEX_spec in Hok.
  unfold Process.findCommandInShellEnv, lookup_cmd, lookup_args.
  rewrite Hok. by destruct isWin.
Qed.

Lemma pick_path_ok {S} command out (s : S) p :
  (Process.pick_path command out s).1.1 = Some p -> found_ok p.
Proof.
  unfold Process.pick_path, found_ok. destruct isWin.
  - destruct (List.find _ _) as [exePath|] eqn:Hfind; [| by run_m].
    apply List.find_some in Hfind as [_ Hexe].
    destruct (JS.nonempty exePath); run_m. by intros [= <-].
  - destruct (path_isAbsolute _) eqn:Habs; run_m. by intros [= <-].
Qed.

Lemma pick_path_quiet {S} command out (s : S) :
  (Process.pick_path command out s).1.2 = s
  /\ List.filter is_spawn (Process.pick_path command out s).2 = []
  /\ ~ In Killed (Process.pick_path command out s).2.
Proof.
  unfold Process.pick_path. destruct isWin.
  - destruct (List.find _ _) as [exePath|];
      [destruct (JS.nonempty exePath) |]; run_m; intuition discriminate.
  - destruct (path_isAbsolute _); run_m; intuition discriminate.
Qed.

Lemma pick_path_picked {S} command out (s : S) :
  (Process.pick_path command out s).1.1 = picked out.
Proof.
  unfold Process.pick_path, picked. destruct isWin.
  - destruct (List.find _ _) as [exePath|] eqn:Hfind; [| by run_m].
    apply List.find_some in Hfind as [_ Hexe].
    destruct exePath; [discriminate Hexe | by run_m].
  - destruct (path_isAbsolute _); by run_m.
Qed.

Lemma on_lookup_event_sane {S} command l ev (s : S) :
  sane l ->
  sane (Process.on_lookup_event command l ev s).1.1
  /\ (Process.on_lookup_event command l ev s).1.2 = s
  /\ List.filter is_spawn (Process.on_lookup_event command l ev s).2 = [].
Proof.
  intros Hl. unfold sane in *.
  destruct ev; unfold Process.on_lookup_event.
  - destruct (_ <? _)%N; by run_m.
  - by run_m.
  - unfold Process.clearTimeout, Process.safeResolve, Process.is_resolved.
    cbn [Process.resolved Process.output Process.timer].
    destruct (Process.resolved l) as [|[p|]|] eqn:Hr; by run_m.
  - unfold Process.clearTimeout, Process.safeResolve, Process.is_resolved.
    cbn [Process.resolved Process.output Process.timer].
    destruct (Process.resolved l) as [|[p|]|] eqn:Hr; try by run_m.
    destruct (_ && _); [| by run_m].
    pose proof (pick_path_ok command (Process.output l) s) as Hok.
    pose proof (pick_path_quiet command (Process.output l) s) as (Hs & Hq & _).
    unfold bind, ret.
    destruct (Process.pick_path command (Process.output l) s) as [[found s'] t].
    simpl in *. subst s'. rewrite app_nil_r.
    split; [| done]. destruct found as [p|]; [by apply Hok | done].
  - unfold Process.safeResolve, Process.is_resolved.
    destruct (Process.timer l), (Process.resolved l) as [|[p|]|] eqn:Hr;
      by run_m.
Qed.

Lemma run_lookup_sane {S} command evs : forall l (s : S),
  sane l ->
  sane (Process.run_lookup command l evs s).1.1
  /\ (Process.run_lookup command l evs s).1.2 = s
  /\ List.filter is_spawn (Process.run_lookup command l evs s).2 = [].
Proof.
  induction evs as [|ev evs IH]; intros l s Hl; [done |].
  simpl. unfold bind.
  destruct (on_lookup_event_sane command l ev s Hl) as (Hl' & Hs & Ht).
  destruct (Process.on_lookup_event command l ev s) as [[l' s'] t'].
  simpl in *. subst s'.
  destruct (IH l' s Hl') as (Hl'' & Hs' & Ht').
  destruct (Process.run_lookup command l' evs s) as [[l'' s''] t''].
  simpl in *. by rewrite List.filter_app, Ht, Ht'.
Qed.

(** X8. [findCommandInShellEnv] leaves the state alone and rejects in one
    case only: the name matches the safety pattern and the [spawn] of the
    lookup command throws, the promise being rejected with that exception.
    Whatever the child of a lookup does, a path the function resolves to
    belongs to a name that matches the safety pattern and passed the
    platform's test (the [.exe] ending on Windows, an absolute path
    elsewhere); and for a name that matches, the one process it starts is
    the lookup command, with the name as an argument of its own. *)
Theorem findCommandInShellEnv_sound
    (S : Type) (command : string) (loginShellEnv : env) (s : S) :
  let '(r, s', t) := Process.findCommandInShellEnv command loginShellEnv s in
  s' = s
  /\ (forall message,
        r = Rejected message
        <-> safety_pattern command
            /\ spawn lookup_cmd (lookup_args command) (Some loginShellEnv)
               = Throws message)
  /\ (forall p, r = Resolved (Some p) -> safety_pattern command /\ found_ok p)
  /\ (safety_pattern command ->
      List.filter is_spawn t = [Spawned lookup_cmd (lookup_args command)]
      /\ List.last (lookup_args command) "" = command).
Proof.
  destruct (Regex.test_anchored Process.VALID_COMMAND_NAME_REGEX command)
    eqn:Htest.
  - assert (safety_pattern command) as Hok
      by by apply VALID_COMMAND_NAME_REGEX_spec.
    rewrite (findCommandInShellEnv_valid command loginShellEnv s Hok).
    unfold bind, emit, ret.
    destruct (spawn lookup_cmd (lookup_args command) (Some loginShellEnv))
      as [child | thrown].
    + destruct (run_lookup_sane command child
                  {| Process.output := ""; Process.resolved := Pending;
                     Process.timer := true |} s I) as (Hsane & Hs & Ht).
      destruct (Process.run_lookup command _ _ s) as [[l s'] t].
      simpl in *. unfold sane in Hsane.
      split; [done |]. split; [| split].
      * intros message. split; [| by intros [_ ?]].
        intros Hr. by rewrite Hr in Hsane.
      * intros p Hr. by rewrite Hr in Hsane.
      * intros _. rewrite app_nil_r, Ht. split; [done |].
        unfold lookup_args. by destruct isWin.
    + simpl. split; [done |]. split; [| split].
      * intros message. split; [by intros [= ->] | by intros [_ [= ->]]].
      * done.
      * intros _. split; [done |]. unfold lookup_args. by destruct isWin.
  - unfold Process.findCommandInShellEnv. rewrite Htest. simpl.
    assert (~ safety_pattern command) as Hno.
    { intros Hok. apply VALID_COMMAND_NAME_REGEX_spec in Hok. congruence. }
    split; [done |]. split; [| split; [done | done]].
    intros message. split; [done | by intros [? _]].
Qed.

Lemma run_lookup_outputs {S} command pre : forall rest l (s : S),
  forallb is_output pre = true ->
  Process.run_lookup command l (pre ++ rest) s
  = Process.run_lookup command
      {| Process.output := collected (Process.output l) pre;
         Process.resolved := Process.resolved l;
         Process.timer := Process.timer l |} rest s.
Proof.
  induction pre as [|ev pre IH]; intros rest l s Hpre.
  - by destruct l.
  - simpl in Hpre. apply andb_true_iff in Hpre as [Hev Hpre].
    destruct ev; try discriminate.
    + change (Process.run_lookup command l ((ChildStdout data :: pre) ++ rest) s)
        with ((let* l' := Process.on_lookup_event command l (ChildStdout data) in
               Process.run_lookup command l' (pre ++ rest)) s).
      cbn [collected Process.on_lookup_event].
      destruct (_ <? _)%N; unfold bind, ret.
      * rewrite (IH rest _ s Hpre). cbn [Process.output Process.resolved Process.timer].
        by destruct (Process.run_lookup _ _ rest s) as [[? ?] ?].
      * rewrite (IH rest _ s Hpre).
        by destruct (Process.run_lookup _ _ rest s) as [[? ?] ?].
    + change (Process.run_lookup command l ((ChildStderr data :: pre) ++ rest) s)
        with ((let* l' := Process.on_lookup_event command l (ChildStderr data) in
               Process.run_lookup command l' (pre ++ rest)) s).
      cbn [collected Process.on_lookup_event]. unfold bind, ret.
      rewrite (IH rest _ s Hpre).
      by destruct (Process.run_lookup _ _ rest s) as [[? ?] ?].
Qed.

Lemma on_lookup_event_resolved {S} command l ev (s : S) :
  Process.is_resolved l = true ->
  Process.resolved (Process.on_lookup_event command l ev s).1.1
  = Process.resolved l
  /\ ~ In Killed (Process.on_lookup_event command l ev s).2.
Proof.
  unfold Process.is_resolved. destruct l as [out r tm]. simpl. intros Hl.
  destruct ev; unfold Process.on_lookup_event, Process.clearTimeout,
    Process.safeResolve, Process.is_resolved;
    cbn [Process.resolved Process.output Process.timer].
  - destruct (_ <? _)%N; run_m; intuition (try discriminate; try done).
  - run_m; intuition (try discriminate; try done).
  - destruct r; run_m; intuition (try discriminate; try done).
  - destruct r; run_m; intuition (try discriminate; try done).
  - destruct tm, r; run_m; intuition (try discriminate; try done).
Qed.

Lemma run_lookup_resolved {S} command evs : forall l (s : S),
  Process.is_resolved l = true ->
  Process.resolved (Process.run_lookup command l evs s).1.1
  = Process.resolved l
  /\ ~ In Killed (Process.run_lookup command l evs s).2.
Proof.
  induction evs as [|ev evs IH]; intros l s Hl; [by split; [| intros []] |].
  simpl. unfold bind.
  destruct (on_lookup_event_resolved command l ev s Hl) as [Hr Hk].
  destruct (Process.on_lookup_event command l ev s) as [[l' s'] t'].
  simpl in *.
  assert (Process.is_resolved l' = true) as Hl'
    by (unfold Process.is_resolved in *; by rewrite Hr).
  destruct (IH l' s' Hl') as [Hr' Hk'].
  destruct (Process.run_lookup command l' evs s') as [[l'' s''] t''].
  simpl in *. split; [congruence |].
  rewrite in_app_iff. tauto.
Qed.

(** The first event besides output settles a lookup that holds [out]. *)
Lemma on_lookup_event_settles {S} command out ev (s : S) :
  is_output ev = false ->
  let l := {| Process.output := out; Process.resolved := Pending;
              Process.timer := true |} in
  Process.resolved (Process.on_lookup_event command l ev s).1.1
  = Resolved (lookup_result out ev)
  /\ (In Killed (Process.on_lookup_event command l ev s).2 <-> ev = TimerFired).
Proof.
  intros Hev. destruct ev; try discriminate; simpl.
  - unfold logger, bind, emit, ret. simpl. split; [done |].
    split; [intros [|[]]; discriminate | discriminate].
  - unfold Process.safeResolve, Process.is_resolved. simpl.
    destruct (_ && _).
    + pose proof (pick_path_picked command out s) as Hp.
      pose proof (pick_path_quiet command out s) as (_ & _ & Hk).
      unfold bind, ret.
      destruct (Process.pick_path command out s) as [[found s'] t].
      simpl in *. rewrite app_nil_r. subst found.
      split; [done |]. split; [tauto | discriminate].
    + unfold logger, bind, emit, ret. simpl. split; [done |].
      split; [intros [|[]]; discriminate | discriminate].
  - unfold logger, bind, emit, ret. simpl. split; [done |].
    split; [by intros _ | by left].
Qed.

(** X9. A lookup settles at the first event of its child besides output
    (its close, its error or the timer), on the output held by then, and
    whatever follows changes nothing: for a name that matches the pattern,
    [findCommandInShellEnv] resolves to the path picked from that output
    when the event is a close with code 0, to [null] otherwise; the child
    is killed exactly when the event is the timer. *)
Theorem findCommandInShellEnv_settles
    (S : Type) (command : string) (loginShellEnv : env) (s : S)
    (pre post : list child_event) (ev : child_event) :
  safety_pattern command ->
  spawn lookup_cmd (lookup_args command) (Some loginShellEnv)
  = Returns (pre ++ ev :: post) ->
  forallb is_output pre = true ->
  is_output ev = false ->
  (Process.findCommandInShellEnv command loginShellEnv s).1.1
  = Resolved (lookup_result (collected "" pre) ev)
  /\ (In Killed (Process.findCommandInShellEnv command loginShellEnv s).2
      <-> ev = TimerFired).
Proof.
  intros Hok Hspawn Hpre Hev.
  rewrite (findCommandInShellEnv_valid command loginShellEnv s Hok), Hspawn.
  unfold bind, emit.
  rewrite (run_lookup_outputs command pre (ev :: post) _ s Hpre).
  cbn [Process.output Process.resolved Process.timer Process.run_lookup].
  unfold bind.
  destruct (on_lookup_event_settles command (collected "" pre) ev s Hev)
    as [Hr Hk].
  destruct (Process.on_lookup_event command _ ev s) as [[l' s'] t'].
  simpl in Hr, Hk.
  assert (Process.is_resolved l' = true) as Hl'
    by (unfold Process.is_resolved; by rewrite Hr).
  destruct (run_lookup_resolved command post l' s' Hl') as [Hr' Hk'].
  destruct (Process.run_lookup command l' post s') as [[l'' s''] t''].
  simpl in *. unfold ret. simpl. split; [congruence |].
  rewrite app_nil_r, in_app_iff, <- Hk.
  split; [intros [[= ] | [|]]; tauto | tauto].
Qed.

Lemma collected_length n evs : forall acc,
  chunks_within n evs ->
  (N.of_nat (String.length acc) <= Process.MAX_OUTPUT_SIZE - 1 + N.of_nat n)%N ->
  (N.of_nat (String.length (collected acc evs))
   <= Process.MAX_OUTPUT_SIZE - 1 + N.of_nat n)%N.
Proof.
  induction evs as [|ev evs IH]; intros acc Hn Hacc; [done |].
  assert (chunks_within n evs) as Hn' by (intros d Hd; apply Hn; by right).
  destruct ev; simpl; try by apply IH.
  apply IH; [done |].
  destruct (_ <? _)%N eqn:Hlt; [| done].
  apply N.ltb_lt in Hlt. rewrite append_length.
  pose proof (Hn data (or_introl eq_refl)).
  unfold Process.MAX_OUTPUT_SIZE in *. lia.
Qed.

Lemma run_lookup_output {S} command evs : forall l (s : S),
  Process.output (Process.run_lookup command l evs s).1.1
  = collected (Process.output l) evs.
Proof.
  induction evs as [|ev evs IH]; intros l s; [done |].
  simpl. unfold bind.
  assert (Process.output (Process.on_lookup_event command l ev s).1.1
          = match ev with
            | ChildStdout data =>
                if (N.of_nat (String.length (Process.output l))
                      <? Process.MAX_OUTPUT_SIZE)%N
                then Process.output l +:+ data else Process.output l
            | _ => Process.output l
            end) as Hout.
  { destruct ev; unfold Process.on_lookup_event, Process.clearTimeout,
      Process.safeResolve, Process.is_resolved;
      cbn [Process.resolved Process.output Process.timer].
    - by destruct (_ <? _)%N.
    - done.
    - destruct (Process.resolved l); by run_m.
    - destruct (Process.resolved l); by run_m.
    - destruct (Process.timer l), (Process.resolved l); by run_m. }
  destruct (Process.on_lookup_event command l ev s) as [[l' s'] t'].
  specialize (IH l' s').
  destruct (Process.run_lookup command l' evs s') as [[l'' s''] t''].
  simpl in *. rewrite IH, Hout. by destruct ev.
Qed.

(** X10. The output a lookup holds is bounded: when no chunk of standard
    output is longer than [n], it never holds more than
    [MAX_OUTPUT_SIZE - 1 + n] characters, however much the child writes
    and whether or not the lookup has settled. *)
Theorem lookup_output_bounded
    (S : Type) (command : string) (evs : list child_event) (s : S) (n : nat) :
  chunks_within n evs ->
  (N.of_nat
     (String.length
        (Process.output
           (Process.run_lookup command
              {| Process.output := ""; Process.resolved := Pending;
                 Process.timer := true |} evs s).1.1))
   <= Process.MAX_OUTPUT_SIZE - 1 + N.of_nat n)%N.
Proof.
  intros Hn. rewrite run_lookup_output. simpl Process.output.
  apply collected_length; [done |].
  unfold Process.MAX_OUTPUT_SIZE. simpl. lia.
Qed.

End LookupMore.

Lemma findCommandInShellEnv_settles_witness :
  (Process.findCommandInShellEnv (NP := Node.posix false)
     (H := Examples.linux_lookup) "node" [] tt).1.1
  = Resolved (Some "/usr/bin/node")
  /\ ~ In Killed
       (Process.findCommandInShellEnv (NP := Node.posix false)
          (H := Examples.linux_lookup) "node" [] tt).2.
Proof.
  destruct (findCommandInShellEnv_settles (NP := Node.posix false)
              (H := Examples.linux_lookup) unit "node" [] tt
              [ChildStdout "/usr/bin/"; ChildStdout ("node" +:+ Examples.nl);
               ChildStderr "warning"]
              [ChildStdout "late"; TimerFired] (ChildClose (Some 0%Z)))
    as [Hresult Hkilled].
  - exists "n"%char, "ode". repeat split; simpl; lia.
  - reflexivity.
  - reflexivity.
  - reflexivity.
  - split; [exact Hresult |]. intros Hk. apply Hkilled in Hk. discriminate Hk.
Defined.

Lemma lookup_output_bounded_witness :
  (N.of_nat
     (String.length
        (Process.output
           (Process.run_lookup (NP := Node.posix false) "node"
              {| Process.output := ""; Process.resolved := Pending;
                 Process.timer := true |}
              [ChildStdout "/usr/bin/"; ChildStdout "node"; ChildClose (Some 0%Z);
               ChildStdout "late"] tt).1.1))
   <= Process.MAX_OUTPUT_SIZE - 1 + 9)%N.
Proof.
  apply (lookup_output_bounded (NP := Node.posix false) unit "node"
           [ChildStdout "/usr/bin/"; ChildStdout "node"; ChildClose (Some 0%Z);
            ChildStdout "late"] tt 9).
  intros data [[= <-] | [[= <-] | [[=] | [[= <-] | []]]]]; simpl; lia.
Defined.

(** * Further properties of the Windows environment *)

Section WindowsFacts.
Context `{NP : NodePath} `{H : Host}.

Lemma expandWindowsEnvVars_nil n : forall s,
  (String.length s <= n)%nat -> ShellEnv.expandWindowsEnvVars s [] = s.
Proof.
  induction n as [|n IH]; intros s Hn.
  - destruct s; [reflexivity | simpl in Hn; lia].
  - destruct s as [|c s]; [reflexivity |]. simpl in Hn.
    rewrite expandWindowsEnvVars_cons.
    destruct (Ascii.eqb c "%") eqn:Hc; [| by rewrite IH by lia].
    destruct (ShellEnv.span_name s) as [name rest] eqn:Hs.
    pose proof (span_name_length _ _ _ Hs) as Hlen.
    destruct (span_name_app _ _ _ Hs) as [Heq Hrest].
    destruct name as [|n0 name]; [by rewrite IH by lia |].
    destruct rest as [|r rest]; [by rewrite IH by lia |].
    destruct Hrest as [| [r' [= -> ->]]]; [done |].
    apply Ascii.eqb_eq in Hc as ->.
    rewrite IH by (simpl in Hlen; lia). rewrite Heq.
    unfold ShellEnv.replacer, token. simpl. f_equal. f_equal.
    by rewrite append_assoc.
Qed.

(** X11. [expandWindowsEnvVars] rewrites nothing but the tokens it can
    resolve: with no variable to look up the value is returned as it is,
    percent signs included, and a value without a percent sign is returned
    as it is whatever the variables. *)
Theorem expandWindowsEnvVars_unchanged (value : string) :
  ShellEnv.expandWindowsEnvVars value [] = value
  /\ (forall e : env,
        JS.includes_char "%" value = false ->
        ShellEnv.expandWindowsEnvVars value e = value).
Proof.
  split; [by apply (expandWindowsEnvVars_nil (String.length value)) |].
  intros e Hv. rewrite <- (append_nil_r value) at 1.
  rewrite expandWindowsEnvVars_plain by exact Hv.
  apply append_nil_r.
Qed.

Lemma take_line_no_break s :
  JS.includes_char "010" (ShellEnv.take_line s) = false
  /\ JS.includes_char "013" (ShellEnv.take_line s) = false.
Proof.
  induction s as [|c s [IH1 IH2]]; simpl; [done |].
  destruct (Ascii.eqb c "010") eqn:Hn; simpl; [done |].
  destruct (Ascii.eqb c "013") eqn:Hr; simpl; [done |].
  by rewrite Hn, Hr.
Qed.

(** X20. [queryRegValue] runs the one [reg query] for the key and the
    value name and leaves the state alone.  A value it returns is one
    line of the output, trimmed: it holds no line break and no white space
    around it; when the command fails there is no value. *)
Theorem queryRegValue_line (S : Type) (keyPath valueName : string) (s : S) :
  let '(r, s', t) := ShellEnv.queryRegValue keyPath valueName s in
  s' = s
  /\ t = [ExecFile "reg" ["query"; keyPath; "/v"; valueName]]
  /\ (forall v, r = Some v ->
        JS.trim v = v
        /\ JS.includes_char "010" v = false
        /\ JS.includes_char "013" v = false
        /\ exists out capture,
             execFileSync "reg" ["query"; keyPath; "/v"; valueName] None
             = Some out
             /\ ShellEnv.match_reg_sz out = Some capture
             /\ v = JS.trim capture)
  /\ (execFileSync "reg" ["query"; keyPath; "/v"; valueName] None = None ->
      r = None).
Proof.
  unfold ShellEnv.queryRegValue, ShellEnv.regValue, bind, emit, ret. simpl.
  split; [done |]. split; [done |].
  destruct (execFileSync "reg" _ None) as [out|]; [| done].
  split; [| done].
  destruct (ShellEnv.match_reg_sz out) as [capture|] eqn:Hmatch; [| done].
  intros v [= <-].
  assert (exists rest, capture = ShellEnv.take_line rest) as [rest ->].
  { clear -Hmatch. induction out as [|c out IH].
    - simpl in Hmatch. by destruct (ShellEnv.match_reg_sz_here "").
    - simpl in Hmatch.
      destruct (ShellEnv.match_reg_sz_here (String c out)) as [cap|] eqn:Hhere;
        [| by apply IH].
      injection Hmatch as ->. unfold ShellEnv.match_reg_sz_here in Hhere.
      destruct (match ShellEnv.drop_prefix_ci "reg_expand_sz" (String c out) with
                | Some r => Some r
                | None => ShellEnv.drop_prefix_ci "reg_sz" (String c out)
                end) as [[|d r]|]; try done.
      destruct (JS.is_space d); [| done].
      injection Hhere as <-. by eexists. }
  destruct (take_line_no_break rest) as [Hn Hr].
  split; [apply trim_idem |].
  split; [by apply includes_trim |]. split; [by apply includes_trim |].
  by eexists _, _.
Qed.

(** When every PATH-like key of a map holds [P], and there is one, the
    PATH [appendCherryBinToPath] starts from is [P]. *)
Lemma existingPathValue_uniform (e : env) (P : string) :
  (exists k, In k (ShellEnv.pathKeys e)) ->
  (forall k, In k (ShellEnv.pathKeys e) -> Env.get e k = Some P) ->
  ShellEnv.existingPathValue e = P.
Proof.
  intros [k0 Hk0] Hall.
  unfold ShellEnv.existingPathValue, ShellEnv.canonicalPathKey.
  destruct (ShellEnv.pathKeys e) as [|k ks] eqn:Hpk; [done |]. simpl.
  assert (In k (ShellEnv.pathKeys e)) as Hin by (rewrite Hpk; by left).
  rewrite <- Hpk in Hall. pose proof (Hall k Hin) as Hget.
  apply pathKeys_In in Hin as [_ Hk].
  destruct k as [|c k]; [done |]. simpl. rewrite Hget.
  unfold JS.or_else. simpl. destruct P as [|p0 p]; simpl; [| done].
  destruct (in_dec string_dec "PATH" (Env.keys e)) as [HPATH | HPATH].
  - rewrite (Hall "PATH"); [done |]. apply pathKeys_In. by split.
  - by rewrite get_none.
Qed.

Lemma updatedPath_of_value (home : string) (e : env) :
  ShellEnv.updatedPath home e
  = path_with_cherry_bin home (ShellEnv.existingPathValue e).
Proof.
  by rewrite updatedPath_path_with_cherry_bin, existingPathValue_path_of.
Qed.

Lemma registry_keys_path e k :
  In k (registry_keys e) -> JS.toLowerCase k = "path".
Proof.
  unfold registry_keys. destruct (ShellEnv.pathKeys e) as [|k0 ks] eqn:Hpk.
  - by intros [<- | []].
  - rewrite <- Hpk. intros Hin. apply pathKeys_In in Hin. tauto.
Qed.

(** The map [getWindowsEnvironment] hands to [appendCherryBinToPath] when
    the registry gave [rp]. *)
Lemma registry_env (e : env) (rp : string) :
  let e1 := Env.set_all e (registry_keys e) rp in
  (forall k, JS.toLowerCase k <> "path" -> Env.get e1 k = Env.get e k)
  /\ (exists k, In k (ShellEnv.pathKeys e1))
  /\ (forall k, In k (ShellEnv.pathKeys e1) -> Env.get e1 k = Some rp).
Proof.
  assert (Forall (fun k => k <> "__proto__") (registry_keys e)) as Hord.
  { apply Forall_forall. intros k Hk.
    by apply path_like_ordinary, (registry_keys_path e), list_elem_of_In. }
  intros e1. subst e1. split; [| split].
  - intros k Hk. rewrite get_set_all by done.
    destruct (existsb _ (registry_keys e)) eqn:Hex; [| done].
    by apply existsb_eqb_In, registry_keys_path in Hex.
  - assert (exists k, In k (registry_keys e)) as [k Hk].
    { unfold registry_keys. destruct (ShellEnv.pathKeys e); eexists; by left. }
    exists k. apply pathKeys_In. split; [| by apply (registry_keys_path e)].
    apply keys_set_all; [done | by right].
  - intros k Hk. apply pathKeys_In in Hk as [Hin Hpath].
    rewrite get_set_all by done.
    assert (In k (registry_keys e)) as Hreg.
    { apply keys_set_all in Hin as [Hin | Hin]; [| done | done].
      assert (In k (ShellEnv.pathKeys e)) as Hpk by by apply pathKeys_In.
      unfold registry_keys. by destruct (ShellEnv.pathKeys e). }
    apply existsb_eqb_In in Hreg. by rewrite Hreg.
Qed.

Lemma readWindowsRegistryPath_run {S} (e : env) (s : S) :
  ShellEnv.readWindowsRegistryPath e s
  = ((ShellEnv.readWindowsRegistryPath e s).1.1, s,
     [ExecFile "reg" ["query"; ShellEnv.HKLM_KEY; "/v"; "Path"];
      ExecFile "reg" ["query"; ShellEnv.HKCU_KEY; "/v"; "Path"]]).
Proof.
  unfold ShellEnv.readWindowsRegistryPath, ShellEnv.queryRegValue,
    bind, emit, ret. simpl. by destruct (_ && _).
Qed.

(** X12. [getWindowsEnvironment] starts no process but the two registry
    queries, the system key before the user key, and leaves the state
    alone.  It throws when [appendCherryBinToPath] does, with the exception
    of [os.homedir()].  In its result every variable that is not PATH-like
    is the one of [process.env], and the PATH-like keys all hold the PATH
    made of the registry value when the registry gave a non-empty one (the
    PATH of the process is not used then), of the PATH of the process
    otherwise. *)
Theorem getWindowsEnvironment_fresh (S : Type) (s : S) :
  let e0 := Env.copy process_env in
  let registryPath := (ShellEnv.readWindowsRegistryPath e0 s).1.1 in
  let '(r, s', t) := ShellEnv.getWindowsEnvironment s in
  s' = s
  /\ List.filter is_spawn t
     = [ExecFile "reg" ["query"; ShellEnv.HKLM_KEY; "/v"; "Path"];
        ExecFile "reg" ["query"; ShellEnv.HKCU_KEY; "/v"; "Path"]]
  /\ match r, ShellEnv.homeDirFromEnv e0 with
     | Returns e, Returns home =>
         (forall k, JS.toLowerCase k <> "path" -> Env.get e k = Env.get e0 k)
         /\ (exists k, In k (ShellEnv.pathKeys e))
         /\ (forall k, In k (ShellEnv.pathKeys e) ->
               Env.get e k
               = Some (path_with_cherry_bin home
                         (if JS.truthy registryPath then default "" registryPath
                          else ShellEnv.existingPathValue e0)))
     | Throws message, Throws thrown => message = thrown
     | _, _ => False
     end.
Proof.
  intros e0 registryPath.
  unfold ShellEnv.getWindowsEnvironment. unfold bind at 1.
  fold e0. rewrite (readWindowsRegistryPath_run e0 s). fold registryPath.
  assert (forall e1 : env,
            (forall k, JS.toLowerCase k <> "path" -> Env.get e1 k = Env.get e0 k) ->
            forall P,
            ShellEnv.existingPathValue e1 = P ->
            match ShellEnv.appendCherryBinToPath e1, ShellEnv.homeDirFromEnv e0 with
            | Returns e, Returns home =>
                (forall k, JS.toLowerCase k <> "path" ->
                   Env.get e k = Env.get e0 k)
                /\ (exists k, In k (ShellEnv.pathKeys e))
                /\ (forall k, In k (ShellEnv.pathKeys e) ->
                      Env.get e k = Some (path_with_cherry_bin home P))
            | Throws message, Throws thrown => message = thrown
            | _, _ => False
            end) as Hafter.
  { intros e1 Hframe P HP. unfold ShellEnv.appendCherryBinToPath.
    assert (ShellEnv.homeDirFromEnv e1 = ShellEnv.homeDirFromEnv e0) as ->.
    { unfold ShellEnv.homeDirFromEnv. by rewrite !Hframe. }
    destruct (ShellEnv.homeDirFromEnv e0) as [home | m]; [| done].
    split; [| split].
    - intros k Hk. rewrite get_unassigned by done. by apply Hframe.
    - destruct (pathKeys_after_cons e1 (ShellEnv.updatedPath home e1))
        as (k & ks & ->).
      exists k. by left.
    - intros k Hk.
      by rewrite (pathKeys_after e1 _ k Hk), updatedPath_of_value, HP. }
  destruct registryPath as [rp|] eqn:Hreg; simpl;
    [destruct (JS.nonempty rp) eqn:Hrp |].
  - destruct (registry_env e0 rp) as (Hframe & Hex & Hall).
    assert ((match
               List.filter (fun k => String.eqb (JS.toLowerCase k) "path")
                 (Env.keys e0)
             with
             | [] => Env.set (Env.set_all e0
                       (List.filter (fun k => String.eqb (JS.toLowerCase k) "path")
                          (Env.keys e0)) rp) "Path" rp
             | _ :: _ => Env.set_all e0
                       (List.filter (fun k => String.eqb (JS.toLowerCase k) "path")
                          (Env.keys e0)) rp
             end) = Env.set_all e0 (registry_keys e0) rp) as ->.
    { unfold registry_keys, ShellEnv.pathKeys.
      by destruct (List.filter _ (Env.keys e0)). }
    unfold logger, bind, emit, ret. simpl.
    split; [done |]. split; [done |].
    apply Hafter; [done |]. by apply existingPathValue_uniform.
  - unfold logger, bind, emit, ret. simpl.
    split; [done |]. split; [done |]. by apply Hafter.
  - unfold logger, bind, emit, ret. simpl.
    split; [done |]. split; [done |]. by apply Hafter.
Qed.

End WindowsFacts.

(** * Further properties of the Git Bash locator *)

Section KeepsFacts.
Context {S : Type}.

Lemma keeps_ret {A} (a : A) (Q : A -> Prop) : Q a -> keeps (S := S) (ret a) Q.
Proof. by intros Ha s. Qed.

Lemma keeps_bind {A B} (m : M S A) (k : A -> M S B) (Q : A -> Prop)
    (R : B -> Prop) :
  keeps m Q -> (forall a, Q a -> keeps (k a) R) -> keeps (bind m k) R.
Proof.
  intros Hm Hk s. unfold bind. destruct (Hm s) as [Hs Ha].
  destruct (m s) as [[a s1] t1]. simpl in *. subst s1.
  destruct (Hk a Ha s) as [Hs' Hb].
  by destruct (k a s) as [[b s2] t2].
Qed.

Lemma keeps_emit (ev : event) : keeps (S := S) (emit ev) (fun _ => True).
Proof. by intros s. Qed.

Lemma keeps_logger l message :
  keeps (S := S) (logger l message) (fun _ => True).
Proof. by intros s. Qed.

Lemma keeps_then {B} (m : M S unit) (k : M S B) (R : B -> Prop) :
  keeps m (fun _ => True) -> keeps k R -> keeps (m >> k) R.
Proof. intros Hm Hk. apply (keeps_bind _ _ _ _ Hm). by intros _ _. Qed.

Lemma keeps_weaken {A} (m : M S A) (Q R : A -> Prop) :
  keeps m Q -> (forall a, Q a -> R a) -> keeps m R.
Proof. intros Hm HQR s. destruct (Hm s). split; [done | by apply HQR]. Qed.

(** A property of the result and the final state of what follows a step
    that leaves the state alone. *)
Lemma bind_post {A B} (m : M S A) (k : A -> M S B) (Q : A -> Prop)
    (P : B -> S -> Prop) (s : S) :
  (m s).1.2 = s -> Q (m s).1.1 ->
  (forall a, Q a -> P (k a s).1.1 (k a s).1.2) ->
  P (bind m k s).1.1 (bind m k s).1.2.
Proof.
  unfold bind. intros Hs Ha Hk.
  destruct (m s) as [[a s1] t1]. simpl in *. subst s1.
  specialize (Hk a Ha). by destruct (k a s) as [[b s2] t2].
Qed.

End KeepsFacts.

Section GitBashMore.
Context `{NP : NodePath} `{H : Host}.

Lemma keeps_existsSync {S} p :
  keeps (S := S) (Process.existsSync p) (fun b => b = fs_existsSync p).
Proof. by intros s. Qed.

Lemma on_disk_None : on_disk None.
Proof. by intros p. Qed.

Lemma first_existing_resolved_on_disk {S} candidates :
  keeps (S := S) (Process.first_existing_resolved candidates) on_disk.
Proof.
  induction candidates as [|c candidates IH]; simpl.
  - apply keeps_ret, on_disk_None.
  - apply (keeps_bind _ _ _ _ (keeps_existsSync _)). intros b ->.
    destruct (fs_existsSync _) eqn:Hex; [| exact IH].
    apply keeps_then; [apply keeps_logger |].
    apply keeps_ret. by intros p [= <-].
Qed.

Lemma find_bash_at_roots_on_disk {S} roots :
  keeps (S := S) (Process.find_bash_at_roots roots) on_disk.
Proof.
  induction roots as [|root roots IH]; simpl.
  - apply keeps_ret, on_disk_None.
  - apply (keeps_bind _ _ _ _ (keeps_existsSync _)). intros b ->.
    destruct (fs_existsSync _) eqn:Hex; [| exact IH].
    apply keeps_then; [apply keeps_logger |].
    apply keeps_ret. by intros p [= <-].
Qed.

Lemma find_git_at_roots_keeps {S} name roots :
  keeps (S := S) (Process.find_git_at_roots name roots) (fun _ => True).
Proof.
  induction roots as [|root roots IH]; simpl; [by apply keeps_ret |].
  apply (keeps_bind _ _ _ _ (keeps_existsSync _)). intros b _.
  destruct b; [| exact IH].
  apply keeps_then; [apply keeps_logger | by apply keeps_ret].
Qed.

Lemma scan_where_keeps {S} name exts currentDir paths :
  keeps (S := S) (Process.scan_where name exts currentDir paths)
    (fun _ => True).
Proof.
  induction paths as [|line paths IH]; simpl; [by apply keeps_ret |].
  destruct (negb _); [exact IH |].
  destruct (Process.in_current_dir _ _).
  - apply keeps_then; [apply keeps_logger | exact IH].
  - apply keeps_then; [apply keeps_logger | by apply keeps_ret].
Qed.

Lemma findExecutable_keeps {S} name options :
  keeps (S := S) (Process.findExecutable name options) (fun _ => True).
Proof.
  unfold Process.findExecutable.
  destruct (negb isWin); [by apply keeps_ret |].
  eapply keeps_bind with (Q := fun _ => True).
  - destruct (String.eqb name "git");
      [apply find_git_at_roots_keeps | by apply keeps_ret].
  - intros [gitPath|] _; [by apply keeps_ret |].
    apply keeps_then; [apply keeps_emit |].
    destruct (execFileSync _ _ _).
    + apply scan_where_keeps.
    + apply keeps_then; [apply keeps_logger | by apply keeps_ret].
Qed.

Lemma discover_bash_on_disk {S} : keeps (S := S) Process.discover_bash on_disk.
Proof.
  unfold Process.discover_bash.
  apply (keeps_bind _ _ _ _ (findExecutable_keeps "git" None)). intros gitPath _.
  eapply keeps_bind with (Q := on_disk).
  - destruct gitPath as [gitPath|]; [| apply keeps_ret, on_disk_None].
    destruct (JS.nonempty gitPath); [| apply keeps_ret, on_disk_None].
    apply (keeps_bind _ _ _ _ (first_existing_resolved_on_disk _)).
    intros [p|] Hp; [by apply keeps_ret |].
    apply keeps_then; [apply keeps_logger | apply keeps_ret, on_disk_None].
  - intros [p|] Hp; [by apply keeps_ret |].
    apply (keeps_bind _ _ _ _ (find_bash_at_roots_on_disk _)).
    intros [p|] Hp'; [by apply keeps_ret |].
    apply keeps_then; [apply keeps_logger | apply keeps_ret, on_disk_None].
Qed.

Lemma validateGitBashPath_on_disk {S} customPath :
  keeps (S := S) (Process.validateGitBashPath customPath) on_disk.
Proof.
  intros s. destruct (validateGitBashPath_spec customPath s) as (t & -> & _).
  split; [done |]. simpl. destruct customPath as [c|]; [| apply on_disk_None].
  destruct (acceptable c) eqn:Hacc; [| apply on_disk_None].
  intros p [= <-]. unfold acceptable in Hacc.
  rewrite !andb_true_iff in Hacc. tauto.
Qed.

(** One of the two validated sources of [findGitBash] and
    [autoDiscoverGitBash]: validate, and keep the result when it is not
    empty. *)
Lemma validated_on_disk {S} customPath (yes : M S unit) (no : M S unit) :
  keeps yes (fun _ => True) -> keeps no (fun _ => True) ->
  keeps
    (let* validated := Process.validateGitBashPath customPath in
     if JS.truthy validated then yes >> ret validated else no >> ret None)
    on_disk.
Proof.
  intros Hyes Hno.
  apply (keeps_bind _ _ _ _ (validateGitBashPath_on_disk customPath)).
  intros validated Hv. destruct (JS.truthy validated).
  - apply keeps_then; [done | by apply keeps_ret].
  - apply keeps_then; [done | apply keeps_ret, on_disk_None].
Qed.

Lemma findGitBash_keeps {S} (customPath : option string) :
  keeps (S := S) (Process.findGitBash customPath)
    (fun r => forall p, r = Some p -> fs_existsSync p = true /\ isWin = true).
Proof.
  unfold Process.findGitBash. destruct isWin; [| by apply keeps_ret].
  cbn [negb].
  apply keeps_weaken with (Q := on_disk);
    [| by intros r Hr p ->; split; [apply Hr |]].
  eapply keeps_bind with (Q := on_disk).
  - destruct (JS.truthy customPath); [| apply keeps_ret, on_disk_None].
    apply validated_on_disk; apply keeps_logger.
  - intros [p|] Hp; [by apply keeps_ret |].
    eapply keeps_bind with (Q := on_disk).
    + destruct (JS.truthy Process.CLAUDE_CODE_GIT_BASH_PATH);
        [| apply keeps_ret, on_disk_None].
      apply validated_on_disk; apply keeps_logger.
    + intros [p|] Hp'; [by apply keeps_ret | apply discover_bash_on_disk].
Qed.

(** X13. A path [findGitBash] returns exists on disk, whichever of its
    four steps found it, and the search leaves the state alone; off
    Windows it finds nothing. *)
Theorem findGitBash_on_disk (S : Type) (customPath : option string) (s : S) :
  let '(r, s', t) := Process.findGitBash customPath s in
  s' = s
  /\ (forall p, r = Some p -> fs_existsSync p = true /\ isWin = true).
Proof.
  destruct (findGitBash_keeps customPath s) as [Hs Hr].
  by destruct (Process.findGitBash customPath s) as [[r s'] t].
Qed.

(** A validation step of the locator yields what the candidate validates
    to. *)
Lemma validated_step {S} customPath (yes no : M S unit) :
  keeps yes (fun _ => True) -> keeps no (fun _ => True) ->
  keeps
    (if JS.truthy customPath
     then
       let* v := Process.validateGitBashPath customPath in
       if JS.truthy v then yes >> ret v else no >> ret None
     else ret None)
    (fun r => r = validated customPath).
Proof.
  intros Hyes Hno s. unfold validated.
  destruct customPath as [[|c p]|]; [done | | done].
  cbn [JS.truthy JS.nonempty]. unfold bind.
  destruct (validateGitBashPath_spec (Some (String c p)) s) as (t & -> & _).
  destruct (acceptable (String c p)) eqn:Hacc.
  - rewrite (acceptable_resolved _ Hacc).
    destruct (Hyes s) as [Hs _]. destruct (yes s) as [[u s1] t1].
    simpl in *. by subst s1.
  - cbn [JS.truthy]. destruct (Hno s) as [Hs _].
    destruct (no s) as [[u s1] t1]. simpl in *. by subst s1.
Qed.

Lemma validated_on_disk_path customPath p :
  validated customPath = Some p -> fs_existsSync p = true.
Proof.
  unfold validated. destruct customPath as [c|]; [| done].
  destruct (acceptable c) eqn:Hacc; [| done]. intros [= <-].
  unfold acceptable in Hacc. rewrite !andb_true_iff in Hacc. tauto.
Qed.

(** X14. [autoDiscoverGitBash] returns only paths that exist on disk, and
    it changes the configuration in one case, in which it does change it:
    on Windows, when neither the override nor the configured path
    validates, it returns what [findGitBash] finds without a custom path,
    and a non-empty path found is stored with the source [auto]; the next
    [getGitBashPathInfo] then reports it from the configuration without
    looking at anything.  When the override validates, or else the
    configured path does, that is what is returned and the configuration
    is as it was; so it is when nothing is found, and off Windows, where
    nothing is returned. *)
Theorem autoDiscoverGitBash_persists (cfg : Process.config) :
  let '(r, cfg', t) := Process.autoDiscoverGitBash cfg in
  let discovered := (Process.findGitBash None cfg).1.1 in
  (forall p, r = Some p -> fs_existsSync p = true)
  /\ (isWin = false -> r = None /\ cfg' = cfg)
  /\ (isWin = true ->
      match
        validated Process.CLAUDE_CODE_GIT_BASH_PATH,
        validated (Process.GitBashPath cfg)
      with
      | Some p, _ | None, Some p => r = Some p /\ cfg' = cfg
      | None, None =>
          r = discovered
          /\ if JS.truthy discovered
             then
               cfg' = {| Process.GitBashPath := discovered;
                         Process.GitBashPathSource_ := Some Process.SourceAuto |}
               /\ Process.getGitBashPathInfo cfg'
                  = ({| Process.path := discovered;
                        Process.source := Some Process.SourceAuto |}, cfg', [])
             else cfg' = cfg
      end).
Proof.
  set (Post := fun (r : option string) (cfg' : Process.config) =>
    (forall p, r = Some p -> fs_existsSync p = true)
    /\ (isWin = false -> r = None /\ cfg' = cfg)
    /\ (isWin = true ->
        match
          validated Process.CLAUDE_CODE_GIT_BASH_PATH,
          validated (Process.GitBashPath cfg)
        with
        | Some p, _ | None, Some p => r = Some p /\ cfg' = cfg
        | None, None =>
            r = (Process.findGitBash None cfg).1.1
            /\ if JS.truthy (Process.findGitBash None cfg).1.1
               then
                 cfg' = {| Process.GitBashPath := (Process.findGitBash None cfg).1.1;
                           Process.GitBashPathSource_ := Some Process.SourceAuto |}
                 /\ Process.getGitBashPathInfo cfg'
                    = ({| Process.path := (Process.findGitBash None cfg).1.1;
                          Process.source := Some Process.SourceAuto |}, cfg', [])
               else cfg' = cfg
        end)).
  assert (Post (Process.autoDiscoverGitBash cfg).1.1
            (Process.autoDiscoverGitBash cfg).1.2) as HP;
    [| by destruct (Process.autoDiscoverGitBash cfg) as [[r cfg'] t]].
  unfold Process.autoDiscoverGitBash.
  destruct isWin eqn:Hwin; [| by split]. cbn [negb].
  pose proof (validated_step (S := Process.config)
                Process.CLAUDE_CODE_GIT_BASH_PATH
                (logger Debug "Using CLAUDE_CODE_GIT_BASH_PATH override")
                (logger Warn "CLAUDE_CODE_GIT_BASH_PATH provided but path is invalid")
                (keeps_logger _ _) (keeps_logger _ _)) as Henv.
  apply (bind_post _ _
           (fun r => r = validated Process.CLAUDE_CODE_GIT_BASH_PATH)
           Post cfg (proj1 (Henv cfg)) (proj2 (Henv cfg))).
  intros r1 ->.
  destruct (validated Process.CLAUDE_CODE_GIT_BASH_PATH) as [p1|] eqn:Hv1.
  { split; [| split; [done | by intros _]].
    intros p [= <-]. by apply (validated_on_disk_path _ _ Hv1). }
  apply (bind_post read _ (fun c => c = cfg) Post cfg eq_refl eq_refl).
  intros ? ->.
  assert (keeps (S := Process.config)
            (if JS.truthy (Process.GitBashPath cfg)
             then
               let* validated :=
                 Process.validateGitBashPath (Process.GitBashPath cfg) in
               if JS.truthy validated then ret validated
               else logger Warn
                      "Existing Git Bash path is invalid, attempting auto-discovery"
                    >> ret None
             else ret None)
            (fun r => r = validated (Process.GitBashPath cfg))) as Hcfg.
  { intros s.
    pose proof (validated_step (S := Process.config) (Process.GitBashPath cfg)
                  (ret tt)
                  (logger Warn
                     "Existing Git Bash path is invalid, attempting auto-discovery")
                  (keeps_ret _ _ I) (keeps_logger _ _) s) as Hstep.
    destruct (JS.truthy (Process.GitBashPath cfg)); [| exact Hstep].
    unfold bind in *.
    destruct (Process.validateGitBashPath (Process.GitBashPath cfg) s)
      as [[v s1] t1].
    by destruct (JS.truthy v). }
  apply (bind_post _ _
           (fun r => r = validated (Process.GitBashPath cfg))
           Post cfg (proj1 (Hcfg cfg)) (proj2 (Hcfg cfg))).
  intros r2 ->.
  destruct (validated (Process.GitBashPath cfg)) as [p2|] eqn:Hv2.
  { split; [| split; [done | by intros _]].
    intros p [= <-]. by apply (validated_on_disk_path _ _ Hv2). }
  destruct (findGitBash_keeps None cfg) as [Hs3 Hr3].
  unfold bind.
  destruct (Process.findGitBash None cfg) as [[discovered s3] t3] eqn:Hfind.
  simpl in Hs3, Hr3. subst s3. cbn [fst].
  destruct (JS.truthy discovered) eqn:Htruthy.
  - unfold logger, emit, write, ret. simpl. unfold Post. simpl.
    rewrite Htruthy.
    split; [by intros ? ->; apply Hr3 |]. split; [done |]. intros _.
    split; [done |]. split; [done |].
    unfold Process.getGitBashPathInfo. rewrite Hwin. cbn [negb].
    unfold bind, read, ret. simpl. by rewrite Htruthy.
  - unfold ret, Post. simpl. rewrite Htruthy.
    split; [by intros ? ->; apply Hr3 |]. split; [done |]. by intros _.
Qed.

(** X15. With no path configured, a valid override is what
    [getGitBashPathInfo] reports, under the source [auto]: the source [env]
    is never reported for it, and nothing is stored, so the next call
    validates the override again. *)
Theorem getGitBashPathInfo_override_as_auto
    (cfg : Process.config) (override : string) :
  isWin = true ->
  Process.CLAUDE_CODE_GIT_BASH_PATH = Some override ->
  acceptable override = true ->
  JS.truthy (Process.GitBashPath cfg) = false ->
  exists d1 d2,
    Process.getGitBashPathInfo cfg
    = ({| Process.path := Some (path_resolve process_cwd override);
          Process.source := Some Process.SourceAuto |}, cfg,
       [ExistsSync (path_resolve process_cwd override); Log Debug d1;
        Log Debug d2]).
Proof.
  intros Hwin Henv Hacc Hcfg.
  unfold Process.getGitBashPathInfo, Process.autoDiscoverGitBash.
  rewrite Hwin, Henv. cbn [negb]. unfold bind at 1. unfold read at 1.
  rewrite Hcfg. cbn [negb].
  assert (JS.truthy (Some override) = true) as ->.
  { unfold acceptable in Hacc. by destruct override. }
  unfold bind.
  destruct (validateGitBashPath_spec (Some override) cfg)
    as (t & -> & _ & _ & Hok).
  destruct (Hok override eq_refl Hacc) as [d ->].
  rewrite Hacc, (acceptable_resolved override Hacc).
  unfold logger, emit, ret. simpl.
  destruct (path_resolve process_cwd override) eqn:Hres;
    [by apply acceptable_resolved in Hacc; rewrite Hres in Hacc |].
  by eexists _, _.
Qed.

End GitBashMore.

Lemma getGitBashPathInfo_override_as_auto_witness :
  exists d1 d2,
    Process.getGitBashPathInfo (NP := Node.win32) (H := Examples.windows_git_bash)
      {| Process.GitBashPath := None; Process.GitBashPathSource_ := None |}
    = ({| Process.path := Some "D:\override\bash.exe";
          Process.source := Some Process.SourceAuto |},
       {| Process.GitBashPath := None; Process.GitBashPathSource_ := None |},
       [ExistsSync "D:\override\bash.exe"; Log Debug d1; Log Debug d2]).
Proof.
  exact (getGitBashPathInfo_override_as_auto (NP := Node.win32)
           (H := Examples.windows_git_bash)
           {| Process.GitBashPath := None; Process.GitBashPathSource_ := None |}
           "D:\override\bash.exe" eq_refl eq_refl eq_refl eq_refl).
Defined.

(** * Further properties of the executable search *)

Section EmitsFacts.
Context {S : Type}.

Lemma emits_ret {A} (a : A) T : emits (S := S) (ret a) T.
Proof. intros s. constructor. Qed.

Lemma emits_emit ev (T : event -> Prop) : T ev -> emits (S := S) (emit ev) T.
Proof. intros Hev s. by repeat constructor. Qed.

Lemma emits_bind {A B} (m : M S A) (k : A -> M S B) T :
  emits m T -> (forall a, emits (k a) T) -> emits (bind m k) T.
Proof.
  intros Hm Hk s. unfold bind. specialize (Hm s).
  destruct (m s) as [[a s1] t1]. specialize (Hk a s1).
  destruct (k a s1) as [[b s2] t2]. simpl in *. by apply Forall_app.
Qed.

Lemma emits_then {B} (m : M S unit) (k : M S B) T :
  emits m T -> emits k T -> emits (m >> k) T.
Proof. intros Hm Hk. by apply emits_bind. Qed.

Lemma blind_ret {A} (a : A) : blind (S := S) (ret a).
Proof. by intros s1 s2. Qed.

Lemma blind_emit ev : blind (S := S) (emit ev).
Proof. by intros s1 s2. Qed.

Lemma blind_logger l message : blind (S := S) (logger l message).
Proof. by intros s1 s2. Qed.

Lemma blind_bind {A B} (m : M S A) (k : A -> M S B) :
  blind m -> (forall a, blind (k a)) -> blind (bind m k).
Proof.
  intros Hm Hk s1 s2. unfold bind.
  destruct (Hm s1 s2) as (Ha & Ht & Hs). destruct (Hm s2 s2) as (_ & _ & Hs').
  destruct (m s1) as [[a1 s1'] t1], (m s2) as [[a2 s2'] t2].
  simpl in *. subst a2 t2 s1' s2'.
  destruct (Hk a1 s1 s2) as (Hb & Ht' & Hs'').
  destruct (k a1 s1) as [[b1 s1''] t1'], (k a1 s2) as [[b2 s2''] t2'].
  simpl in *. by subst.
Qed.

Lemma blind_then {B} (m : M S unit) (k : M S B) :
  blind m -> blind k -> blind (m >> k).
Proof. intros Hm Hk. by apply blind_bind. Qed.

End EmitsFacts.

Section SearchFacts.
Context `{NP : NodePath} `{H : Host}.

Lemma findMiseExecutable_run {S} (e : env) (s : S) :
  exists r,
    Process.findMiseExecutable e s = (r, s, [ExecFile "where.exe" ["mise"]])
    /\ (forall mise, r = Some mise ->
          mise <> "" /\ JS.endsWith (JS.toLowerCase mise) ".exe" = true).
Proof.
  unfold Process.findMiseExecutable, bind, emit, ret. simpl.
  destruct (execFileSync "where.exe" ["mise"] (Some e)) as [result|];
    [| by eexists].
  destruct (JS.nonempty (Process.first_line result)) eqn:Hne; simpl;
    [| by eexists].
  destruct (JS.endsWith _ ".exe") eqn:Hexe; [| by eexists].
  eexists. split; [reflexivity |]. intros mise [= <-].
  split; [by destruct (Process.first_line result) | done].
Qed.

(** X16. [findViaMise] asks [mise] only on Windows and only for a name
    that matches the safety pattern: otherwise it runs nothing.  A path it
    returns is the trimmed first line that [mise which] printed, is not
    empty, is absolute and exists on disk; the only programs it runs are
    [where.exe mise] and then the [.exe] that reported, with [which] and
    the name as arguments; the state is left alone. *)
Theorem findViaMise_sound (S : Type) (name : string) (e : env) (s : S) :
  let '(r, s', t) := Process.findViaMise name e s in
  s' = s
  /\ (forall p, r = Some p ->
        isWin = true /\ safety_pattern name
        /\ p <> "" /\ JS.trim p = p
        /\ path_isAbsolute p = true /\ fs_existsSync p = true
        /\ exists mise result,
             execFileSync mise ["which"; name] (Some e) = Some result
             /\ p = Process.first_line result)
  /\ (isWin = false \/ ~ safety_pattern name -> t = [])
  /\ (forall cmd args, In (ExecFile cmd args) t ->
        (cmd = "where.exe" /\ args = ["mise"])
        \/ (JS.endsWith (JS.toLowerCase cmd) ".exe" = true
            /\ args = ["which"; name])).
Proof.
  unfold Process.findViaMise.
  destruct isWin; cbn [negb];
    [| by split; [| split; [| split; [| intros ? ? []]]]].
  destruct (Regex.test_anchored Process.VALID_COMMAND_NAME_REGEX name)
    eqn:Hname; cbn [negb];
    [| by split; [| split; [| split; [| intros ? ? []]]]].
  apply VALID_COMMAND_NAME_REGEX_spec in Hname.
  unfold bind at 1.
  destruct (findMiseExecutable_run e s) as (misePath & -> & Hmise).
  destruct misePath as [mise|].
  2: { unfold logger, bind, emit, ret. simpl.
       split; [done |]. split; [done |].
       split; [by intros [| Hbad] |].
       intros cmd args [[= <- <-] | [[=] | []]]. by left. }
  destruct (Hmise mise eq_refl) as [Hne Hexe].
  destruct mise as [|c mise]; [done |].
  unfold Process.existsSync, logger, bind, emit, ret. simpl.
  destruct (execFileSync (String c mise) ["which"; name] (Some e))
    as [result|] eqn:Hexec; simpl.
  2: { split; [done |]. split; [done |].
       split; [by intros [| Hbad] |].
       intros cmd args [[= <- <-] | [[= <- <-] | [[=] | []]]];
         [by left | by right]. }
  destruct (JS.nonempty (Process.first_line result)) eqn:Hp; simpl.
  2: { split; [done |]. split; [done |].
       split; [by intros [| Hbad] |].
       intros cmd args [[= <- <-] | [[= <- <-] | [[=] | []]]];
         [by left | by right]. }
  destruct (path_isAbsolute (Process.first_line result)) eqn:Habs; simpl.
  2: { split; [done |]. split; [done |].
       split; [by intros [| Hbad] |].
       intros cmd args [[= <- <-] | [[= <- <-] | [[=] | []]]];
         [by left | by right]. }
  destruct (fs_existsSync (Process.first_line result)) eqn:Hex; simpl.
  - split; [done |]. split.
    + intros p [= <-]. repeat split; try done.
      * by destruct (Process.first_line result).
      * apply trim_idem.
      * by eexists _, _.
    + split; [by intros [| Hbad] |].
      intros cmd args [[= <- <-] | [[= <- <-] | [[=] | [[=] | []]]]];
        [by left | by right].
  - split; [done |]. split; [done |].
    split; [by intros [| Hbad] |].
    intros cmd args [[= <- <-] | [[= <- <-] | [[=] | [[=] | []]]]];
      [by left | by right].
Qed.

Lemma quiet_emits (T : event -> Prop) (t l : list event) :
  List.filter is_spawn t = l -> Forall T l ->
  (forall ev, is_spawn ev = false -> T ev) -> Forall T t.
Proof.
  intros Hf Hl HT. apply Forall_forall. intros ev Hin.
  apply list_elem_of_In in Hin.
  destruct (is_spawn ev) eqn:Hev; [| by apply HT].
  apply (proj1 (Forall_forall _ _) Hl), list_elem_of_In.
  rewrite <- Hf. apply filter_In. by split.
Qed.

Lemma findCommandInShellEnv_run {S} command e (s : S) (T : event -> Prop) :
  (forall ev, is_spawn ev = false -> T ev) ->
  T (Spawned lookup_cmd (lookup_args command)) ->
  (Process.findCommandInShellEnv command e s).1.2 = s
  /\ (forall message,
        (Process.findCommandInShellEnv command e s).1.1 = Rejected message
        <-> safety_pattern command
            /\ spawn lookup_cmd (lookup_args command) (Some e) = Throws message)
  /\ (forall p,
        (Process.findCommandInShellEnv command e s).1.1 = Resolved (Some p) ->
        safety_pattern command /\ found_ok p)
  /\ Forall T (Process.findCommandInShellEnv command e s).2.
Proof.
  intros HT Hspawn.
  destruct (Regex.test_anchored Process.VALID_COMMAND_NAME_REGEX command)
    eqn:Htest.
  - assert (safety_pattern command) as Hok
      by by apply VALID_COMMAND_NAME_REGEX_spec.
    rewrite (findCommandInShellEnv_valid command e s Hok).
    unfold bind, emit, ret.
    destruct (spawn lookup_cmd (lookup_args command) (Some e))
      as [child | thrown].
    + destruct (run_lookup_sane command child
                  {| Process.output := ""; Process.resolved := Pending;
                     Process.timer := true |} s I) as (Hsane & Hs & Ht).
      destruct (Process.run_lookup command _ _ s) as [[l s'] t].
      simpl in *. unfold sane in Hsane.
      split; [done |]. split; [| split].
      * intros message. split; [| by intros [_ ?]].
        intros Hr. by rewrite Hr in Hsane.
      * intros p Hr. by rewrite Hr in Hsane.
      * constructor; [done |]. rewrite app_nil_r.
        by apply (quiet_emits T t [] Ht).
    + simpl. split; [done |]. split; [| split; [done |]].
      * intros message. split; [by intros [= ->] | by intros [_ [= ->]]].
      * by repeat constructor.
  - unfold Process.findCommandInShellEnv. rewrite Htest. simpl.
    assert (~ safety_pattern command) as Hno.
    { intros Hok. apply VALID_COMMAND_NAME_REGEX_spec in Hok. congruence. }
    split; [done |]. split; [| split; [done |]].
    + intros message. split; [done | by intros [? _]].
    + constructor; [by apply HT | constructor].
Qed.

(** A promise that is rejected when, and as, another one is. *)
Lemma rejected_alike {A B} (f : promise A) (r : promise B)
    (X : string -> Prop) :
  (forall message, f = Rejected message <-> X message) ->
  match f with
  | Rejected message => r = Rejected message
  | _ => forall message, r <> Rejected message
  end ->
  forall message, r = Rejected message <-> X message.
Proof.
  intros Hf Hr message. rewrite <- Hf.
  destruct f as [|a|thrown]; [by split; [intros ?%Hr |] ..|].
  subst r. by split; intros [= ->].
Qed.

Section Emitted.
Context {S : Type} (T : event -> Prop).
Hypothesis HT : forall ev, is_spawn ev = false -> T ev.

Lemma logger_emits l message : emits (S := S) (logger l message) T.
Proof. apply emits_emit. by apply HT. Qed.

Lemma existsSync_emits p : emits (S := S) (Process.existsSync p) T.
Proof.
  apply emits_then; [apply emits_emit; by apply HT | apply emits_ret].
Qed.

Lemma find_git_at_roots_emits name roots :
  emits (S := S) (Process.find_git_at_roots name roots) T.
Proof.
  induction roots as [|root roots IH]; simpl; [apply emits_ret |].
  apply emits_bind; [apply existsSync_emits |]. intros [|]; [| exact IH].
  apply emits_then; [apply logger_emits | apply emits_ret].
Qed.

Lemma scan_where_emits name exts currentDir paths :
  emits (S := S) (Process.scan_where name exts currentDir paths) T.
Proof.
  induction paths as [|line paths IH]; simpl; [apply emits_ret |].
  destruct (negb _); [exact IH |].
  destruct (Process.in_current_dir _ _).
  - apply emits_then; [apply logger_emits | exact IH].
  - apply emits_then; [apply logger_emits | apply emits_ret].
Qed.

Lemma findExecutable_emits name options :
  T (ExecFile "where.exe" [name]) ->
  emits (S := S) (Process.findExecutable name options) T.
Proof.
  intros Hwhere. unfold Process.findExecutable.
  destruct (negb isWin); [apply emits_ret |].
  apply emits_bind.
  - destruct (String.eqb name "git");
      [apply find_git_at_roots_emits | apply emits_ret].
  - intros [gitPath|]; [apply emits_ret |].
    apply emits_then; [by apply emits_emit |].
    destruct (execFileSync _ _ _).
    + apply scan_where_emits.
    + apply emits_then; [apply logger_emits | apply emits_ret].
Qed.

Lemma findViaMise_emits name e :
  T (ExecFile "where.exe" ["mise"]) ->
  (forall mise, T (ExecFile mise ["which"; name])) ->
  emits (S := S) (Process.findViaMise name e) T.
Proof.
  intros Hwhere Hwhich. unfold Process.findViaMise.
  destruct (negb isWin); [apply emits_ret |].
  destruct (negb _); [apply emits_ret |].
  apply emits_bind.
  - unfold Process.findMiseExecutable.
    apply emits_then; [by apply emits_emit |].
    destruct (execFileSync _ _ _); [| apply emits_ret].
    destruct (_ && _); apply emits_ret.
  - intros misePath. destruct (negb (JS.truthy misePath)).
    + apply emits_then; [apply logger_emits | apply emits_ret].
    + cbv zeta. apply emits_then; [by apply emits_emit |].
      destruct (execFileSync _ _ _).
      * destruct (_ || _).
        -- apply emits_then; [apply logger_emits | apply emits_ret].
        -- apply emits_bind; [apply existsSync_emits |].
           intros present. destruct (negb present);
             (apply emits_then; [apply logger_emits | apply emits_ret]).
      * apply emits_then; [apply logger_emits | apply emits_ret].
Qed.

End Emitted.

Lemma findViaMise_keeps {S} name e :
  keeps (S := S) (Process.findViaMise name e) (fun _ => True).
Proof.
  unfold Process.findViaMise.
  destruct (negb isWin); [by apply keeps_ret |].
  destruct (negb _); [by apply keeps_ret |].
  eapply keeps_bind with (Q := fun _ => True).
  - unfold Process.findMiseExecutable.
    apply keeps_then; [apply keeps_emit |].
    destruct (execFileSync _ _ _); [| by apply keeps_ret].
    destruct (_ && _); by apply keeps_ret.
  - intros misePath _. destruct (negb (JS.truthy misePath)).
    + apply keeps_then; [apply keeps_logger | by apply keeps_ret].
    + cbv zeta. apply keeps_then; [apply keeps_emit |].
      destruct (execFileSync _ _ _).
      * destruct (_ || _).
        -- apply keeps_then; [apply keeps_logger | by apply keeps_ret].
        -- apply (keeps_bind _ _ _ _ (keeps_existsSync _)).
           intros present _. destruct (negb present);
             (apply keeps_then; [apply keeps_logger | by apply keeps_ret]).
      * apply keeps_then; [apply keeps_logger | by apply keeps_ret].
Qed.

Lemma search_event_quiet name ev : is_spawn ev = false -> search_event name ev.
Proof. by destruct ev. Qed.

(** The search of [findExecutableInEnv] once the environment is known. *)
Lemma search_in_env_run {S} name (e : env) (c : S) :
  (Process.search_in_env name e c).1.2 = c
  /\ (forall message,
        (Process.search_in_env name e c).1.1 = Rejected message
        <-> safety_pattern name
            /\ spawn lookup_cmd (lookup_args name) (Some e) = Throws message)
  /\ Forall (search_event name) (Process.search_in_env name e c).2
  /\ (isWin = false -> forall p,
        (Process.search_in_env name e c).1.1 = Resolved (Some p) ->
        safety_pattern name /\ path_isAbsolute p = true).
Proof.
  unfold Process.search_in_env, Process.await, bind.
  destruct (findCommandInShellEnv_run name e c (search_event name)
              (search_event_quiet name) (conj eq_refl eq_refl))
    as (Hs & Hrej & Hsound & Ht).
  destruct (Process.findCommandInShellEnv name e c) as [[f s1] t1].
  simpl in Hs, Hrej, Hsound, Ht. subst s1.
  destruct f as [|found|message].
  { unfold ret. simpl. rewrite app_nil_r.
    split; [done |]. split; [exact Hrej |]. by split. }
  2: { unfold ret. simpl. rewrite app_nil_r.
       split; [done |]. split; [exact Hrej |]. by split. }
  pose proof (fun (r : promise (option string)) Hr =>
                rejected_alike (Resolved found) r _ Hrej Hr) as Hres.
  destruct (JS.truthy found) eqn:Hfound.
  { unfold ret. simpl. rewrite app_nil_r.
    split; [done |]. split; [by apply Hres |]. split; [done |].
    intros Hwin p [= ->]. destruct (Hsound p eq_refl) as [Hok Hp].
    unfold found_ok in Hp. by rewrite Hwin in Hp. }
  destruct isWin eqn:Hwin.
  2: { unfold ret. simpl. rewrite app_nil_r.
       split; [done |]. split; [by apply Hres |]. by split. }
  assert (forall args, args = [name] \/ args = ["mise"] ->
            search_event name (ExecFile "where.exe" args)) as Hwhere.
  { intros args Hargs. simpl. rewrite Hwin. split; [done |]. by left. }
  assert (forall mise, search_event name (ExecFile mise ["which"; name]))
    as Hwhich.
  { intros mise. simpl. rewrite Hwin. split; [done |]. by right. }
  pose proof (findExecutable_keeps (S := S) name
                (Some {| Process.extensions := None;
                         Process.env_ := Some e |}) c) as [Hs2 _].
  pose proof (findExecutable_emits (S := S) (search_event name)
                (search_event_quiet name) name
                (Some {| Process.extensions := None;
                         Process.env_ := Some e |})
                (Hwhere [name] (or_introl eq_refl)) c) as Ht2.
  destruct (Process.findExecutable name _ c) as [[winFound s2] t2].
  simpl in Hs2, Ht2. subst s2.
  destruct (JS.truthy winFound).
  { unfold ret. simpl. rewrite app_nil_r.
    split; [done |]. split; [by apply Hres |].
    split; [by apply Forall_app | done]. }
  pose proof (findViaMise_keeps (S := S) name e c) as [Hs3 _].
  pose proof (findViaMise_emits (S := S) (search_event name)
                (search_event_quiet name) name e
                (Hwhere ["mise"] (or_intror eq_refl)) Hwhich c) as Ht3.
  destruct (Process.findViaMise name e c) as [[viaMise s3] t3].
  simpl in Hs3, Ht3. subst s3. unfold ret. simpl. rewrite app_nil_r.
  split; [done |]. split; [by apply Hres |].
  split; [| done]. apply Forall_app. split; [done |]. by apply Forall_app.
Qed.

Lemma findExecutableInEnv_state name (e : env) :
  (Process.findExecutableInEnv name (Some e)).1.2 = Some e
  /\ forall message,
       (Process.findExecutableInEnv name (Some e)).1.1 = Rejected message
       <-> safety_pattern name
           /\ spawn lookup_cmd (lookup_args name) (Some e) = Throws message.
Proof.
  unfold Process.findExecutableInEnv, Process.await. unfold bind.
  change (ShellEnv.getShellEnv (Some e)) with (Resolved e, Some e, @nil event).
  cbv beta iota.
  destruct (search_in_env_run name e (Some e)) as (Hs & Hrej & _).
  destruct (Process.search_in_env name e (Some e)) as [[r c'] t].
  simpl in *. by split.
Qed.

(** X17. [findExecutableInEnv] is a query: with a cached environment it
    leaves the cache as it is and starts no login shell or registry
    query; it rejects in one case only, the name matching the safety
    pattern and the [spawn] of the lookup command throwing, and then with
    that exception; the only child it spawns is the lookup
    command for the name, and it runs a program with [execFileSync] only on
    Windows ([where.exe] on the name or on [mise], and [mise which]).
    Off Windows a path it resolves to belongs to a name that matches the
    safety pattern and is absolute. *)
Theorem findExecutableInEnv_query (name : string) (e : env) :
  let '(r, cachedEnv, t) := Process.findExecutableInEnv name (Some e) in
  cachedEnv = Some e
  /\ (forall message,
        r = Rejected message
        <-> safety_pattern name
            /\ spawn lookup_cmd (lookup_args name) (Some e) = Throws message)
  /\ Forall (search_event name) t
  /\ (isWin = false -> forall p,
        r = Resolved (Some p) ->
        safety_pattern name /\ path_isAbsolute p = true).
Proof.
  unfold Process.findExecutableInEnv, Process.await. unfold bind at 1.
  change (ShellEnv.getShellEnv (Some e)) with (Resolved e, Some e, @nil event).
  cbv beta iota.
  destruct (search_in_env_run name e (Some e)) as (Hs & Hrej & Ht & Hposix).
  destruct (Process.search_in_env name e (Some e)) as [[r c'] t].
  simpl in *. tauto.
Qed.

(** X18. On Windows the safety pattern guards the lookup command and
    [mise] only: for a name that does not match it, [findExecutableInEnv]
    warns, and then runs [where.exe] on that very name and resolves to what
    [findExecutable] makes of its answer; no other program is run. *)
Theorem findExecutableInEnv_unvalidated (name : string) (e : env) :
  isWin = true ->
  ~ safety_pattern name ->
  let found :=
    (Process.findExecutable name
       (Some {| Process.extensions := None; Process.env_ := Some e |})
       (Some e)).1.1 in
  exists w t,
    Process.findExecutableInEnv name (Some e)
    = (Resolved (if JS.truthy found then found else None), Some e,
       Log Warn w :: ExecFile "where.exe" [name] :: t)
    /\ List.filter is_spawn t = [].
Proof.
  intros Hwin Hbad found.
  assert (Regex.test_anchored Process.VALID_COMMAND_NAME_REGEX name = false)
    as Htest.
  { destruct (Regex.test_anchored _ name) eqn:Htest; [| done].
    by apply VALID_COMMAND_NAME_REGEX_spec in Htest. }
  assert (String.eqb name "git" = false) as Hgit.
  { destruct (String.eqb name "git") eqn:Hgit; [| done].
    apply String.eqb_eq in Hgit as ->. destruct Hbad.
    exists "g"%char, "it". repeat split; simpl; lia. }
  assert (exists t,
            Process.findExecutable name
              (Some {| Process.extensions := None; Process.env_ := Some e |})
              (Some e)
            = (found, Some e, ExecFile "where.exe" [name] :: t)
            /\ List.filter is_spawn t = []) as (t & Hfind & Ht).
  { subst found. unfold Process.findExecutable.
    rewrite Hwin, Hgit. cbn [negb]. unfold bind, emit, ret. simpl.
    destruct (execFileSync "where.exe" [name] (Some e)) as [result|].
    - pose proof (scan_where_keeps (S := option env) name [".exe"; ".cmd"]
                    (JS.toLowerCase process_cwd)
                    (List.filter JS.nonempty (JS.split_lines (JS.trim result)))
                    (Some e)) as [Hs _].
      pose proof (scan_where_emits (S := option env)
                    (fun ev => is_spawn ev = false) (fun ev Hev => Hev)
                    name [".exe"; ".cmd"] (JS.toLowerCase process_cwd)
                    (List.filter JS.nonempty (JS.split_lines (JS.trim result)))
                    (Some e)) as Hquiet.
      destruct (Process.scan_where name _ _ _ (Some e)) as [[r s'] t].
      simpl in *. subst s'. exists t. split; [done |].
      induction Hquiet as [|ev t Hev _ IH]; [done |]. simpl. by rewrite Hev.
    - unfold logger, emit. simpl. by eexists. }
  unfold Process.findExecutableInEnv, Process.await. unfold bind at 1.
  change (ShellEnv.getShellEnv (Some e)) with (Resolved e, Some e, @nil event).
  cbv beta iota.
  unfold Process.search_in_env, Process.await, Process.findCommandInShellEnv,
    Process.findViaMise.
  rewrite Htest, Hwin. cbn [negb]. unfold bind at 1 2. unfold logger at 1.
  unfold emit at 1, ret at 1. cbv beta iota. cbn [JS.truthy].
  unfold bind at 1. rewrite Hfind.
  destruct (JS.truthy found); unfold bind, ret; simpl;
    eexists _, _; (split; [reflexivity |]); by rewrite ?app_nil_r.
Qed.

End SearchFacts.

Lemma findExecutableInEnv_unvalidated_witness :
  exists w t,
    Process.findExecutableInEnv (NP := Node.win32) (H := Examples.windows_spaced)
      "my tool" (Some [("Path", "C:\tools")])
    = (Resolved (Some "C:\tools\my tool.exe"), Some [("Path", "C:\tools")],
       Log Warn w :: ExecFile "where.exe" ["my tool"] :: t)
    /\ List.filter is_spawn t = [].
Proof.
  apply (findExecutableInEnv_unvalidated (NP := Node.win32)
           (H := Examples.windows_spaced) "my tool" [("Path", "C:\tools")]
           eq_refl).
  rewrite <- VALID_COMMAND_NAME_REGEX_spec. by vm_compute.
Defined.

(** * The check for Git *)

Section FreshFacts.
Context `{NP : NodePath} `{H : Host}.

Lemma on_child_event_blind {S} sh home p ev :
  blind (S := S) (ShellEnv.on_child_event sh home p ev).
Proof.
  destruct ev; simpl.
  - apply blind_ret.
  - apply blind_ret.
  - apply blind_then; [apply blind_logger |].
    destruct (ShellEnv.is_settled p); apply blind_ret.
  - destruct (ShellEnv.is_settled p); [apply blind_ret |].
    destruct (negb _).
    + apply blind_then; [apply blind_logger | apply blind_ret].
    + apply blind_then.
      * destruct (JS.nonempty _); [apply blind_logger | apply blind_ret].
      * cbv zeta. apply blind_then.
        -- destruct (_ && _); [| apply blind_ret].
           apply blind_then; apply blind_logger.
        -- destruct (ShellEnv.appendCherryBinToPath _); [apply blind_ret |].
           apply blind_then; [apply blind_emit | apply blind_ret].
  - destruct (ShellEnv.is_settled p); [apply blind_ret |].
    apply blind_then; [apply blind_logger |].
    apply blind_then; [apply blind_emit | apply blind_ret].
Qed.

Lemma run_child_blind {S} sh home evs : forall p,
  blind (S := S) (ShellEnv.run_child sh home p evs).
Proof.
  induction evs as [|ev evs IH]; intros p; simpl; [apply blind_ret |].
  apply blind_bind; [apply on_child_event_blind | exact IH].
Qed.

Lemma getWindowsEnvironment_blind {S} :
  blind (S := S) ShellEnv.getWindowsEnvironment.
Proof.
  unfold ShellEnv.getWindowsEnvironment. cbv zeta.
  apply blind_bind.
  - unfold ShellEnv.readWindowsRegistryPath, ShellEnv.queryRegValue.
    apply blind_bind; [apply blind_then; [apply blind_emit | apply blind_ret] |].
    intros systemPath.
    apply blind_bind; [apply blind_then; [apply blind_emit | apply blind_ret] |].
    intros userPath. destruct (_ && _); apply blind_ret.
  - intros registryPath. apply blind_bind; [| intros e1; apply blind_ret].
    destruct registryPath as [rp|];
      [destruct (JS.nonempty rp) |];
      (apply blind_then; [apply blind_logger | apply blind_ret]).
Qed.

Lemma fetchShellEnv_blind {S} : blind (S := S) ShellEnv.fetchShellEnv.
Proof.
  unfold ShellEnv.fetchShellEnv, ShellEnv.getLoginShellEnvironment.
  apply blind_bind.
  - apply blind_bind.
    + unfold ShellEnv.probe_start. destruct isWin.
      * apply blind_bind; [apply getWindowsEnvironment_blind |].
        intros [e | message]; apply blind_ret.
      * destruct ShellEnv.homeDirectory as [home | message];
          [| apply blind_ret].
        destruct (negb _); [apply blind_ret |].
        apply blind_then.
        -- destruct (JS.truthy _); [apply blind_ret |].
           destruct isMac; apply blind_logger.
        -- apply blind_then; [apply blind_logger |].
           apply blind_then; [apply blind_emit |].
           destruct (spawn _ _ _); apply blind_ret.
    + intros [settled_already|sh]; [apply blind_ret |].
      unfold ShellEnv.probe_finish.
      apply blind_bind; [apply run_child_blind | intros p; apply blind_ret].
  - intros r. unfold ShellEnv.fetch_settle.
    destruct r; try apply blind_ret.
    apply blind_then; [apply blind_logger |].
    destruct ShellEnv.fallbackEnv; apply blind_ret.
Qed.

Lemma refreshShellEnv_run (c : option env) :
  ShellEnv.refreshShellEnv c
  = ((ShellEnv.fetchShellEnv c).1.1,
     match (ShellEnv.fetchShellEnv c).1.1 with
     | Resolved e => Some e
     | _ => c
     end,
     (ShellEnv.fetchShellEnv c).2).
Proof.
  unfold ShellEnv.refreshShellEnv, bind.
  destruct (fetchShellEnv_settles c) as [Hs _].
  destruct (ShellEnv.fetchShellEnv c) as [[r s'] t].
  simpl in *. subst s'.
  destruct r; unfold write, ret; simpl; by rewrite app_nil_r.
Qed.

Lemma safety_pattern_git : safety_pattern "git".
Proof. exists "g"%char, "it". repeat split; simpl; lia. Qed.

(** X19. [checkGitAvailable] does not depend on the environment cached
    before it: from any two caches it settles alike after the same
    actions, having probed the environment anew and searched for [git] in
    what the probe gave, which is the cache afterwards.  It rejects in two
    cases only, and then with the exception thrown: the fresh environment
    is rejected, which takes a copy of [process.env] that names no home
    directory and an [os.homedir()] that throws; or the [spawn] of the
    lookup command for [git] throws in the fresh environment.  It reports
    Git as available exactly when it reports a path. *)
Theorem checkGitAvailable_fresh (c1 c2 : option env) :
  (Process.checkGitAvailable c1).1.1 = (Process.checkGitAvailable c2).1.1
  /\ (Process.checkGitAvailable c1).2 = (Process.checkGitAvailable c2).2
  /\ (forall message,
        (Process.checkGitAvailable c1).1.1 = Rejected message
        <-> (ShellEnv.fetchShellEnv c1).1.1 = Rejected message
            \/ exists e,
                 (ShellEnv.fetchShellEnv c1).1.1 = Resolved e
                 /\ spawn lookup_cmd (lookup_args "git") (Some e)
                    = Throws message)
  /\ (forall message,
        (ShellEnv.fetchShellEnv c1).1.1 = Rejected message ->
        home_variable (Env.copy process_env) = None
        /\ os_homedir = Throws message)
  /\ (forall g,
        (Process.checkGitAvailable c1).1.1 = Resolved g ->
        (Process.checkGitAvailable c1).1.2 = (Process.checkGitAvailable c2).1.2
        /\ (exists e,
              (ShellEnv.fetchShellEnv c1).1.1 = Resolved e
              /\ (Process.checkGitAvailable c1).1.2 = Some e)
        /\ (Process.available g = true
            <-> exists p, Process.git_path g = Some p)).
Proof.
  unfold Process.checkGitAvailable, Process.await, bind.
  rewrite !refreshShellEnv_run.
  destruct (fetchShellEnv_blind c1 c2) as (Hr & Ht & _).
  destruct (fetchShellEnv_settles c1) as [_ Hrej].
  rewrite <- Hr, <- Ht.
  destruct (ShellEnv.fetchShellEnv c1) as [[r s'] t]. simpl in Hrej |- *.
  assert (forall message,
            r = Rejected message ->
            home_variable (Env.copy process_env) = None
            /\ os_homedir = Throws message) as Hhome.
  { intros message Hm. by apply fallbackEnv_throws, Hrej. }
  destruct r as [|e|thrown].
  { unfold ret. simpl. split; [done |]. split; [done |].
    split; [| by split]. intros message.
    split; [done | by intros [| (e & ? & _)]]. }
  2: { unfold ret. simpl. split; [done |]. split; [done |].
       split; [| by split]. intros message.
       split; [intros [= ->]; by left | by intros [[= ->] | (e & ? & _)]]. }
  pose proof (findExecutableInEnv_state "git" e) as Hquery.
  destruct (Process.findExecutableInEnv "git" (Some e)) as [[f c'] t'].
  simpl in Hquery. destruct Hquery as [-> Hthrows].
  assert (forall message,
            f = Rejected message
            <-> Resolved e = Rejected message
                \/ exists e0,
                     Resolved e = Resolved e0
                     /\ spawn lookup_cmd (lookup_args "git") (Some e0)
                        = Throws message) as Hf.
  { intros message. rewrite Hthrows. split.
    - intros [_ Hspawn]. right. by exists e.
    - intros [| (e0 & [= <-] & Hspawn)]; [done |].
      split; [apply safety_pattern_git | done]. }
  destruct f as [|gitPath|message].
  { unfold ret. simpl. split; [done |]. split; [done |].
    split; [by apply (rejected_alike _ _ _ Hf) |]. by split. }
  2: { unfold ret. simpl. split; [done |]. split; [done |].
       split; [by apply (rejected_alike _ _ _ Hf) |]. by split. }
  unfold logger, emit, ret. simpl.
  split; [done |]. split; [done |].
  split; [by apply (rejected_alike _ _ _ Hf) | split; [done |]].
  intros g [= <-]. simpl. split; [done |]. split; [by exists e |].
  rewrite bool_decide_eq_true. destruct gitPath; split; try done.
  - by eexists.
  - by intros [p [=]].
Qed.

End FreshFacts.

(** * The output of the registry query *)

Section RegistryFacts.
Context `{NP : NodePath} `{H : Host}.

Lemma drop_prefix_ci_app a b s r :
  ShellEnv.drop_prefix_ci (a +:+ b) s = Some r ->
  exists r', ShellEnv.drop_prefix_ci a s = Some r'.
Proof.
  revert s; induction a as [|x a IH]; intros s; simpl; [by eexists |].
  destruct s as [|c s]; [done |].
  destruct (Ascii.eqb (JS.lower_char c) x); [apply IH | done].
Qed.

Lemma match_reg_sz_here_reg s capture :
  ShellEnv.match_reg_sz_here s = Some capture ->
  exists r, ShellEnv.drop_prefix_ci "reg_" s = Some r.
Proof.
  unfold ShellEnv.match_reg_sz_here. intros Hm.
  destruct (ShellEnv.drop_prefix_ci "reg_expand_sz" s) as [r|] eqn:He.
  - by apply (drop_prefix_ci_app "reg_" "expand_sz" s r).
  - destruct (ShellEnv.drop_prefix_ci "reg_sz" s) as [r|] eqn:Hs; [| done].
    by apply (drop_prefix_ci_app "reg_" "sz" s r).
Qed.

(** No match starts in a text that does not mention [REG_] when the type
    name follows it. *)
Lemma match_reg_sz_skip pre tail :
  mentions "reg_" pre = false ->
  (exists x, tail = "REG_" +:+ x) ->
  ShellEnv.match_reg_sz (pre +:+ tail) = ShellEnv.match_reg_sz tail.
Proof.
  intros Hpre [x ->]. induction pre as [|c pre IH]; [reflexivity |].
  cbn [mentions] in Hpre.
  destruct (ShellEnv.drop_prefix_ci "reg_" (String c pre)) as [r|] eqn:Hd;
    [done |].
  change (ShellEnv.match_reg_sz (String c pre +:+ "REG_" +:+ x))
    with (match ShellEnv.match_reg_sz_here (String c (pre +:+ "REG_" +:+ x)) with
          | Some capture => Some capture
          | None => ShellEnv.match_reg_sz (pre +:+ "REG_" +:+ x)
          end).
  destruct (ShellEnv.match_reg_sz_here (String c (pre +:+ "REG_" +:+ x)))
    as [capture|] eqn:Hhere; [| by apply IH].
  exfalso. apply match_reg_sz_here_reg in Hhere as [r Hr].
  clear -Hd Hr. simpl in Hd, Hr.
  destruct (Ascii.eqb (JS.lower_char c) "r"); [| done].
  destruct pre as [|c1 pre]; [done |]. simpl in Hd, Hr.
  destruct (Ascii.eqb (JS.lower_char c1) "e"); [| done].
  destruct pre as [|c2 pre]; [done |]. simpl in Hd, Hr.
  destruct (Ascii.eqb (JS.lower_char c2) "g"); [| done].
  destruct pre as [|c3 pre]; [done |]. simpl in Hd, Hr.
  by destruct (Ascii.eqb (JS.lower_char c3) "_").
Qed.

Lemma trimStart_spaces ws x :
  all_chars JS.is_space ws = true ->
  JS.trimStart (ws +:+ x) = JS.trimStart x.
Proof.
  induction ws as [|c ws IH]; simpl; [done |].
  destruct (JS.is_space c); [exact IH | done].
Qed.

Lemma trimmed_head v :
  JS.trim v = v -> v <> "" ->
  exists c r, v = String c r /\ JS.is_space c = false.
Proof.
  unfold JS.trim. intros Hv Hne.
  destruct (trimStart_cases v) as [He | (c & r & He & Hc)]; rewrite He in Hv.
  - by destruct v.
  - destruct (trimEnd_head c r Hc) as [r' Hr']. rewrite Hr' in Hv.
    by exists c, r'.
Qed.

Lemma take_line_app value t :
  JS.includes_char "010" value = false ->
  JS.includes_char "013" value = false ->
  ShellEnv.take_line (value +:+ t) = value +:+ ShellEnv.take_line t.
Proof.
  induction value as [|c value IH]; simpl; [done |].
  destruct (Ascii.eqb c "010"); [done |].
  destruct (Ascii.eqb c "013"); [done |]. simpl.
  intros Hn Hr. by rewrite IH.
Qed.

(** X21. [queryRegValue] reads the value off the line [reg query] prints
    for it: when the output is some text that does not mention [REG_],
    the type name [REG_SZ] or [REG_EXPAND_SZ], white space, the value and
    the end of the line, the value is what is returned. *)
Theorem queryRegValue_parses
    (keyPath valueName pre typ ws value rest : string) :
  execFileSync "reg" ["query"; keyPath; "/v"; valueName] None
  = Some (pre +:+ typ +:+ ws +:+ value +:+ rest) ->
  mentions "reg_" pre = false ->
  typ = "REG_SZ" \/ typ = "REG_EXPAND_SZ" ->
  ws <> "" -> all_chars JS.is_space ws = true ->
  value <> "" -> JS.trim value = value ->
  JS.includes_char "010" value = false ->
  JS.includes_char "013" value = false ->
  ShellEnv.take_line rest = "" ->
  ShellEnv.regValue keyPath valueName = Some value.
Proof.
  intros Hexec Hpre Htyp Hws Hspace Hne Htrim Hn Hr Hrest.
  unfold ShellEnv.regValue. rewrite Hexec.
  rewrite match_reg_sz_skip;
    [| done | by destruct Htyp as [-> | ->]; eexists].
  destruct ws as [|w ws]; [done |]. simpl in Hspace.
  apply andb_true_iff in Hspace as [Hw Hspace].
  destruct (trimmed_head value Htrim Hne) as (c & r & Hv & Hc).
  assert (ShellEnv.match_reg_sz_here
            (typ +:+ String w ws +:+ value +:+ rest) = Some value) as Hhere.
  { unfold ShellEnv.match_reg_sz_here.
    assert ((match ShellEnv.drop_prefix_ci "reg_expand_sz"
                     (typ +:+ String w ws +:+ value +:+ rest) with
             | Some r0 => Some r0
             | None => ShellEnv.drop_prefix_ci "reg_sz"
                         (typ +:+ String w ws +:+ value +:+ rest)
             end) = Some (String w (ws +:+ value +:+ rest))) as ->
      by (destruct Htyp as [-> | ->]; reflexivity).
    rewrite Hw, trimStart_spaces by done.
    assert (JS.trimStart (value +:+ rest) = value +:+ rest) as ->
      by (rewrite Hv; simpl; by rewrite Hc).
    by rewrite take_line_app, Hrest, append_nil_r. }
  destruct (typ +:+ String w ws +:+ value +:+ rest) as [|t0 tail] eqn:Htail.
  - by destruct Htyp as [-> | ->].
  - change (ShellEnv.match_reg_sz (String t0 tail))
      with (match ShellEnv.match_reg_sz_here (String t0 tail) with
            | Some capture => Some capture
            | None => ShellEnv.match_reg_sz tail
            end).
    by rewrite Hhere, Htrim.
Qed.

End RegistryFacts.

Lemma queryRegValue_parses_witness :
  ShellEnv.regValue (H := Examples.windows_registry) ShellEnv.HKLM_KEY "Path"
  = Some "%SystemRoot%\system32;C:\NodeJS".
Proof.
  apply (queryRegValue_parses (H := Examples.windows_registry)
           ShellEnv.HKLM_KEY "Path"
           (Examples.crlf +:+ ShellEnv.HKLM_KEY +:+ Examples.crlf
              +:+ "    Path    ")
           "REG_EXPAND_SZ" "    " "%SystemRoot%\system32;C:\NodeJS"
           (Examples.crlf +:+ Examples.crlf)).
  - reflexivity.
  - reflexivity.
  - by right.
  - discriminate.
  - reflexivity.
  - discriminate.
  - reflexivity.
  - reflexivity.
  - reflexivity.
  - reflexivity.
Defined.

(** * Running a command *)

Section CommandFacts.
Context `{NP : NodePath} `{H : Host}.
Variable spawn_shell :
  string -> list string -> option env -> attempt (list child_event).

Lemma run_command_outputs {S} capture timeout pre : forall rest r (s : S),
  forallb is_output pre = true ->
  Process.run_command capture timeout r (pre ++ rest) s
  = Process.run_command capture timeout
      {| Process.stdout := Process.stdout r +:+ stdout_of pre;
         Process.stderr := Process.stderr r +:+ stderr_of pre;
         Process.outcome := Process.outcome r;
         Process.timeoutId := Process.timeoutId r |} rest s.
Proof.
  induction pre as [|ev pre IH]; intros rest r s Hpre.
  - simpl. rewrite !append_nil_r. by destruct r.
  - simpl in Hpre. apply andb_true_iff in Hpre as [Hev Hpre].
    destruct ev; try discriminate; simpl; unfold bind, ret; simpl;
      rewrite (IH rest _ s Hpre); simpl; rewrite ?append_assoc;
      by destruct (Process.run_command _ _ _ rest s) as [[? ?] ?].
Qed.

Lemma run_command_settled {S} capture timeout evs : forall r (s : S),
  Process.outcome r <> Pending -> Process.timeoutId r = false ->
  exists r',
    Process.run_command capture timeout r evs s = (r', s, [])
    /\ Process.outcome r' = Process.outcome r.
Proof.
  induction evs as [|ev evs IH]; intros r s Hr Ht; [by eexists |].
  simpl. unfold bind.
  assert (exists r1,
            Process.on_command_event capture timeout r ev s = (r1, s, [])
            /\ Process.outcome r1 = Process.outcome r
            /\ Process.timeoutId r1 = false) as (r1 & -> & Hr1 & Ht1).
  { destruct ev; simpl; unfold Process.settle, Process.clear_timer; simpl.
    - by eexists.
    - by eexists.
    - eexists. split; [reflexivity |]. split; [| done].
      simpl. by destruct (Process.outcome r).
    - destruct (bool_decide _); unfold ret; eexists;
        (split; [reflexivity |]); (split; [| done]);
        simpl; by destruct (Process.outcome r).
    - rewrite Ht. by eexists. }
  destruct (IH r1 s) as (r' & -> & Hr'); [congruence | done |].
  exists r'. split; [done | congruence].
Qed.

(** X22. [executeCommand] settles at the first event of the child besides
    output, and only once: it resolves on a close with code 0, to the
    standard output read so far when [capture] is set and to the empty
    string otherwise; it rejects on any other close with the standard
    error read so far, or with the exit code when there is none, on an
    error with its message, and on the timer, which is the one case where
    the child is killed.  Nothing that happens afterwards changes the
    outcome.  With no environment given the cached shell environment is
    used, and the cache is left as it is. *)
Theorem executeCommand_settles
    (command : string) (args : list string) (capture : bool) (e : env)
    (timeout : Z) (cachedEnv : option env)
    (pre post : list child_event) (ev : child_event) :
  Process.crossPlatformSpawn spawn_shell command args e
  = Returns (pre ++ ev :: post) ->
  forallb is_output pre = true ->
  is_output ev = false ->
  (ev = TimerFired -> timeout <> 0%Z) ->
  Process.executeCommand spawn_shell command args capture (Some e) timeout
    cachedEnv
  = (command_result capture timeout pre ev, cachedEnv,
     Spawned command args
       :: match ev with TimerFired => [Killed] | _ => [] end)
  /\ Process.executeCommand spawn_shell command args capture None timeout
       (Some e)
     = (command_result capture timeout pre ev, Some e,
        Spawned command args
          :: match ev with TimerFired => [Killed] | _ => [] end).
Proof.
  intros Hspawn Hpre Hev Htimer.
  assert (forall c : option env,
            (let* r :=
               Process.run_command capture timeout
                 {| Process.stdout := ""; Process.stderr := "";
                    Process.outcome := Pending;
                    Process.timeoutId := negb (timeout =? 0)%Z |}
                 (pre ++ ev :: post) in
             ret (Process.outcome r)) c
            = (command_result capture timeout pre ev, c,
               match ev with TimerFired => [Killed] | _ => [] end)) as Hrun.
  { intros c. unfold bind.
    rewrite (run_command_outputs capture timeout pre (ev :: post) _ c Hpre).
    cbn [Process.stdout Process.stderr Process.outcome Process.timeoutId
         String.append Process.run_command].
    unfold bind.
    assert (exists r1,
              Process.on_command_event capture timeout
                {| Process.stdout := stdout_of pre;
                   Process.stderr := stderr_of pre;
                   Process.outcome := Pending;
                   Process.timeoutId := negb (timeout =? 0)%Z |} ev c
              = (r1, c, match ev with TimerFired => [Killed] | _ => [] end)
              /\ Process.outcome r1 = command_result capture timeout pre ev
              /\ Process.outcome r1 <> Pending
              /\ Process.timeoutId r1 = false) as (r1 & -> & Hr1 & Hne & Ht1).
    { destruct ev; try discriminate; simpl.
      - eexists. by repeat split.
      - destruct (bool_decide _); eexists; by repeat split.
      - assert ((timeout =? 0)%Z = false) as ->
          by (apply Z.eqb_neq; by apply Htimer).
        simpl. unfold bind, emit, ret. simpl. eexists. by repeat split. }
    destruct (run_command_settled capture timeout post r1 c Hne Ht1)
      as (r' & -> & Hr').
    unfold ret. by rewrite !app_nil_r, Hr', Hr1. }
  unfold Process.executeCommand, Process.await.
  split.
  - unfold bind at 1. unfold ret at 1. cbv beta iota.
    unfold bind at 1. unfold emit at 1. cbv beta iota.
    rewrite Hspawn, Hrun. reflexivity.
  - unfold bind at 1.
    change (ShellEnv.getShellEnv (Some e)) with (Resolved e, Some e, @nil event).
    cbv beta iota.
    unfold bind at 1. unfold emit at 1. cbv beta iota.
    rewrite Hspawn, Hrun. reflexivity.
Qed.

End CommandFacts.

Lemma executeCommand_settles_witness :
  Process.executeCommand (NP := Node.posix false) (H := Examples.linux_git)
    (fun _ _ _ => Returns []) "git" ["--version"] true (Some []) 1000 None
  = (Resolved ("git version 2.43.0" +:+ Examples.nl), None,
     [Spawned "git" ["--version"]]).
Proof.
  apply (executeCommand_settles (NP := Node.posix false)
           (H := Examples.linux_git) (fun _ _ _ => Returns []) "git" ["--version"]
           true [] 1000 None
           [ChildStdout "git version "; ChildStderr "hint: none";
            ChildStdout ("2.43.0" +:+ Examples.nl)]
           [TimerFired] (ChildClose (Some 0%Z))).
  - reflexivity.
  - reflexivity.
  - reflexivity.
  - discriminate.
Defined.
